(** * hcipy: Fourier-domain filtering and shearing operators

    A shallow embedding of [hcipy/fourier/fourier_operations.py]
    ([FourierFilter], [FourierShear]) and of
    [hcipy/optics/optical_element.py] ([OpticalElement]).

    Arrays live in a store of buffers so that views ([Field.shaped],
    [reshape]) alias the storage they were taken from, and Python methods
    are written in a state-and-exception monad over that store.  Samples
    are kept abstract (class [Scalar]); the FFT routines of [_math.fft]
    are an interface (class [FFTBackend]). *)

From Stdlib Require Import QArith Qcanon.
From stdpp Require Import base tactics option list numbers strings gmap.

Open Scope Z_scope.
Open Scope nat_scope.

(** ** Python exceptions and outcomes *)

Inductive exn :=
  | NameError (name : string)
  | ValueError (msg : string)
  | TypeError (msg : string)
  | IndexError (msg : string)
  | NotImplementedError.

Inductive outcome (A : Type) :=
  | Return (a : A)
  | Raise (e : exn).
Arguments Return {A} a.
Arguments Raise {A} e.

(** ** numpy dtypes *)

Inductive dtype := float32 | float64 | complex64 | complex128.

#[global] Instance dtype_eq_dec : EqDecision dtype.
Proof. solve_decision. Defined.

Definition is_complex (d : dtype) : bool :=
  match d with complex64 | complex128 => true | _ => false end.

Definition is_double (d : dtype) : bool :=
  match d with float64 | complex128 => true | _ => false end.

(** numpy's result type of a binary operation on two arrays. *)
Definition result_type (a b : dtype) : dtype :=
  match is_complex a || is_complex b, is_double a || is_double b with
  | true, true => complex128
  | true, false => complex64
  | false, true => float64
  | false, false => float32
  end.

(** ** Samples

    The arithmetic the code performs on array elements.  [c_cast d] is
    what [astype(d)] does to one element. *)

Class Scalar (C : Type) := {
  c_zero : C;
  c_one : C;
  c_add : C → C → C;
  c_mul : C → C → C;
  c_neg : C → C;
  c_conj : C → C;
  c_i : C;
  c_cast : dtype → C → C;
}.

(** [np.exp] on one element. *)
Class ScalarExp (C : Type) := c_exp : C → C.

(** ** The FFT routines of [_math.fft]

    [fft_data inverse shape axes x] is the transform of the C-ordered
    array [x] of shape [shape] over the (normalised) axes [axes];
    [fft_scratch] is what the routine leaves in its input buffer when it
    is allowed to overwrite it, and [fft_dtype] the dtype of its result. *)

Class FFTBackend (C : Type) := {
  fft_data : bool → list nat → list nat → list C → list C;
  fft_scratch : bool → list nat → list nat → list C → list C;
  fft_dtype : dtype → dtype;
}.

(** ** Python integers used as indices *)

(** [l[i]] *)
Definition py_index {A} (l : list A) (i : Z) : option A :=
  if decide (0 ≤ i)%Z then l !! Z.to_nat i
  else if decide (- Z.of_nat (length l) ≤ i)%Z then l !! Z.to_nat (Z.of_nat (length l) + i)
  else None.

(** [l[:stop]] *)
Definition py_take_to {A} (stop : Z) (l : list A) : list A :=
  if decide (0 ≤ stop)%Z then take (Z.to_nat stop) l
  else take (Z.to_nat (Z.of_nat (length l) + stop)) l.

(** [range(a, b)] *)
Definition py_range (a b : Z) : list Z :=
  (λ k, (a + Z.of_nat k)%Z) <$> seq 0 (Z.to_nat (b - a)).

(** An axis number, brought into [0, ndim). *)
Definition norm_axis (ndim : nat) (a : Z) : option nat :=
  if decide (0 ≤ a < Z.of_nat ndim)%Z then Some (Z.to_nat a)
  else if decide (- Z.of_nat ndim ≤ a < 0)%Z then Some (Z.to_nat (Z.of_nat ndim + a))
  else None.

Definition norm_axes (ndim : nat) (axes : list Z) : option (list nat) :=
  mapM (norm_axis ndim) axes.

(** [slice(start, stop)] *)
Record slice := Slice { sl_start : option Z; sl_stop : option Z }.

Definition slice_all : slice := Slice None None.

Definition clip_index (n : nat) (i : Z) : nat :=
  if decide (i < 0)%Z then Z.to_nat (Z.of_nat n + i) else Z.to_nat i `min` n.

(** First index and length selected by a slice on an axis of length [n]. *)
Definition slice_bounds (n : nat) (s : slice) : nat * nat :=
  let a := from_option (clip_index n) 0 (sl_start s) in
  let b := from_option (clip_index n) n (sl_stop s) in
  (a, b - a).

(** ** Shapes and C-ordered data *)

Definition prod_list (sh : list nat) : nat := foldr Nat.mul 1 sh.

(** [chunks m n x]: the [n] consecutive blocks of length [m] of [x]. *)
Fixpoint chunks {A} (m n : nat) (x : list A) : list (list A) :=
  match n with
  | 0 => []
  | S n' => take m x :: chunks m n' (drop m x)
  end.

(** Flat index of a multi-index, and back. *)
Fixpoint ravel (sh idx : list nat) : nat :=
  match sh, idx with
  | n :: sh', i :: idx' => i * prod_list sh' + ravel sh' idx'
  | _, _ => 0
  end.

Fixpoint unravel (sh : list nat) (k : nat) : list nat :=
  match sh with
  | [] => []
  | n :: sh' => (k / prod_list sh') `mod` n :: unravel sh' (k `mod` prod_list sh')
  end.

(** numpy broadcasting of two shapes (aligned on the trailing axes). *)
Fixpoint broadcast_rev (a b : list nat) : option (list nat) :=
  match a, b with
  | [], _ => Some b
  | _, [] => Some a
  | n :: a', m :: b' =>
      r ← broadcast_rev a' b';
      if decide (n = m) then Some (n :: r)
      else if decide (n = 1) then Some (m :: r)
      else if decide (m = 1) then Some (n :: r)
      else None
  end.

Definition broadcast_shapes (a b : list nat) : option (list nat) :=
  reverse <$> broadcast_rev (reverse a) (reverse b).

(** The multi-index into an operand of shape [sh] that element [idx] of
    the broadcast result reads. *)
Definition broadcast_idx (sh idx : list nat) : list nat :=
  zip_with (λ n i, if decide (n = 1) then 0 else i) sh (drop (length idx - length sh) idx).

Definition broadcast_src (out sh : list nat) (k : nat) : nat :=
  ravel sh (broadcast_idx sh (unravel out k)).

(** Elements selected by one slice per leading axis. *)
Fixpoint take_slices {A} (sh : list nat) (c : list slice) (x : list A) : list A :=
  match sh, c with
  | n :: sh', s :: c' =>
      let '(a, len) := slice_bounds n s in
      concat (take_slices sh' c' <$> take len (drop a (chunks (prod_list sh') n x)))
  | _, _ => x
  end.

Fixpoint slices_shape (sh : list nat) (c : list slice) : list nat :=
  match sh, c with
  | n :: sh', s :: c' => (slice_bounds n s).2 :: slices_shape sh' c'
  | _, _ => sh
  end.

(** [x[c] = src] on C-ordered data. *)
Fixpoint put_slices {A} (sh : list nat) (c : list slice) (x src : list A) : list A :=
  match sh, c with
  | n :: sh', s :: c' =>
      let '(a, len) := slice_bounds n s in
      let xs := chunks (prod_list sh') n x in
      let ss := chunks (prod_list (slices_shape sh' c')) len src in
      concat (take a xs ++ zip_with (put_slices sh' c') (take len (drop a xs)) ss
              ++ drop (a + len) xs)
  | _, _ => src
  end.

(** [np.fft.ifftshift] over the axes [axes] of an [ndim]-dimensional
    array: along each of them the blocks are rotated left by half the
    axis length. *)
Fixpoint ifftshift_data {A} (axes : list nat) (ndim : nat) (sh : list nat)
    (x : list A) : list A :=
  match sh with
  | [] => x
  | n :: sh' =>
      let blocks := ifftshift_data axes ndim sh' <$> chunks (prod_list sh') n x in
      concat (if decide (ndim - length sh ∈ axes) then rotate (n / 2) blocks else blocks)
  end.

(** Transpose of a C-ordered [r × c] matrix. *)
Definition transpose_data {A} (r c : nat) (x : list A) : list A :=
  k ← seq 0 (c * r); option_list (x !! ((k `mod` r) * c + k / r)).

(** ** The store and the monad of Python code *)

Definition loc := nat.

(** An array is a view of a whole buffer: its shape, dtype and buffer. *)
Record ndarray := NDArray {
  shape : list nat;
  adtype : dtype;
  buf : loc;
}.

Definition ndim (a : ndarray) : nat := length (shape a).

(** Modelled from the spec: the Grid abstraction (class [Grid] is not
    part of the sources at hand).  It supplies the dimensionality, the
    shape of the grid-shaped view, the number of points, the regularity
    flag and the coordinates along each axis. *)
Record Grid (C : Type) := MkGrid {
  g_ndim : nat;
  g_shape : list nat;
  g_size : nat;
  is_regular : bool;
  separated_coords : list (list C);
}.
Arguments MkGrid {C}.
Arguments g_ndim {C}.
Arguments g_shape {C}.
Arguments g_size {C}.
Arguments is_regular {C}.
Arguments separated_coords {C}.

(** Calls that leave the module. *)
Inductive event (C : Type) :=
  | EvGenerator (g : Grid C)
  | EvIfftshift (axes : list Z)
  | EvZeros (g : Grid C) (tensor_shape : list nat) (d : dtype)
  | EvFFT (inverse : bool) (b : loc) (overwrite_x : bool).
Arguments EvGenerator {C}.
Arguments EvIfftshift {C}.
Arguments EvZeros {C}.
Arguments EvFFT {C}.

Section Python.
Context {C : Type} `{!Scalar C, !FFTBackend C}.

Record pystate := PyState {
  heap : list (list C);
  trace : list (event C);
}.

Definition M (A : Type) : Type := pystate → outcome A * pystate.

Definition ret {A} (a : A) : M A := λ σ, (Return a, σ).

Definition bind {A B} (m : M A) (k : A → M B) : M B :=
  λ σ, match m σ with
       | (Return a, σ') => k a σ'
       | (Raise e, σ') => (Raise e, σ')
       end.

Definition raise {A} (e : exn) : M A := λ σ, (Raise e, σ).

Definition emit (ev : event C) : M unit :=
  λ σ, (Return (), PyState (heap σ) (trace σ ++ [ev])).

Definition alloc (x : list C) : M loc :=
  λ σ, (Return (length (heap σ)), PyState (heap σ ++ [x]) (trace σ)).

Definition load (l : loc) : M (list C) :=
  λ σ, match heap σ !! l with
       | Some x => (Return x, σ)
       | None => (Raise (ValueError "no such buffer"), σ)
       end.

Definition store (l : loc) (x : list C) : M unit :=
  λ σ, (Return (), PyState (<[l := x]> (heap σ)) (trace σ)).

Definition lift_option {A} (e : exn) (o : option A) : M A :=
  match o with Some a => ret a | None => raise e end.

End Python.

Notation "x <- m ;; k" := (bind m (λ x, k))
  (at level 100, m at next level, right associativity).
Notation "m ;; k" := (bind m (λ _, k))
  (at level 100, right associativity).

(** ** numpy operations *)

(** The shape asked of [reshape]; one entry may be [-1]. *)
Definition resolve_shape (total : nat) (spec : list Z) : option (list nat) :=
  if decide (Forall (λ z, (-1 ≤ z)%Z) spec) then
    let known := prod_list (Z.to_nat <$> filter (λ z, z ≠ (-1)%Z) spec) in
    match length (filter (λ z, z = (-1)%Z) spec) with
    | 0 => if decide (known = total) then Some (Z.to_nat <$> spec) else None
    | 1 => if decide (known ≠ 0 ∧ total `mod` known = 0)
           then Some ((λ z, if decide (z = (-1)%Z) then total / known else Z.to_nat z) <$> spec)
           else None
    | _ => None
    end
  else None.

Section Numpy.
Context {C : Type} `{!Scalar C, !FFTBackend C}.

#[local] Abbreviation M := (@M C).

Definition get {A} (x : list A) (d : A) (i : nat) : A := default d (x !! i).

(** [a.reshape(spec)]: a view of the same buffer. *)
Definition np_reshape (a : ndarray) (spec : list Z) : M ndarray :=
  match resolve_shape (prod_list (shape a)) spec with
  | Some sh => ret (NDArray sh (adtype a) (buf a))
  | None => raise (ValueError "cannot reshape array")
  end.

Definition np_copy (a : ndarray) : M ndarray :=
  x <- load (buf a);;
  l <- alloc x;;
  ret (NDArray (shape a) (adtype a) l).

(** [a.astype(d, copy=False)] *)
Definition np_astype (a : ndarray) (d : dtype) : M ndarray :=
  if decide (adtype a = d) then ret a
  else
    x <- load (buf a);;
    l <- alloc (c_cast d <$> x);;
    ret (NDArray (shape a) d l).

(** [a.conj()] *)
Definition np_conj (a : ndarray) : M ndarray :=
  x <- load (buf a);;
  l <- alloc (c_conj <$> x);;
  ret (NDArray (shape a) (adtype a) l).

Definition mul_data (out sa sb : list nat) (x y : list C) : list C :=
  (λ k, c_mul (get x c_zero (broadcast_src out sa k)) (get y c_zero (broadcast_src out sb k)))
    <$> seq 0 (prod_list out).

(** [a * b], with broadcasting; the product is a new array. *)
Definition np_mul (a b : ndarray) : M ndarray :=
  match broadcast_shapes (shape a) (shape b) with
  | None => raise (ValueError "operands could not be broadcast together")
  | Some sh =>
      x <- load (buf a);;
      y <- load (buf b);;
      l <- alloc (mul_data sh (shape a) (shape b) x y);;
      ret (NDArray sh (result_type (adtype a) (adtype b)) l)
  end.

(** [a *= b]: the product is written into [a]'s buffer. *)
Definition np_imul (a b : ndarray) : M unit :=
  if decide (broadcast_shapes (shape a) (shape b) = Some (shape a)) then
    if decide (result_type (adtype a) (adtype b) = adtype a) then
      x <- load (buf a);;
      y <- load (buf b);;
      store (buf a) (mul_data (shape a) (shape a) (shape b) x y)
    else raise (TypeError "cannot cast ufunc output")
  else raise (ValueError "non-broadcastable output operand").

(** [a[:] = v] *)
Definition np_fill (a : ndarray) (v : C) : M unit :=
  store (buf a) (replicate (prod_list (shape a)) v).

Definition broadcast_data (out sh : list nat) (x : list C) : list C :=
  (λ k, get x c_zero (broadcast_src out sh k)) <$> seq 0 (prod_list out).

(** [a[c] = src] *)
Definition np_setitem (a : ndarray) (c : list slice) (src : ndarray) : M unit :=
  if decide (length c ≤ ndim a) then
    let region := slices_shape (shape a) c in
    if decide (broadcast_shapes region (shape src) = Some region) then
      x <- load (buf a);;
      y <- load (buf src);;
      let y' := if decide (adtype src = adtype a) then y else c_cast (adtype a) <$> y in
      store (buf a) (put_slices (shape a) c x (broadcast_data region (shape src) y'))
    else raise (ValueError "could not broadcast input array")
  else raise (IndexError "too many indices for array").

(** [a[c]]; the selection is handed on as an array of its own. *)
Definition np_getitem (a : ndarray) (c : list slice) : M ndarray :=
  if decide (length c ≤ ndim a) then
    x <- load (buf a);;
    l <- alloc (take_slices (shape a) c x);;
    ret (NDArray (slices_shape (shape a) c) (adtype a) l)
  else raise (IndexError "too many indices for array").

(** [np.fft.ifftshift(a, axes=axes)] *)
Definition np_ifftshift (a : ndarray) (axes : list Z) : M ndarray :=
  emit (EvIfftshift axes);;
  match norm_axes (ndim a) axes with
  | None => raise (ValueError "axis is out of bounds")
  | Some ax =>
      x <- load (buf a);;
      l <- alloc (ifftshift_data ax (ndim a) (shape a) x);;
      ret (NDArray (shape a) (adtype a) l)
  end.

(** [_fft_module.fftn(a, axes=axes, overwrite_x=...)] and
    [_fft_module.ifftn]: the transform is returned in a new buffer; when
    [overwrite_x] is set the routine may use the input buffer as
    scratch space. *)
Definition fft_call (inverse : bool) (a : ndarray) (axes : list Z) (overwrite_x : bool)
    : M ndarray :=
  emit (EvFFT inverse (buf a) overwrite_x);;
  match norm_axes (ndim a) axes with
  | None => raise (ValueError "axes exceeds dimensionality of input")
  | Some ax =>
      x <- load (buf a);;
      l <- alloc (fft_data inverse (shape a) ax x);;
      (if overwrite_x then store (buf a) (fft_scratch inverse (shape a) ax x) else ret ());;
      ret (NDArray (shape a) (fft_dtype (adtype a)) l)
  end.

Definition fftn := fft_call false.
Definition ifftn := fft_call true.

(** [_fft_module.fft(a, axis=axis, **kwargs)] and [_fft_module.ifft]; the
    keyword [overwrite_x] defaults to false. *)
Definition fft (a : ndarray) (axis : Z) (kwargs : option bool) : M ndarray :=
  fft_call false a [axis] (default false kwargs).
Definition ifft (a : ndarray) (axis : Z) (kwargs : option bool) : M ndarray :=
  fft_call true a [axis] (default false kwargs).

End Numpy.

(** ** Fields

    Modelled from the spec: the Field container (class [Field] and the
    helpers [field_dot] and [field_conjugate_transpose] are not part of
    the sources at hand).  A field pairs flat samples, of shape
    tensor shape + (number of grid points,), with its grid. *)

Record Field (C : Type) := MkField {
  fdata : ndarray;
  grid : Grid C;
}.
Arguments MkField {C}.
Arguments fdata {C}.
Arguments grid {C}.

(** What a transfer-function generator hands back: a new field, given by
    the shape, dtype and samples of its array and by its grid. *)
Record FieldLit (C : Type) := MkFieldLit {
  lit_shape : list nat;
  lit_dtype : dtype;
  lit_data : list C;
  lit_grid : Grid C;
}.
Arguments MkFieldLit {C}.
Arguments lit_shape {C}.
Arguments lit_dtype {C}.
Arguments lit_data {C}.
Arguments lit_grid {C}.

Section Fields.
Context {C : Type} `{!Scalar C, !FFTBackend C}.

#[local] Abbreviation M := (@M C).

Definition fdtype (f : Field C) : dtype := adtype (fdata f).
Definition tensor_order (f : Field C) : nat := ndim (fdata f) - 1.
Definition tensor_shape (f : Field C) : list nat := py_take_to (-1) (shape (fdata f)).

(** [field.shaped] *)
Definition shaped (f : Field C) : M ndarray :=
  np_reshape (fdata f) (Z.of_nat <$> (tensor_shape f ++ g_shape (grid f))).

(** [field.copy()] *)
Definition field_copy (f : Field C) : M (Field C) :=
  a <- np_copy (fdata f);;
  ret (MkField a (grid f)).

(** [grid.zeros(tensor_shape, dtype)] *)
Definition grid_zeros (g : Grid C) (ts : list nat) (d : dtype) : M (Field C) :=
  emit (EvZeros g ts d);;
  l <- alloc (replicate (prod_list ts * g_size g) c_zero);;
  ret (MkField (NDArray (ts ++ [g_size g]) d l) g).

(** Calling a generator with a grid. *)
Definition call_generator (gen : Grid C → FieldLit C) (g : Grid C) : M (Field C) :=
  emit (EvGenerator g);;
  let r := gen g in
  l <- alloc (lit_data r);;
  ret (MkField (NDArray (lit_shape r) (lit_dtype r) l) (lit_grid r)).

Definition sum_c (xs : list C) : C := foldr c_add c_zero xs.

(** Samples of the conjugate transpose of an [m × n] matrix field on
    [N] points. *)
Definition conj_transpose_data (m n N : nat) (a : list C) : list C :=
  (λ k, let j := k / (m * N) in
        let i := (k / N) `mod` m in
        let p := k `mod` N in
        c_conj (get a c_zero ((i * n + j) * N + p)))
    <$> seq 0 (n * m * N).

(** Samples of the per-point product of an [m × n] matrix field with an
    [n]-vector field. *)
Definition matvec_data (m n N : nat) (a b : list C) : list C :=
  (λ k, let i := k / N in
        let p := k `mod` N in
        sum_c ((λ j, c_mul (get a c_zero ((i * n + j) * N + p)) (get b c_zero (j * N + p)))
                 <$> seq 0 n))
    <$> seq 0 (m * N).

Definition field_conjugate_transpose (a : Field C) : M (Field C) :=
  match shape (fdata a) with
  | [m; n; N] =>
      x <- load (buf (fdata a));;
      l <- alloc (conj_transpose_data m n N x);;
      ret (MkField (NDArray [n; m; N] (adtype (fdata a)) l) (grid a))
  | _ => raise (ValueError "field_conjugate_transpose: not a matrix field")
  end.

Definition field_dot (a b : Field C) : M (Field C) :=
  match shape (fdata a), shape (fdata b) with
  | [m; n; N], [n'; N'] =>
      if decide (n = n' ∧ N = N') then
        x <- load (buf (fdata a));;
        y <- load (buf (fdata b));;
        l <- alloc (matvec_data m n N x y);;
        ret (MkField (NDArray [m; N] (result_type (adtype (fdata a)) (adtype (fdata b))) l)
               (grid b))
      else raise (ValueError "field_dot: shapes do not match")
  | _, _ => raise (ValueError "field_dot: not a matrix field and a vector field")
  end.

End Fields.

(** ** FourierFilter *)

Inductive transfer_source (C : Type) :=
  | TFGenerator (gen : Grid C → FieldLit C)
  | TFField (f : Field C).
Arguments TFGenerator {C}.
Arguments TFField {C}.

Record FourierFilter (C : Type) := MkFourierFilter {
  input_grid : Grid C;
  internal_grid : Grid C;
  cutout : option (list slice);
  shape_in : list nat;
  transfer_function : transfer_source C;
  _transfer_function : option ndarray;
  internal_array : option ndarray;
}.
Arguments MkFourierFilter {C}.
Arguments input_grid {C}.
Arguments internal_grid {C}.
Arguments cutout {C}.
Arguments shape_in {C}.
Arguments transfer_function {C}.
Arguments _transfer_function {C}.
Arguments internal_array {C}.

(** Modelled from the spec: what the FFT engine ([FastFourierTransform],
    not part of the sources at hand) computes from the input grid and the
    padding factor: the padded grid and the cutout of the input inside
    it ([None] when there is no padding). *)
Record FastFourierTransform (C : Type) := MkFFT {
  output_grid : Grid C;
  cutout_input : option (list slice);
}.
Arguments MkFFT {C}.
Arguments output_grid {C}.
Arguments cutout_input {C}.

Section Filter.
Context {C : Type} `{!Scalar C, !FFTBackend C}.

#[local] Abbreviation M := (@M C).

Definition FourierFilter_init (fft : FastFourierTransform C) (input_grid : Grid C)
    (transfer_function : transfer_source C) : FourierFilter C :=
  {| input_grid := input_grid;
     internal_grid := output_grid fft;
     cutout := cutout_input fft;
     shape_in := g_shape input_grid;
     transfer_function := transfer_function;
     _transfer_function := None;
     internal_array := None |}.

Definition set_transfer_cache (self : FourierFilter C) (tf : ndarray) : FourierFilter C :=
  {| input_grid := input_grid self;
     internal_grid := internal_grid self;
     cutout := cutout self;
     shape_in := shape_in self;
     transfer_function := transfer_function self;
     _transfer_function := Some tf;
     internal_array := internal_array self |}.

Definition set_internal_array (self : FourierFilter C) (a : ndarray) : FourierFilter C :=
  {| input_grid := input_grid self;
     internal_grid := internal_grid self;
     cutout := cutout self;
     shape_in := shape_in self;
     transfer_function := transfer_function self;
     _transfer_function := _transfer_function self;
     internal_array := Some a |}.

(** [self._transfer_function is None or
     self._transfer_function.dtype != field.dtype] *)
Definition cache_stale (self : FourierFilter C) (field : Field C) : bool :=
  match _transfer_function self with
  | None => true
  | Some tf => bool_decide (adtype tf ≠ fdtype field)
  end.

(** The value of [recompute_internal_array]. *)
Definition recompute_internal_array (self : FourierFilter C) (field : Field C) : bool :=
  match internal_array self with
  | None => true
  | Some a =>
      bool_decide (ndim a ≠ g_ndim (grid field) + tensor_order field)
      || bool_decide (adtype a ≠ fdtype field)
      || negb (bool_decide (take (tensor_order field) (shape a) = tensor_shape field))
  end.

Definition grid_axes (self : FourierFilter C) : list Z :=
  py_range (- Z.of_nat (g_ndim (input_grid self))) 0.

(** Lines 42-49: the cached samples of the transfer function. *)
Definition refresh_transfer_function (self : FourierFilter C) (field : Field C)
    : M (FourierFilter C) :=
  if cache_stale self field then
    tf <- match transfer_function self with
          | TFGenerator gen => call_generator gen (internal_grid self)
          | TFField f => field_copy f
          end;;
    tf <- shaped tf;;
    tf <- np_ifftshift tf (grid_axes self);;
    tf <- np_astype tf (fdtype field);;
    ret (set_transfer_cache self tf)
  else ret self.

(** Lines 51-57: the scratch buffer. *)
Definition refresh_internal_array (self : FourierFilter C) (field : Field C)
    : M (FourierFilter C) :=
  if recompute_internal_array self field then
    z <- grid_zeros (internal_grid self) (tensor_shape field) (fdtype field);;
    a <- shaped z;;
    ret (set_internal_array self a)
  else ret self.

Definition _compute_functions (self : FourierFilter C) (field : Field C)
    : M (FourierFilter C) :=
  self <- refresh_transfer_function self field;;
  refresh_internal_array self field.

(** The transfer function is a matrix field. *)
Definition is_matrix_field (self : FourierFilter C) (tf : ndarray) : bool :=
  bool_decide (Z.of_nat (ndim tf) - Z.of_nat (g_ndim (internal_grid self)) = 2)%Z.

(** Lines 120-140: the multiplication in the Fourier domain. *)
Definition apply_transfer_function (self : FourierFilter C) (tfc f : ndarray)
    (adjoint : bool) : M ndarray :=
  if is_matrix_field self tfc then
    let g := internal_grid self in
    let s1 := (Z.of_nat <$> py_take_to (- Z.of_nat (g_ndim g)) (shape f))
                ++ [Z.of_nat (g_size g)] in
    fr <- np_reshape f s1;;
    let f := MkField fr g in
    let s2 := (Z.of_nat <$> py_take_to (- Z.of_nat (g_ndim g)) (shape tfc))
                ++ [Z.of_nat (g_size g)] in
    tr <- np_reshape tfc s2;;
    tf <- (if adjoint then field_conjugate_transpose (MkField tr g)
           else ret (MkField tr g));;
    d <- field_dot tf f;;
    shaped d
  else
    tf <- (if adjoint then np_conj tfc else ret tfc);;
    np_mul f tf.

Definition _operation (self : FourierFilter C) (field : Field C) (adjoint : bool)
    : M (Field C * FourierFilter C) :=
  self <- _compute_functions self field;;
  tfc <- lift_option (TypeError "NoneType has no attribute ndim") (_transfer_function self);;
  fc <- match cutout self with
        | None =>
            f <- shaped field;;
            ret (f, [])
        | Some cut =>
            f <- lift_option (TypeError "NoneType does not support item assignment")
                   (internal_array self);;
            np_fill f c_zero;;
            let c := replicate (tensor_order field) slice_all ++ cut in
            x <- shaped field;;
            np_setitem f c x;;
            ret (f, c)
        end;;
  let '(f, c) := fc in
  let overwrite_x := bool_decide (cutout self ≠ None) in
  let axes := grid_axes self in
  f <- fftn f axes overwrite_x;;
  f <- apply_transfer_function self tfc f adjoint;;
  let overwrite_x := true in
  f <- ifftn f axes overwrite_x;;
  let s := (Z.of_nat <$> py_take_to (- Z.of_nat (g_ndim (internal_grid self))) (shape f))
             ++ [(-1)%Z] in
  res <- match cutout self with
         | None => np_reshape f s
         | Some _ => g <- np_getitem f c;; np_reshape g s
         end;;
  ret (MkField res (input_grid self), self).

Definition forward (self : FourierFilter C) (field : Field C) :=
  _operation self field false.

Definition backward (self : FourierFilter C) (field : Field C) :=
  _operation self field true.

End Filter.

(** ** FourierShear *)

(** What a module-level name can be bound to. *)
Inductive pyobj := PyModule | PyClass | PyFunction | PyBool (b : bool).

Definition truthy (o : pyobj) : bool :=
  match o with PyBool b => b | _ => true end.

(** The names bound at the top level of [fourier_operations.py]: its
    imports and its three classes. *)
Definition module_globals : gmap string pyobj :=
  list_to_map
    [("np", PyModule); ("FastFourierTransform", PyClass); ("make_fft_grid", PyFunction);
     ("Field", PyClass); ("field_dot", PyFunction);
     ("field_conjugate_transpose", PyFunction); ("_fft_module", PyModule);
     ("FourierFilter", PyClass); ("FourierShift", PyClass); ("FourierShear", PyClass)].

(** Python's built-in functions and constants; a name that is not bound in
    the module is looked up here. *)
Definition python_builtins : list string :=
  ["abs"; "all"; "any"; "ascii"; "bin"; "bool"; "breakpoint"; "bytearray"; "bytes";
   "callable"; "chr"; "classmethod"; "compile"; "complex"; "delattr"; "dict"; "dir";
   "divmod"; "enumerate"; "eval"; "exec"; "filter"; "float"; "format"; "frozenset";
   "getattr"; "globals"; "hasattr"; "hash"; "help"; "hex"; "id"; "input"; "int";
   "isinstance"; "issubclass"; "iter"; "len"; "list"; "locals"; "map"; "max";
   "memoryview"; "min"; "next"; "object"; "oct"; "open"; "ord"; "pow"; "print";
   "property"; "range"; "repr"; "reversed"; "round"; "set"; "setattr"; "slice";
   "sorted"; "staticmethod"; "str"; "sum"; "super"; "tuple"; "type"; "vars"; "zip";
   "__import__"; "__build_class__"; "__debug__"; "__doc__"; "__name__";
   "True"; "False"; "None"; "Ellipsis"; "NotImplemented";
   "BaseException"; "Exception"; "ArithmeticError"; "AssertionError";
   "AttributeError"; "ImportError"; "IndexError"; "KeyError"; "LookupError";
   "NameError"; "NotImplementedError"; "OSError"; "RuntimeError"; "StopIteration";
   "TypeError"; "ValueError"; "ZeroDivisionError"].

Record FourierShear (C : Type) := MkFourierShear {
  _input_grid : Grid C;
  _shear_dim : Z;
  _filter : option ndarray;
  _shear : option C;
}.
Arguments MkFourierShear {C}.
Arguments _input_grid {C}.
Arguments _shear_dim {C}.
Arguments _filter {C}.
Arguments _shear {C}.

(** The message of the error the constructor raises. *)
Definition grid_error : string := "The input grid should be 2D and regularly spaced.".

(** The exceptions that are not the constructor's validation error. *)
Definition not_grid_error (e : exn) : Prop := e ≠ ValueError grid_error.

Section Shear.
Context {C : Type} `{!Scalar C, !FFTBackend C, !ScalarExp C}.

(** [make_fft_grid] comes from [fast_fourier_transform.py], which is not
    part of the sources at hand. *)
Variable make_fft_grid : Grid C → Grid C.

(** The namespace in which the module's functions look up global names. *)
Variable G : gmap string pyobj.

#[local] Abbreviation M := (@M C).

(** Reading a global name. *)
Definition load_global (name : string) : M pyobj :=
  match G !! name with
  | Some v => ret v
  | None =>
      if decide (name ∈ python_builtins) then ret PyFunction
      else raise (NameError name)
  end.

(** A coordinate array of a grid, as an array in the store. *)
Definition coords_array (x : list C) : M ndarray :=
  l <- alloc x;;
  ret (NDArray [length x] float64 l).

(** [np.outer(a, b)] *)
Definition np_outer (a b : ndarray) : M ndarray :=
  x <- load (buf a);;
  y <- load (buf b);;
  l <- alloc (xi ← x; (λ yj, c_mul xi yj) <$> y);;
  ret (NDArray [prod_list (shape a); prod_list (shape b)]
         (result_type (adtype a) (adtype b)) l).

(** [k * a] for a complex number [k] *)
Definition np_scale (k : C) (a : ndarray) : M ndarray :=
  x <- load (buf a);;
  l <- alloc (c_mul k <$> x);;
  ret (NDArray (shape a) (result_type complex128 (adtype a)) l).

(** [np.exp(a)] *)
Definition np_exp (a : ndarray) : M ndarray :=
  x <- load (buf a);;
  l <- alloc (c_exp <$> x);;
  ret (NDArray (shape a) (adtype a) l).

(** [np.ascontiguousarray(a.T)] for a matrix; arrays of the store are
    C-ordered, so the transposed view is materialised at once. *)
Definition np_transpose (a : ndarray) : M ndarray :=
  match shape a with
  | [r; c] =>
      x <- load (buf a);;
      l <- alloc (transpose_data r c x);;
      ret (NDArray [c; r] (adtype a) l)
  | _ => raise (ValueError "not a matrix")
  end.

(** [np.ascontiguousarray(a)] of a C-ordered array is the array itself. *)
Definition np_ascontiguousarray (a : ndarray) : M ndarray := ret a.

Definition s_input_grid (self : FourierShear C) : Grid C := _input_grid self.
Definition shear_dim (self : FourierShear C) : Z := _shear_dim self.
Definition fourier_dim (self : FourierShear C) : Z :=
  if decide (shear_dim self = 0)%Z then 1%Z else 0%Z.

(** The setter of the [shear] property. *)
Definition set_shear (self : FourierShear C) (shear : C) : M (FourierShear C) :=
  let fft_grid := make_fft_grid (s_input_grid self) in
  cx <- lift_option (IndexError "list index out of range")
          (py_index (separated_coords fft_grid) (shear_dim self));;
  cx <- coords_array cx;;
  fx <- np_ifftshift cx (py_range 0 (Z.of_nat (ndim cx)));;
  cy <- lift_option (IndexError "list index out of range")
          (py_index (separated_coords (s_input_grid self)) (fourier_dim self));;
  y <- coords_array cy;;
  o <- np_outer y fx;;
  p <- np_scale (c_mul (c_neg c_i) shear) o;;
  filter <- np_exp p;;
  filter <- (if decide (shear_dim self = 1)%Z then np_transpose filter else ret filter);;
  filter <- np_ascontiguousarray filter;;
  ret {| _input_grid := _input_grid self;
         _shear_dim := _shear_dim self;
         _filter := Some filter;
         _shear := Some shear |}.

Definition FourierShear_init (input_grid : Grid C) (shear : C) (shear_dim : Z)
    : M (FourierShear C) :=
  if negb (is_regular input_grid) || bool_decide (g_ndim input_grid ≠ 2) then
    raise (ValueError grid_error)
  else
    set_shear {| _input_grid := input_grid;
                 _shear_dim := shear_dim;
                 _filter := None;
                 _shear := None |} shear.

Definition shear_operation (self : FourierShear C) (field : Field C) (adjoint : bool)
    : M (Field C) :=
  use_mkl <- load_global "_use_mkl";;
  let kwargs := if truthy use_mkl then Some true else None in
  x <- shaped field;;
  f <- fft x (- shear_dim self - 1)%Z None;;
  filter <- lift_option (TypeError "NoneType") (_filter self);;
  (if adjoint then
     c <- np_conj filter;;
     np_imul f c
   else np_imul f filter);;
  f <- ifft f (- shear_dim self - 1)%Z kwargs;;
  let shape := (Z.of_nat <$> py_take_to (- Z.of_nat (g_ndim (grid field))) (shape f))
                 ++ [(-1)%Z] in
  r <- np_reshape f shape;;
  ret (MkField r (grid field)).

Definition shear_forward (self : FourierShear C) (field : Field C) :=
  shear_operation self field false.

Definition shear_backward (self : FourierShear C) (field : Field C) :=
  shear_operation self field true.

End Shear.

(** The phase ramp of the shear operator, as a C-ordered matrix with one
    row per coordinate [y] and one column per frequency [fx]. *)
Definition phase_ramp {C : Type} `{!Scalar C, !ScalarExp C} (shear : C) (y fx : list C)
    : list C :=
  c_exp <$> (c_mul (c_mul (c_neg c_i) shear) <$> (yi ← y; (λ fj, c_mul yi fj) <$> fx)).

(** ** OpticalElement *)

(** The objects a method may hand back or raise. *)
Inductive pyvalue (W : Type) :=
  | VWavefront (w : W)
  | VNone
  | VException (e : exn)
  | VExceptionClass (e : exn).
Arguments VWavefront {W}.
Arguments VNone {W}.
Arguments VException {W}.
Arguments VExceptionClass {W}.

Section OpticalElement.
(** Wavefronts, and whatever state the methods of an element work on. *)
Context {W S : Type}.

Definition method := W → S → outcome (pyvalue W) * S.

(** An element is known by the methods its class resolves to. *)
Record OpticalElement := MkOpticalElement {
  oe_forward : method;
  oe_backward : method;
}.

(** [raise v]: an exception instance is raised, an exception class is
    instantiated and raised, anything else is a [TypeError]. *)
Definition py_raise {A} (v : pyvalue W) : outcome A :=
  match v with
  | VException e => Raise e
  | VExceptionClass e => Raise e
  | _ => Raise (TypeError "exceptions must derive from BaseException")
  end.

(** [OpticalElement.__call__] *)
Definition __call__ (self : OpticalElement) (wavefront : W) (σ : S)
    : outcome (pyvalue W) * S :=
  match oe_forward self wavefront σ with
  | (Return v, σ') => (py_raise v, σ')
  | (Raise e, σ') => (Raise e, σ')
  end.

(** The methods of the base class. *)
Definition base_forward : method := λ _ σ, (Raise NotImplementedError, σ).
Definition base_backward : method := λ _ σ, (Raise NotImplementedError, σ).

Definition base_element : OpticalElement :=
  {| oe_forward := base_forward; oe_backward := base_backward |}.

End OpticalElement.
Arguments OpticalElement : clear implicits.

(** ** Well-formed inputs and what a call leaves behind *)

(** The two kinds of transfer function the filter applies: one sample at
    every point, or an [n × n] matrix at every point. *)
Inductive tf_kind :=
  | ScalarTF
  | MatrixTF (n : nat).

Definition kind_shape (k : tf_kind) : list nat :=
  match k with
  | ScalarTF => []
  | MatrixTF n => [n; n]
  end.

Section Specs.
Context {C : Type} `{!Scalar C, !FFTBackend C}.

(** A grid has at least one axis, and its shape and size agree. *)
Definition wf_grid (g : Grid C) : Prop :=
  0 < g_ndim g ∧ length (g_shape g) = g_ndim g ∧ prod_list (g_shape g) = g_size g.

(** The shape of the flat samples of a field on [g]: tensor axes, none of
    them empty, then one axis over the grid points. *)
Definition wf_flat (sh : list nat) (g : Grid C) : Prop :=
  last sh = Some (g_size g) ∧ prod_list (py_take_to (-1) sh) ≠ 0.

Definition wf_field (σ : @pystate C) (f : Field C) : Prop :=
  wf_grid (grid f) ∧ wf_flat (shape (fdata f)) (grid f)
  ∧ buf (fdata f) < length (heap σ).

Definition wf_lit (r : FieldLit C) : Prop :=
  wf_grid (lit_grid r) ∧ wf_flat (lit_shape r) (lit_grid r).

(** The transfer function, as given to the constructor, is a field on a
    grid of the filter's dimensionality. *)
Definition wf_source (σ : @pystate C) (self : FourierFilter C) : Prop :=
  match transfer_function self with
  | TFGenerator gen =>
      wf_lit (gen (internal_grid self))
      ∧ g_ndim (lit_grid (gen (internal_grid self))) = g_ndim (input_grid self)
  | TFField f => wf_field σ f ∧ g_ndim (grid f) = g_ndim (input_grid self)
  end.

(** The events a call appended to the trace. *)
Definition new_events (σ σ' : @pystate C) : list (event C) :=
  drop (length (trace σ)) (trace σ').

Definition is_cache_event (e : event C) : bool :=
  match e with EvGenerator _ | EvIfftshift _ => true | _ => false end.

Definition is_zeros_event (e : event C) : bool :=
  match e with EvZeros _ _ _ => true | _ => false end.

Definition is_fft_event (e : event C) : bool :=
  match e with EvFFT _ _ _ => true | _ => false end.

(** What [refresh_transfer_function] caches from a field of flat shape
    [sh] on grid [g] with samples [x]: the samples shifted along the grid
    axes, cast when the dtype [d] of the field is not the one asked for. *)
Definition shifted_samples (self : FourierFilter C) (sh : list nat) (g : Grid C)
    (x : list C) : list C :=
  let sh' := py_take_to (-1) sh ++ g_shape g in
  ifftshift_data (seq (length sh' - g_ndim (input_grid self)) (g_ndim (input_grid self)))
    (length sh') sh' x.

Definition cast_samples (d d' : dtype) (x : list C) : list C :=
  if decide (d = d') then x else c_cast d' <$> x.

(** The array that ends up cached, and the store after caching it. *)
Definition cached_array (field : Field C) (sh : list nat) (g : Grid C) (d : dtype)
    (h : list (list C)) : ndarray :=
  NDArray (py_take_to (-1) sh ++ g_shape g) (fdtype field)
    (if decide (d = fdtype field) then S (length h) else S (S (length h))).

Definition cached_heap (self : FourierFilter C) (field : Field C)
    (sh : list nat) (g : Grid C) (d : dtype) (x : list C) (h : list (list C))
    : list (list C) :=
  h ++ [x; shifted_samples self sh g x]
    ++ (if decide (d = fdtype field) then []
        else [c_cast (fdtype field) <$> shifted_samples self sh g x]).

(** The attributes that are set by the constructor and never again. *)
Definition same_config (self self' : FourierFilter C) : Prop :=
  input_grid self' = input_grid self
  ∧ internal_grid self' = internal_grid self
  ∧ cutout self' = cutout self
  ∧ transfer_function self' = transfer_function self.

(** The samples [_operation] returns when there is no padding. *)
Definition filtered_samples (sh : list nat) (k : nat) (gs : list nat) (adjoint : bool)
    (T F : list C) : list C :=
  let ax := seq (length sh - k) k in
  fft_data true sh ax
    (mul_data sh sh gs (fft_data false sh ax F) (if adjoint then c_conj <$> T else T)).

(** The samples [_operation] returns when the field is padded: the field
    is written into the cutout of a zeroed array, that array is filtered,
    and the cutout is read back. *)
Definition padded_samples (ts gs gs_in : list nat) (k : nat) (cut : list slice)
    (adjoint : bool) (T F : list C) : list C :=
  let sh := ts ++ gs in
  let c := replicate (length ts) slice_all ++ cut in
  take_slices sh c
    (filtered_samples sh k gs adjoint T
       (put_slices sh c (replicate (prod_list sh) c_zero)
          (broadcast_data (ts ++ gs_in) (ts ++ gs_in) F))).

(** The samples [_operation] returns for a field with samples [F] when
    the cached samples of the transfer function are [T]. *)
Definition result_samples (self : FourierFilter C) (field : Field C) (adjoint : bool)
    (T F : list C) : list C :=
  let ts := tensor_shape field in
  let g := input_grid self in
  match cutout self with
  | None => filtered_samples (ts ++ g_shape g) (g_ndim g) (g_shape g) adjoint T F
  | Some cut =>
      padded_samples ts (g_shape (internal_grid self)) (g_shape g) (g_ndim g) cut adjoint T F
  end.

(** The transfer function is a scalar field on the internal grid. *)
Definition scalar_source (self : FourierFilter C) : Prop :=
  match transfer_function self with
  | TFGenerator gen =>
      let r := gen (internal_grid self) in
      lit_shape r = [g_size (lit_grid r)]
      ∧ g_shape (lit_grid r) = g_shape (internal_grid self)
  | TFField f =>
      shape (fdata f) = [g_size (grid f)]
      ∧ g_shape (grid f) = g_shape (internal_grid self)
  end.

(** A filter with a scalar transfer function, as the constructor and the
    calls before left it: the internal grid has the dimensionality of the
    input grid; the cutout, when there is one, selects a region of the
    shape of the input grid; the cached samples have the shape of the
    internal grid; the scratch buffer ends in the axes of the internal
    grid and is a buffer of its own. *)
Definition wf_filter (σ : @pystate C) (self : FourierFilter C) : Prop :=
  wf_grid (input_grid self) ∧ wf_grid (internal_grid self)
  ∧ g_ndim (internal_grid self) = g_ndim (input_grid self)
  ∧ wf_source σ self ∧ scalar_source self
  ∧ match cutout self with
    | None => g_shape (internal_grid self) = g_shape (input_grid self)
    | Some cut =>
        length cut = g_ndim (internal_grid self)
        ∧ slices_shape (g_shape (internal_grid self)) cut = g_shape (input_grid self)
    end
  ∧ (∀ tf, _transfer_function self = Some tf →
       shape tf = g_shape (internal_grid self) ∧ buf tf < length (heap σ))
  ∧ (∀ a, internal_array self = Some a →
       (∃ ts, shape a = ts ++ g_shape (internal_grid self)) ∧ buf a < length (heap σ))
  ∧ (∀ tf a, _transfer_function self = Some tf → internal_array self = Some a →
       buf tf ≠ buf a).

(** Exact arithmetic on samples: addition and multiplication are
    associative and commutative with units [c_zero] and [c_one],
    multiplication distributes over addition, and casting to a complex
    dtype loses nothing. *)
Class ScalarLaws : Prop := {
  c_mul_assoc : ∀ x y z : C, c_mul (c_mul x y) z = c_mul x (c_mul y z);
  c_mul_comm : ∀ x y : C, c_mul x y = c_mul y x;
  c_mul_one : ∀ x : C, c_mul x c_one = x;
  c_add_assoc : ∀ x y z : C, c_add (c_add x y) z = c_add x (c_add y z);
  c_add_comm : ∀ x y : C, c_add x y = c_add y x;
  c_add_zero : ∀ x : C, c_add x c_zero = x;
  c_mul_add : ∀ x y z : C, c_mul x (c_add y z) = c_add (c_mul x y) (c_mul x z);
  c_mul_zero : ∀ x : C, c_mul x c_zero = c_zero;
  c_cast_complex : ∀ d (x : C), is_complex d = true → c_cast d x = x;
}.

(** On arrays of shape [sh], the transforms over the axes [ax] keep the
    number of samples, are inverse to each other and yield a complex
    dtype. *)
Definition fft_inverse_pair (sh ax : list nat) : Prop :=
  (∀ d, is_complex (fft_dtype d) = true)
  ∧ (∀ inv (x : list C), length x = prod_list sh →
       length (fft_data inv sh ax x) = prod_list sh)
  ∧ (∀ x : list C, length x = prod_list sh →
       fft_data true sh ax (fft_data false sh ax x) = x)
  ∧ (∀ x : list C, length x = prod_list sh →
       fft_data false sh ax (fft_data true sh ax x) = x).

(** Every sample of the transfer function has modulus one. *)
Definition unit_modulus (x : list C) : Prop :=
  Forall (λ h, c_mul h (c_conj h) = c_one) x.

(** Every sample of the transfer function is its own conjugate. *)
Definition conjugate_symmetric (x : list C) : Prop :=
  Forall (λ h, c_conj h = h) x.

(** Entry [(i, j)] at point [p] of an [n × n] matrix field on [N] points. *)
Definition entry (n N : nat) (x : list C) (i j p : nat) : C :=
  get x c_zero ((i * n + j) * N + p).

Definition delta (i k : nat) : C := if decide (i = k) then c_one else c_zero.

(** At every point the matrix of the transfer function is Hermitian:
    it is its own conjugate transpose. *)
Definition hermitian_matrices (n N : nat) (x : list C) : Prop :=
  ∀ p i j, p < N → i < n → j < n → entry n N x i j p = c_conj (entry n N x j i p).

(** At every point the matrix [M] of the transfer function is unitary:
    [M^H M = I] and [M M^H = I]. *)
Definition unitary_matrices (n N : nat) (x : list C) : Prop :=
  ∀ p i k, p < N → i < n → k < n →
    sum_c ((λ j, c_mul (c_conj (entry n N x j i p)) (entry n N x j k p)) <$> seq 0 n)
    = delta i k
    ∧ sum_c ((λ j, c_mul (entry n N x i j p) (c_conj (entry n N x k j p))) <$> seq 0 n)
      = delta i k.

(** The transfer function is unitary at every sample point: of modulus
    one when it is a scalar, a unitary matrix when it is a matrix. *)
Definition unitary_tf (k : tf_kind) (N : nat) (x : list C) : Prop :=
  match k with
  | ScalarTF => unit_modulus x
  | MatrixTF n => unitary_matrices n N x
  end.

(** The fields a transfer function of kind [k] applies to: a scalar
    multiplies fields of any tensor shape, an [n × n] matrix fields of
    [n]-vectors. *)
Definition field_of_kind (k : tf_kind) (f : Field C) : Prop :=
  match k with
  | ScalarTF => True
  | MatrixTF n => tensor_shape f = [n]
  end.

(** The transfer function as the constructor was given it: the shape,
    dtype and grid of the field that [refresh_transfer_function] reads
    (generated for the internal grid, or the field handed in), and its
    samples. *)
Definition source_shape (self : FourierFilter C) : list nat :=
  match transfer_function self with
  | TFGenerator gen => lit_shape (gen (internal_grid self))
  | TFField f => shape (fdata f)
  end.

Definition source_dtype (self : FourierFilter C) : dtype :=
  match transfer_function self with
  | TFGenerator gen => lit_dtype (gen (internal_grid self))
  | TFField f => fdtype f
  end.

Definition source_grid (self : FourierFilter C) : Grid C :=
  match transfer_function self with
  | TFGenerator gen => lit_grid (gen (internal_grid self))
  | TFField f => grid f
  end.

Definition source_samples (σ : @pystate C) (self : FourierFilter C) : option (list C) :=
  match transfer_function self with
  | TFGenerator gen => Some (lit_data (gen (internal_grid self)))
  | TFField f => heap σ !! buf (fdata f)
  end.

(** The cache, when there is one, is what [refresh_transfer_function]
    computed from the samples [x] of the transfer function for the dtype
    of the cache. *)
Definition cache_valid (σ : @pystate C) (self : FourierFilter C) (x : list C) : Prop :=
  ∀ tf, _transfer_function self = Some tf →
    shape tf = py_take_to (-1) (source_shape self) ++ g_shape (source_grid self)
    ∧ heap σ !! buf tf
      = Some (cast_samples (source_dtype self) (adtype tf)
                (shifted_samples self (source_shape self) (source_grid self) x)).

(** A filter without padding whose transfer function is of kind [k] and
    has the samples [x], as the constructor and the calls before left
    it: the internal grid is the input grid in shape, there is no cutout,
    the transfer function is a field of kind [k] on a grid of that shape,
    and the cache, if any, was computed from it. *)
Definition unpadded_filter (k : tf_kind) (σ : @pystate C) (self : FourierFilter C)
    (x : list C) : Prop :=
  wf_grid (input_grid self) ∧ wf_grid (internal_grid self)
  ∧ g_ndim (internal_grid self) = g_ndim (input_grid self)
  ∧ g_shape (internal_grid self) = g_shape (input_grid self)
  ∧ cutout self = None
  ∧ wf_source σ self
  ∧ source_shape self = kind_shape k ++ [g_size (source_grid self)]
  ∧ g_shape (source_grid self) = g_shape (internal_grid self)
  ∧ source_samples σ self = Some x
  ∧ length x = prod_list (source_shape self)
  ∧ cache_valid σ self x.

(** The samples [_operation] returns for a vector field when the
    transfer function is a matrix and there is no padding. *)
Definition filtered_matrix_samples (n : nat) (gs : list nat) (k : nat) (adjoint : bool)
    (T F : list C) : list C :=
  let sh := [n] ++ gs in
  let ax := seq (length sh - k) k in
  let N := prod_list gs in
  fft_data true sh ax
    (matvec_data n n N (if adjoint then conj_transpose_data n n N T else T)
       (fft_data false sh ax F)).

(** The samples [_operation] returns when there is no padding, for a
    transfer function of kind [k] with cached samples [T]. *)
Definition unpadded_samples (k : tf_kind) (ts gs : list nat) (nd : nat) (adjoint : bool)
    (T F : list C) : list C :=
  match k with
  | ScalarTF => filtered_samples (ts ++ gs) nd gs adjoint T F
  | MatrixTF n => filtered_matrix_samples n gs nd adjoint T F
  end.

(** [raises_only E m]: every exception [m] raises satisfies [E]. *)
Definition raises_only {A} (E : exn → Prop) (m : @M C A) : Prop :=
  ∀ σ e σ', m σ = (Raise e, σ') → E e.

(** [frames l P Q m]: whatever its outcome, [m] leaves buffer [l] as it
    was and appends only events that satisfy [P]; when it returns, the
    value and the appended events satisfy [Q]. *)
Definition frames {A} (l : loc) (P : event C → Prop) (Q : A → list (event C) → Prop)
    (m : @M C A) : Prop :=
  ∀ σ r σ', l < length (heap σ) → m σ = (r, σ') →
    l < length (heap σ')
    ∧ heap σ' !! l = heap σ !! l
    ∧ ∃ evs, trace σ' = trace σ ++ evs ∧ Forall P evs ∧ ∀ a, r = Return a → Q a evs.

(** What the filter may pass as [overwrite_x]: for the forward transform
    whether the input was copied into the scratch buffer, for the inverse
    transform always true; and never true on buffer [l]. *)
Definition overwrite_policy (self : FourierFilter C) (l : loc) (e : event C) : Prop :=
  match e with
  | EvFFT inverse b overwrite_x =>
      overwrite_x = (if inverse then true else bool_decide (cutout self ≠ None))
      ∧ (overwrite_x = true → b ≠ l)
  | _ => True
  end.

End Specs.

(** ** An exact instance: Gaussian rationals and the DFT of two and four points

    Used to run the embedding on concrete inputs. *)

Module Exact.

Definition GQ : Type := Qc * Qc.

Definition gq (a b : Z) : GQ := (Q2Qc (inject_Z a), Q2Qc (inject_Z b)).

Definition gq_add (x y : GQ) : GQ := (x.1 + y.1, x.2 + y.2)%Qc.
Definition gq_sub (x y : GQ) : GQ := (x.1 - y.1, x.2 - y.2)%Qc.
Definition gq_mul (x y : GQ) : GQ := (x.1 * y.1 - x.2 * y.2, x.1 * y.2 + x.2 * y.1)%Qc.
Definition gq_neg (x : GQ) : GQ := (- x.1, - x.2)%Qc.
Definition gq_conj (x : GQ) : GQ := (x.1, - x.2)%Qc.
Definition gq_half (x : GQ) : GQ := (x.1 / 2, x.2 / 2)%Qc.
Definition gq_cast (d : dtype) (x : GQ) : GQ := if is_complex d then x else (x.1, 0%Qc).

#[export] Instance gq_scalar : Scalar GQ := {|
  c_zero := gq 0 0;
  c_one := gq 1 0;
  c_add := gq_add;
  c_mul := gq_mul;
  c_neg := gq_neg;
  c_conj := gq_conj;
  c_i := gq 0 1;
  c_cast := gq_cast;
|}.

(** The discrete Fourier transform along one axis, for axes of length one
    (the identity), two (sum and difference, halved for the inverse) and
    four (with the fourth root of unity [-1j], [1j] for the inverse,
    which is divided by four); other axes are left as they are. *)
Definition dft_axis (inverse : bool) (sh : list nat) (ax : nat) (x : list GQ) : list GQ :=
  (λ k,
     let idx := unravel sh k in
     let at_ j := default (gq 0 0) (x !! ravel sh (<[ax := j]> idx)) in
     if decide (sh !! ax = Some 2) then
       let x0 := default (gq 0 0) (x !! ravel sh (<[ax := 0]> idx)) in
       let x1 := default (gq 0 0) (x !! ravel sh (<[ax := 1]> idx)) in
       let s := if decide (idx !! ax = Some 0) then gq_add x0 x1 else gq_sub x0 x1 in
       if inverse then gq_half s else s
     else if decide (sh !! ax = Some 4) then
       let w := if inverse then gq 0 1 else gq 0 (-1) in
       let even := gq_add (at_ 0) (at_ 2) in
       let odd := gq_add (at_ 1) (at_ 3) in
       let even' := gq_sub (at_ 0) (at_ 2) in
       let odd' := gq_mul w (gq_sub (at_ 1) (at_ 3)) in
       let s := match idx !! ax with
                | Some 0 => gq_add even odd
                | Some 1 => gq_add even' odd'
                | Some 2 => gq_sub even odd
                | _ => gq_sub even' odd'
                end in
       if inverse then gq_half (gq_half s) else s
     else default (gq 0 0) (x !! k))
    <$> seq 0 (prod_list sh).

Definition dft (inverse : bool) (sh : list nat) (axes : list nat) (x : list GQ) : list GQ :=
  foldr (dft_axis inverse sh) x axes.

#[export] Instance gq_fft : FFTBackend GQ := {|
  fft_data := dft;
  fft_scratch := dft;
  fft_dtype d := match d with float32 | complex64 => complex64 | _ => complex128 end;
|}.

Definition state0 (h : list (list GQ)) : @pystate GQ := PyState h [].

(** A grid of two points and a grid of four points on a line. *)
Definition grid2 : Grid GQ := MkGrid 1 [2] 2 true [[gq 0 0; gq 1 0]].
Definition grid4 : Grid GQ := MkGrid 1 [4] 4 true [[gq 0 0; gq 1 0; gq 2 0; gq 3 0]].

(** Transfer functions: the constant [1j], of modulus one, and the
    constant [2], real but not of modulus one. *)
Definition phase_tf (g : Grid GQ) : FieldLit GQ :=
  MkFieldLit [g_size g] complex128 (replicate (g_size g) (gq 0 1)) g.
Definition double_tf (g : Grid GQ) : FieldLit GQ :=
  MkFieldLit [g_size g] float64 (replicate (g_size g) (gq 2 0)) g.

(** Filters as the constructor builds them: without padding, and with the
    two points of the input in the middle of four. *)
Definition phase_filter : FourierFilter GQ :=
  FourierFilter_init (MkFFT grid2 None) grid2 (TFGenerator phase_tf).
Definition double_filter : FourierFilter GQ :=
  FourierFilter_init (MkFFT grid2 None) grid2 (TFGenerator double_tf).
Definition padded_filter : FourierFilter GQ :=
  FourierFilter_init (MkFFT grid4 (Some [Slice (Some 1%Z) (Some 3%Z)])) grid2
    (TFGenerator phase_tf).

(** A field with samples [1; 3] in buffer 0. *)
Definition field13 : Field GQ := MkField (NDArray [2] complex128 0) grid2.
Definition state13 : @pystate GQ := state0 [[gq 1 0; gq 3 0]].

(** The matrix [[0, -1j], [1j, 0]] at every point: Hermitian and unitary. *)
Definition pauli_tf (g : Grid GQ) : FieldLit GQ :=
  MkFieldLit [2; 2; g_size g] complex128
    (replicate (g_size g) (gq 0 0) ++ replicate (g_size g) (gq 0 (-1))
     ++ replicate (g_size g) (gq 0 1) ++ replicate (g_size g) (gq 0 0)) g.
Definition pauli_filter : FourierFilter GQ :=
  FourierFilter_init (MkFFT grid2 None) grid2 (TFGenerator pauli_tf).

(** Vector fields with samples [1; 3] and [5; 7] in buffer 0, of complex
    and of real dtype. *)
Definition vector1357 : Field GQ := MkField (NDArray [2; 2] complex128 0) grid2.
Definition real_vector1357 : Field GQ := MkField (NDArray [2; 2] float64 0) grid2.
Definition state1357 : @pystate GQ := state0 [[gq 1 0; gq 3 0; gq 5 0; gq 7 0]].

(** The transfer function [1, -1, 1, -1, ...], real and of modulus one,
    in a filter that pads two points to four. *)
Definition alternating_tf (g : Grid GQ) : FieldLit GQ :=
  MkFieldLit [g_size g] float64
    ((λ k, if Nat.even k then gq 1 0 else gq (-1) 0) <$> seq 0 (g_size g)) g.
Definition alternating_padded_filter : FourierFilter GQ :=
  FourierFilter_init (MkFFT grid4 (Some [Slice (Some 1%Z) (Some 3%Z)])) grid2
    (TFGenerator alternating_tf).

(** A matrix transfer function at two points, [[1, 2], [3, 4]] at each,
    in buffer 0, and a transformed vector field in buffer 1. *)
Definition matrix_tfc : ndarray := NDArray [2; 2; 2] complex128 0.
Definition vector_f : ndarray := NDArray [2; 2] complex128 1.
Definition matrix_state : @pystate GQ :=
  state0 [[gq 1 0; gq 1 0; gq 2 0; gq 2 0; gq 3 0; gq 3 0; gq 4 0; gq 4 0];
          [gq 1 0; gq 0 0; gq 0 0; gq 1 0]].

End Exact.

(** ** A symbolic instance: samples as expressions *)

Module Symbolic.

Inductive term :=
  | Var (name : string) (index : nat)
  | Zero | One | ImagUnit
  | Add (a b : term) | Mul (a b : term)
  | Neg (a : term) | Conj (a : term) | Exp (a : term)
  | Cast (d : dtype) (a : term).

#[export] Instance term_scalar : Scalar term := {|
  c_zero := Zero;
  c_one := One;
  c_add := Add;
  c_mul := Mul;
  c_neg := Neg;
  c_conj := Conj;
  c_i := ImagUnit;
  c_cast := Cast;
|}.

#[export] Instance term_exp : ScalarExp term := Exp.

(** A 2 × 3 grid with coordinates [x0, x1] and [y0, y1, y2], and its
    frequency grid with coordinates [u0, u1] and [v0, v1, v2]. *)
Definition coords (name : string) (n : nat) : list term := Var name <$> seq 0 n.
Definition sym_grid : Grid term := MkGrid 2 [3; 2] 6 true [coords "x" 2; coords "y" 3].
Definition sym_fft_grid (g : Grid term) : Grid term :=
  MkGrid 2 [3; 2] 6 true [coords "u" 2; coords "v" 3].

Definition sym_shear (dim : Z) : FourierShear term :=
  {| _input_grid := sym_grid; _shear_dim := dim; _filter := None; _shear := None |}.

Definition sym_state : @pystate term := PyState [] [].

End Symbolic.

(** ** An element whose [forward] returns its wavefront *)

Definition passthrough_element : OpticalElement nat unit :=
  {| oe_forward := λ w σ, (Return (VWavefront w), σ);
     oe_backward := λ w σ, (Return (VWavefront w), σ) |}.

(** * Properties *)

(** ** Shapes and indices *)

Lemma prod_list_app (a b : list nat) : prod_list (a ++ b) = prod_list a * prod_list b.
Proof.
  induction a as [|n a IH]; simpl.
  - lia.
  - rewrite IH. lia.
Qed.

Lemma py_take_to_neg_app {A} (a b : list A) :
  0 < length b → py_take_to (- Z.of_nat (length b)) (a ++ b) = a.
Proof.
  intros Hb. unfold py_take_to.
  destruct (decide (0 ≤ - Z.of_nat (length b))%Z) as [H|H]; [lia|].
  rewrite length_app.
  replace (Z.to_nat _) with (length a) by lia.
  by rewrite take_app_length.
Qed.

Lemma py_take_to_last {A} (a : list A) (x : A) : py_take_to (-1) (a ++ [x]) = a.
Proof. apply (py_take_to_neg_app a [x]). simpl. lia. Qed.

Lemma filter_of_nat_ne (sh : list nat) :
  filter (λ z : Z, z ≠ (-1)%Z) (Z.of_nat <$> sh) = Z.of_nat <$> sh.
Proof.
  induction sh as [|n sh IH]; [done|].
  rewrite fmap_cons, filter_cons_True by lia. by rewrite IH.
Qed.

Lemma filter_of_nat_eq (sh : list nat) :
  filter (λ z : Z, z = (-1)%Z) (Z.of_nat <$> sh) = [].
Proof.
  induction sh as [|n sh IH]; [done|].
  rewrite fmap_cons, filter_cons_False by lia. done.
Qed.

Lemma to_nat_of_nat_fmap (sh : list nat) : Z.to_nat <$> (Z.of_nat <$> sh) = sh.
Proof.
  induction sh as [|n sh IH]; [done|]. rewrite !fmap_cons, IH. by rewrite Nat2Z.id.
Qed.

Lemma Forall_of_nat_ge (sh : list nat) : Forall (λ z, (-1 ≤ z)%Z) (Z.of_nat <$> sh).
Proof. apply Forall_fmap, Forall_forall. intros; simpl; lia. Qed.

Lemma resolve_shape_exact (total : nat) (sh : list nat) :
  prod_list sh = total → resolve_shape total (Z.of_nat <$> sh) = Some sh.
Proof.
  intros H. unfold resolve_shape.
  rewrite decide_True by apply Forall_of_nat_ge.
  rewrite filter_of_nat_eq, filter_of_nat_ne, to_nat_of_nat_fmap. simpl.
  by rewrite decide_True.
Qed.

Lemma resolve_shape_exact_inv (total : nat) (sh sh' : list nat) :
  resolve_shape total (Z.of_nat <$> sh) = Some sh' → sh' = sh ∧ prod_list sh = total.
Proof.
  unfold resolve_shape.
  rewrite decide_True by apply Forall_of_nat_ge.
  rewrite filter_of_nat_eq, filter_of_nat_ne, to_nat_of_nat_fmap. simpl.
  case_decide; [|done]. intros [= <-]. done.
Qed.

Lemma fill_of_nat_fmap (q : nat) (sh : list nat) :
  (λ z : Z, if decide (z = (-1)%Z) then q else Z.to_nat z) <$> (Z.of_nat <$> sh) = sh.
Proof.
  induction sh as [|k sh IH]; [done|].
  rewrite !fmap_cons, IH, decide_False by lia. by rewrite Nat2Z.id.
Qed.

Lemma resolve_shape_infer (lead : list nat) (n : nat) :
  prod_list lead ≠ 0 →
  resolve_shape (prod_list lead * n) ((Z.of_nat <$> lead) ++ [(-1)%Z]) = Some (lead ++ [n]).
Proof.
  intros Hl. unfold resolve_shape.
  rewrite decide_True; last first.
  { apply Forall_app; split; [apply Forall_of_nat_ge|]. by repeat constructor. }
  rewrite !filter_app, filter_of_nat_eq, filter_of_nat_ne.
  rewrite (filter_cons_True (λ z, z = (-1)%Z)) by done.
  rewrite (filter_cons_False (λ z, z ≠ (-1)%Z)) by (intros H; by apply H).
  simpl. rewrite app_nil_r, to_nat_of_nat_fmap.
  rewrite decide_True; last first.
  { split; [done|]. rewrite Nat.mul_comm. by apply Nat.Div0.mod_mul. }
  f_equal. rewrite fmap_app. f_equal.
  - apply fill_of_nat_fmap.
  - simpl. rewrite Nat.mul_comm, Nat.div_mul by done. done.
Qed.

Lemma norm_axes_range (n k : nat) :
  k ≤ n → norm_axes n (py_range (- Z.of_nat k) 0) = Some (seq (n - k) k).
Proof.
  intros Hk. unfold norm_axes, py_range.
  replace (Z.to_nat (0 - - Z.of_nat k)) with k by lia.
  apply mapM_Some. 
  apply Forall2_same_length_lookup. split; [by rewrite length_fmap, !length_seq|].
  intros i a b Ha Hb.
  rewrite list_lookup_fmap in Ha.
  apply lookup_seq in Hb as [-> Hi].
  rewrite lookup_seq_lt in Ha by done. simpl in Ha. injection Ha as <-.
  unfold norm_axis.
  rewrite decide_False by lia. rewrite decide_True by lia. f_equal. lia.
Qed.

(** ** Running the monad *)

Section Lemmas.
Context {C : Type} `{!Scalar C, !FFTBackend C}.

#[local] Abbreviation M := (@M C).

Lemma bind_run {A B} (m : M A) (k : A → M B) σ a σ' :
  m σ = (Return a, σ') → bind m k σ = k a σ'.
Proof. intros H. unfold bind. by rewrite H. Qed.

Lemma bind_raise {A B} (m : M A) (k : A → M B) σ e σ' :
  m σ = (Raise e, σ') → bind m k σ = (Raise e, σ').
Proof. intros H. unfold bind. by rewrite H. Qed.

Lemma bind_inv {A B} (m : M A) (k : A → M B) σ r σ'' :
  bind m k σ = (r, σ'') →
  (∃ a σ', m σ = (Return a, σ') ∧ k a σ' = (r, σ''))
  ∨ (∃ e, m σ = (Raise e, σ'') ∧ r = Raise e).
Proof.
  unfold bind. destruct (m σ) as [[a|e] σ'] eqn:E; intros H.
  - left. eauto.
  - right. injection H as <- <-. eauto.
Qed.

Lemma last_split (sh : list nat) (n : nat) :
  last sh = Some n → sh = py_take_to (-1) sh ++ [n].
Proof.
  intros H. destruct sh as [|k sh _] using rev_ind; [done|].
  rewrite last_snoc in H. injection H as ->. by rewrite py_take_to_last.
Qed.

Lemma wf_flat_prod (sh : list nat) (g : Grid C) :
  wf_grid g → last sh = Some (g_size g) →
  prod_list (py_take_to (-1) sh ++ g_shape g) = prod_list sh.
Proof.
  intros (_ & _ & Hp) Hl. rewrite (last_split _ _ Hl) at 2.
  rewrite !prod_list_app, Hp. simpl. lia.
Qed.

Lemma shaped_run (f : Field C) σ :
  wf_grid (grid f) → last (shape (fdata f)) = Some (g_size (grid f)) →
  shaped f σ
  = (Return (NDArray (tensor_shape f ++ g_shape (grid f)) (fdtype f) (buf (fdata f))), σ).
Proof.
  intros Hg Hl. unfold shaped, np_reshape.
  rewrite resolve_shape_exact; [done|]. by apply wf_flat_prod.
Qed.

Lemma lookup_snoc_here {A} (h : list A) (x : A) : (h ++ [x]) !! length h = Some x.
Proof. by rewrite list_lookup_middle. Qed.


(** *** [_compute_functions] *)

Lemma refresh_transfer_function_fresh (self : FourierFilter C) field σ :
  cache_stale self field = false →
  refresh_transfer_function self field σ = (Return self, σ).
Proof. intros H. unfold refresh_transfer_function. by rewrite H. Qed.

Lemma cached_heap_lookup self field sh g d x h :
  cached_heap self field sh g d x h !! buf (cached_array field sh g d h)
  = Some (cast_samples d (fdtype field) (shifted_samples self sh g x)).
Proof.
  unfold cached_heap, cached_array, cast_samples. simpl.
  case_decide.
  - rewrite lookup_app_r by lia.
    replace (S (length h) - length h) with 1 by lia. done.
  - rewrite lookup_app_r by lia.
    replace (S (S (length h)) - length h) with 2 by lia. done.
Qed.

Lemma cached_heap_old self field sh g d x h l :
  l < length h → cached_heap self field sh g d x h !! l = h !! l.
Proof. intros Hl. unfold cached_heap. by rewrite lookup_app_l. Qed.

Lemma cached_heap_length self field sh g d x h :
  length h < length (cached_heap self field sh g d x h).
Proof. unfold cached_heap. rewrite length_app. simpl. lia. Qed.

Lemma refresh_transfer_function_generator (self : FourierFilter C) field gen σ :
  cache_stale self field = true →
  transfer_function self = TFGenerator gen →
  wf_source σ self →
  let r := gen (internal_grid self) in
  refresh_transfer_function self field σ
  = (Return (set_transfer_cache self
               (cached_array field (lit_shape r) (lit_grid r) (lit_dtype r) (heap σ))),
     PyState (cached_heap self field (lit_shape r) (lit_grid r) (lit_dtype r)
                (lit_data r) (heap σ))
       (trace σ ++ [EvGenerator (internal_grid self); EvIfftshift (grid_axes self)])).
Proof.
  intros Hs Hg Hwf r. unfold wf_source in Hwf. rewrite Hg in Hwf.
  destruct Hwf as ([Hgr [Hl Hp]] & Hnd). fold r in Hgr, Hl, Hp, Hnd.
  unfold refresh_transfer_function. rewrite Hs, Hg.
  unfold call_generator, shaped, np_reshape, np_ifftshift, np_astype, tensor_shape.
  unfold bind, emit, alloc, load, ret, raise. fold r. simpl.
  rewrite resolve_shape_exact by (by apply wf_flat_prod). simpl.
  unfold ndim, grid_axes. simpl.
  rewrite norm_axes_range; last first.
  { rewrite length_app. destruct Hgr as (_ & -> & _). rewrite Hnd. lia. }
  simpl. rewrite lookup_snoc_here. simpl.
  unfold cached_array, cached_heap, shifted_samples, fdtype.
  destruct (decide (lit_dtype r = adtype (fdata field))) as [Hd|Hd]; simpl.
  - rewrite !length_app, <- !app_assoc. simpl. rewrite Hd.
    repeat f_equal; lia.
  - rewrite !length_app. simpl.
    replace (length (heap σ) + 1) with (length (heap σ ++ [lit_data r]))
      by (rewrite length_app; simpl; lia).
    rewrite lookup_snoc_here. simpl.
    rewrite !length_app, <- !app_assoc. simpl.
    repeat f_equal; lia.
Qed.



Lemma refresh_transfer_function_field (self : FourierFilter C) field f x σ :
  cache_stale self field = true →
  transfer_function self = TFField f →
  wf_source σ self →
  heap σ !! buf (fdata f) = Some x →
  refresh_transfer_function self field σ
  = (Return (set_transfer_cache self
               (cached_array field (shape (fdata f)) (grid f) (fdtype f) (heap σ))),
     PyState (cached_heap self field (shape (fdata f)) (grid f) (fdtype f) x (heap σ))
       (trace σ ++ [EvIfftshift (grid_axes self)])).
Proof.
  intros Hs Hg Hwf Hx. unfold wf_source in Hwf. rewrite Hg in Hwf.
  destruct Hwf as ((Hgr & [Hl Hp] & Hb) & Hnd).
  unfold refresh_transfer_function. rewrite Hs, Hg.
  unfold field_copy, np_copy, shaped, np_reshape, np_ifftshift, np_astype, tensor_shape.
  unfold bind, emit, alloc, load, ret, raise. simpl. rewrite Hx. simpl.
  rewrite resolve_shape_exact by (by apply wf_flat_prod). simpl.
  unfold ndim, grid_axes. simpl.
  rewrite norm_axes_range; last first.
  { rewrite length_app. destruct Hgr as (_ & -> & _). rewrite Hnd. lia. }
  simpl. rewrite lookup_snoc_here. simpl.
  unfold cached_array, cached_heap, shifted_samples, fdtype.
  destruct (decide (adtype (fdata f) = adtype (fdata field))) as [Hd|Hd]; simpl.
  - rewrite !length_app, <- !app_assoc. simpl. rewrite Hd.
    repeat f_equal; lia.
  - rewrite !length_app. simpl.
    replace (length (heap σ) + 1) with (length (heap σ ++ [x]))
      by (rewrite length_app; simpl; lia).
    rewrite lookup_snoc_here. simpl.
    rewrite !length_app, <- !app_assoc. simpl.
    repeat f_equal; lia.
Qed.

Lemma refresh_internal_array_keep (self : FourierFilter C) field σ :
  recompute_internal_array self field = false →
  refresh_internal_array self field σ = (Return self, σ).
Proof. intros H. unfold refresh_internal_array. by rewrite H. Qed.

Lemma refresh_internal_array_alloc (self : FourierFilter C) field σ :
  recompute_internal_array self field = true →
  wf_grid (internal_grid self) →
  refresh_internal_array self field σ
  = (Return (set_internal_array self
               (NDArray (tensor_shape field ++ g_shape (internal_grid self))
                  (fdtype field) (length (heap σ)))),
     PyState (heap σ ++ [replicate (prod_list (tensor_shape field)
                                    * g_size (internal_grid self)) c_zero])
       (trace σ ++ [EvZeros (internal_grid self) (tensor_shape field) (fdtype field)])).
Proof.
  intros H (_ & _ & Hp). unfold refresh_internal_array. rewrite H.
  unfold grid_zeros, shaped, np_reshape, tensor_shape.
  unfold bind, emit, alloc, ret, raise. simpl.
  rewrite py_take_to_last.
  rewrite resolve_shape_exact; [done|].
  rewrite !prod_list_app, Hp. simpl. lia.
Qed.

Lemma new_events_app (σ : @pystate C) h evs :
  new_events σ (PyState h (trace σ ++ evs)) = evs.
Proof. unfold new_events. simpl. by rewrite drop_app_length. Qed.

Lemma new_events_nil (σ : @pystate C) : new_events σ σ = [].
Proof. unfold new_events. by rewrite drop_all. Qed.

(** The outcome of [refresh_transfer_function] on well-formed input. *)
Lemma refresh_transfer_function_spec (self : FourierFilter C) field σ :
  wf_source σ self →
  ∃ self' h evs,
    refresh_transfer_function self field σ = (Return self', PyState h (trace σ ++ evs))
    ∧ internal_array self' = internal_array self
    ∧ internal_grid self' = internal_grid self
    ∧ (∀ l, l < length (heap σ) → h !! l = heap σ !! l)
    ∧ length (heap σ) ≤ length h
    ∧ (cache_stale self field = false →
         self' = self ∧ h = heap σ ∧ evs = [])
    ∧ (cache_stale self field = true →
         (∀ gen, transfer_function self = TFGenerator gen →
            evs = [EvGenerator (internal_grid self); EvIfftshift (grid_axes self)]
            ∧ let r := gen (internal_grid self) in
              ∃ tf, _transfer_function self' = Some tf
                ∧ adtype tf = fdtype field
                ∧ shape tf = py_take_to (-1) (lit_shape r) ++ g_shape (lit_grid r)
                ∧ length (heap σ) ≤ buf tf
                ∧ h !! buf tf
                  = Some (cast_samples (lit_dtype r) (fdtype field)
                            (shifted_samples self (lit_shape r) (lit_grid r) (lit_data r))))
         ∧ (∀ f, transfer_function self = TFField f →
              evs = [EvIfftshift (grid_axes self)]
              ∧ ∃ tf x, _transfer_function self' = Some tf
                ∧ adtype tf = fdtype field
                ∧ shape tf = py_take_to (-1) (shape (fdata f)) ++ g_shape (grid f)
                ∧ length (heap σ) ≤ buf tf
                ∧ heap σ !! buf (fdata f) = Some x
                ∧ h !! buf tf
                  = Some (cast_samples (fdtype f) (fdtype field)
                            (shifted_samples self (shape (fdata f)) (grid f) x)))).
Proof.
  intros Hwf. destruct (cache_stale self field) eqn:Hs.
  - destruct (transfer_function self) as [gen|f] eqn:Hg.
    + eexists _, _, _. split; [by apply refresh_transfer_function_generator|].
      split; [done|]. split; [done|].
      split; [intros; by apply cached_heap_old|].
      split; [pose proof (cached_heap_length self field (lit_shape (gen (internal_grid self)))
          (lit_grid (gen (internal_grid self))) (lit_dtype (gen (internal_grid self)))
          (lit_data (gen (internal_grid self))) (heap σ)); lia|].
      split; [done|]. intros _. split; [|done].
      intros gen' [= <-]. split; [done|]. simpl.
      eexists. split; [done|]. split; [done|]. split; [done|].
      split; [simpl; case_decide; lia|]. apply cached_heap_lookup.
    + assert (∃ x, heap σ !! buf (fdata f) = Some x) as [x Hx].
      { unfold wf_source in Hwf. rewrite Hg in Hwf.
        destruct Hwf as ((_ & _ & Hb) & _). by apply lookup_lt_is_Some_2. }
      eexists _, _, _. split; [by eapply refresh_transfer_function_field|].
      split; [done|]. split; [done|].
      split; [intros; by apply cached_heap_old|].
      split; [pose proof (cached_heap_length self field (shape (fdata f)) (grid f)
          (fdtype f) x (heap σ)); lia|].
      split; [done|]. intros _. split; [done|].
      intros f' [= <-]. split; [done|].
      eexists _, x. split; [done|]. split; [done|]. split; [done|].
      split; [simpl; case_decide; lia|]. split; [done|]. apply cached_heap_lookup.
  - exists self, (heap σ), []. rewrite app_nil_r.
    split; [rewrite refresh_transfer_function_fresh by done; by destruct σ|].
    repeat split; try done; lia.
Qed.

End Lemmas.

(** ** [FourierFilter._compute_functions] *)

Section ComputeFunctions.
Context {C : Type} `{!Scalar C, !FFTBackend C}.

Lemma cache_stale_iff (self : FourierFilter C) (field : Field C) :
  cache_stale self field = true ↔
  (_transfer_function self = None
   ∨ ∃ tf, _transfer_function self = Some tf ∧ adtype tf ≠ fdtype field).
Proof.
  unfold cache_stale. destruct (_transfer_function self) as [tf|].
  - rewrite bool_decide_eq_true. split.
    + intros H. right. eauto.
    + intros [?|(tf' & [= <-] & H)]; done.
  - split; [by left|done].
Qed.

Lemma recompute_internal_array_iff (self : FourierFilter C) (field : Field C) :
  recompute_internal_array self field = true ↔
  (internal_array self = None
   ∨ ∃ a, internal_array self = Some a
       ∧ (ndim a ≠ g_ndim (grid field) + tensor_order field
          ∨ adtype a ≠ fdtype field
          ∨ take (tensor_order field) (shape a) ≠ tensor_shape field)).
Proof.
  unfold recompute_internal_array. destruct (internal_array self) as [a|].
  - rewrite !orb_true_iff, negb_true_iff, !bool_decide_eq_true, bool_decide_eq_false.
    split.
    + intros H. right. exists a. split; [done|]. tauto.
    + intros [?|(a' & [= <-] & H)]; [done|tauto].
  - split; [by left|done].
Qed.

(** The outcome of [_compute_functions] on well-formed input: the two
    refreshes one after the other. *)
Lemma compute_functions_spec (self : FourierFilter C) (field : Field C) (σ : pystate) :
  wf_source σ self → wf_grid (internal_grid self) →
  ∃ selfA hA evsA self' σ',
    refresh_transfer_function self field σ = (Return selfA, PyState hA (trace σ ++ evsA))
    ∧ _compute_functions self field σ = (Return self', σ')
    ∧ _transfer_function self' = _transfer_function selfA
    ∧ (recompute_internal_array self field = false →
         self' = selfA ∧ σ' = PyState hA (trace σ ++ evsA))
    ∧ (recompute_internal_array self field = true →
         internal_array self'
         = Some (NDArray (tensor_shape field ++ g_shape (internal_grid self))
                   (fdtype field) (length hA))
         ∧ σ' = PyState (hA ++ [replicate (prod_list (tensor_shape field)
                                          * g_size (internal_grid self)) c_zero])
                  (trace σ ++ evsA
                   ++ [EvZeros (internal_grid self) (tensor_shape field) (fdtype field)])).
Proof.
  intros Hsrc Hg.
  destruct (refresh_transfer_function_spec self field σ Hsrc)
    as (selfA & hA & evsA & Hrun & Hia & Hig & _).
  assert (recompute_internal_array selfA field = recompute_internal_array self field) as Hre.
  { unfold recompute_internal_array. by rewrite Hia. }
  exists selfA, hA, evsA.
  unfold _compute_functions. rewrite (bind_run _ _ _ _ _ Hrun).
  destruct (recompute_internal_array self field) eqn:Hr.
  - rewrite refresh_internal_array_alloc by (rewrite ?Hig; done).
    eexists _, _. split; [done|]. split; [done|]. split; [done|].
    split; [done|]. intros _. simpl. rewrite Hig, <- app_assoc. done.
  - rewrite refresh_internal_array_keep by done.
    eexists _, _. split; [done|]. split; [done|]. split; [done|].
    split; [done|]. done.
Qed.


Lemma filter_cache_event_zeros (evs : list (event C)) g ts d :
  filter is_cache_event (evs ++ [EvZeros g ts d]) = filter is_cache_event evs.
Proof. rewrite filter_app. simpl. rewrite filter_cons_False by (simpl; tauto). by rewrite app_nil_r. Qed.

(** C6: on every call the cached transfer-function samples are recomputed
    exactly when they are absent or their dtype differs from the field's.
    When they are not, the cache is left as it was and neither the
    generator nor [ifftshift] is called; when they are and the transfer
    function is a generator, the generator is called once, with the
    internal grid, [ifftshift] is called once, over the grid axes, and the
    cache holds the generated samples shifted along the last axes and
    cast to the dtype of the field. *)
Theorem compute_functions_transfer_cache
    (self : FourierFilter C) (field : Field C) (σ : pystate) :
  wf_source σ self → wf_grid (internal_grid self) →
  let stale := _transfer_function self = None
               ∨ ∃ tf, _transfer_function self = Some tf ∧ adtype tf ≠ fdtype field in
  ∃ self' σ',
    _compute_functions self field σ = (Return self', σ')
    ∧ (stale ↔ filter is_cache_event (new_events σ σ') ≠ [])
    ∧ (¬ stale → _transfer_function self' = _transfer_function self)
    ∧ (stale → ∀ gen, transfer_function self = TFGenerator gen →
         let r := gen (internal_grid self) in
         filter is_cache_event (new_events σ σ')
         = [EvGenerator (internal_grid self); EvIfftshift (grid_axes self)]
         ∧ ∃ tf, _transfer_function self' = Some tf
             ∧ adtype tf = fdtype field
             ∧ heap σ' !! buf tf
               = Some (cast_samples (lit_dtype r) (fdtype field)
                         (shifted_samples self (lit_shape r) (lit_grid r) (lit_data r)))).
Proof.
  intros Hsrc Hg stale.
  destruct (compute_functions_spec self field σ Hsrc Hg)
    as (selfA & hA & evsA & self' & σ' & HA & Hrun & Htf & Hkeep & Halloc).
  destruct (refresh_transfer_function_spec self field σ Hsrc)
    as (selfA' & hA' & evsA' & HA' & _ & _ & _ & _ & Hfresh & Hstale).
  rewrite HA in HA'. injection HA' as <- <- HevsA. apply app_inv_head in HevsA as <-.
  assert (filter is_cache_event (new_events σ σ') = filter is_cache_event evsA) as Hev.
  { destruct (recompute_internal_array self field).
    - destruct Halloc as [_ ->]; [done|].
      by rewrite new_events_app, filter_cache_event_zeros.
    - destruct Hkeep as [_ ->]; [done|]. by rewrite new_events_app. }
  exists self', σ'. split; [done|]. rewrite Hev, Htf.
  unfold stale. rewrite <- cache_stale_iff.
  destruct (cache_stale self field) eqn:Hs.
  - specialize (Hstale eq_refl) as [Hgen Hfld].
    split; [|split; [done|]].
    + split; [|done]. intros _.
      destruct (transfer_function self) as [gen|f].
      * by destruct (Hgen gen eq_refl) as [-> _].
      * by destruct (Hfld f eq_refl) as [-> _].
    + intros _ gen Hgeneq.
      destruct (Hgen gen Hgeneq) as [-> (tf & Hc & Hd & _ & Hb & Hl)].
      split; [done|]. exists tf. split; [done|]. split; [done|].
      destruct (recompute_internal_array self field).
      * destruct Halloc as [_ ->]; [done|]. simpl.
        rewrite lookup_app_l; [done|]. by eapply lookup_lt_Some.
      * by destruct Hkeep as [_ ->].
  - destruct (Hfresh eq_refl) as (-> & _ & ->).
    split; [|split; [done|done]].
    split; [done|]. intros H. by contradict H.
Qed.

(** C7: on every call the scratch buffer is reallocated exactly when it
    does not exist yet, or its number of dimensions differs from the
    field's grid dimensionality plus tensor order, or its dtype differs
    from the field's, or its leading axes differ from the field's tensor
    shape.  A reallocation asks the internal grid for zeros of the field's
    tensor shape and dtype and takes the grid-shaped view of them, in a
    new buffer; otherwise the array and its buffer are the ones of the
    call before. *)
Theorem compute_functions_internal_array
    (self : FourierFilter C) (field : Field C) (σ : pystate) :
  wf_source σ self → wf_grid (internal_grid self) →
  let realloc :=
    internal_array self = None
    ∨ ∃ a, internal_array self = Some a
        ∧ (ndim a ≠ g_ndim (grid field) + tensor_order field
           ∨ adtype a ≠ fdtype field
           ∨ take (tensor_order field) (shape a) ≠ tensor_shape field) in
  ∃ self' σ',
    _compute_functions self field σ = (Return self', σ')
    ∧ (realloc ↔ filter is_zeros_event (new_events σ σ') ≠ [])
    ∧ (realloc →
         filter is_zeros_event (new_events σ σ')
         = [EvZeros (internal_grid self) (tensor_shape field) (fdtype field)]
         ∧ ∃ a, internal_array self' = Some a
             ∧ length (heap σ) ≤ buf a
             ∧ shape a = tensor_shape field ++ g_shape (internal_grid self)
             ∧ adtype a = fdtype field
             ∧ heap σ' !! buf a
               = Some (replicate (prod_list (tensor_shape field)
                                  * g_size (internal_grid self)) c_zero))
    ∧ (¬ realloc →
         internal_array self' = internal_array self
         ∧ ∀ a, internal_array self = Some a → buf a < length (heap σ) →
             heap σ' !! buf a = heap σ !! buf a).
Proof.
  intros Hsrc Hg realloc.
  destruct (compute_functions_spec self field σ Hsrc Hg)
    as (selfA & hA & evsA & self' & σ' & HA & Hrun & Htf & Hkeep & Halloc).
  destruct (refresh_transfer_function_spec self field σ Hsrc)
    as (selfA' & hA' & evsA' & HA' & Hia & _ & Hold & Hlen & Hfresh & Hstale).
  rewrite HA in HA'. injection HA' as <- <- HevsA. apply app_inv_head in HevsA as <-.
  assert (filter is_zeros_event evsA = []) as HevA.
  { destruct (cache_stale self field).
    - destruct (Hstale eq_refl) as [Hgen Hfld].
      destruct (transfer_function self) as [gen|f].
      + by destruct (Hgen gen eq_refl) as [-> _].
      + by destruct (Hfld f eq_refl) as [-> _].
    - by destruct (Hfresh eq_refl) as (_ & _ & ->). }
  exists self', σ'. split; [done|].
  unfold realloc. rewrite <- recompute_internal_array_iff.
  destruct (recompute_internal_array self field) eqn:Hr.
  - destruct (Halloc eq_refl) as [Harr ->].
    rewrite new_events_app, filter_app, HevA. simpl.
    rewrite filter_cons_True by done. simpl.
    split; [done|]. split; [|done]. intros _. split; [done|].
    eexists. split; [done|]. simpl. split; [done|]. split; [done|]. split; [done|].
    by rewrite lookup_snoc_here.
  - destruct (Hkeep eq_refl) as [-> ->].
    rewrite new_events_app, HevA.
    split; [split; [done|intros H; by contradict H]|]. split; [done|].
    intros _. split; [done|]. intros a Ha Hb. simpl. by apply Hold.
Qed.

End ComputeFunctions.

(** ** Which buffers a call writes *)

Section Frames.
Context {C : Type} `{!Scalar C, !FFTBackend C}.

#[local] Abbreviation M := (@M C).

Implicit Types (l : loc) (P : event C → Prop).

Lemma frames_ret {A} l P (a : A) : frames l P (λ r evs, r = a ∧ evs = []) (ret a).
Proof.
  intros σ r σ' Hl [= <- <-]. split; [done|]. split; [done|].
  exists []. rewrite app_nil_r. split; [done|]. split; [done|].
  by intros a' [= <-].
Qed.

Lemma frames_raise {A} l P (Q : A → list (event C) → Prop) e : frames l P Q (raise e).
Proof.
  intros σ r σ' Hl [= <- <-]. split; [done|]. split; [done|].
  exists []. rewrite app_nil_r. by repeat split.
Qed.

Lemma frames_weaken {A} l P (Q Q' : A → list (event C) → Prop) (m : M A) :
  frames l P Q m → (∀ a evs, Q a evs → Q' a evs) → frames l P Q' m.
Proof.
  intros Hm HQ σ r σ' Hl Hrun.
  destruct (Hm σ r σ' Hl Hrun) as (? & ? & evs & ? & ? & ?).
  repeat split; [done..|]. exists evs. repeat split; [done..|]. eauto.
Qed.

Lemma frames_bind {A B} l P (Q : A → list (event C) → Prop)
    (R : B → list (event C) → Prop) (m : M A) (k : A → M B) :
  frames l P Q m →
  (∀ a evs, Q a evs → frames l P (λ b evs', R b (evs ++ evs')) (k a)) →
  frames l P R (bind m k).
Proof.
  intros Hm Hk σ r σ'' Hl Hrun.
  apply bind_inv in Hrun as [(a & σ' & Hma & Hka)|(e & Hme & ->)].
  - destruct (Hm σ _ σ' Hl Hma) as (Hl' & Hh & evs & Ht & HP & HQ).
    destruct (Hk a evs (HQ a eq_refl) σ' r σ'' Hl' Hka) as (Hl'' & Hh' & evs' & Ht' & HP' & HR).
    split; [done|]. split; [congruence|].
    exists (evs ++ evs'). rewrite Ht', Ht, app_assoc. split; [done|].
    split; [by apply Forall_app|]. done.
  - destruct (Hm σ _ σ'' Hl Hme) as (Hl' & Hh & evs & Ht & HP & HQ).
    split; [done|]. split; [done|]. exists evs. by repeat split.
Qed.

Lemma frames_emit l P ev : P ev → frames l P (λ _ evs, evs = [ev]) (emit ev).
Proof.
  intros HP σ r σ' Hl [= <- <-]. simpl. split; [done|]. split; [done|].
  exists [ev]. split; [done|]. split; [by constructor|]. done.
Qed.

Lemma frames_alloc l P x : frames l P (λ b evs, b ≠ l ∧ evs = []) (alloc x).
Proof.
  intros σ r σ' Hl [= <- <-]. simpl. rewrite length_app. split; [lia|].
  split; [by rewrite lookup_app_l|].
  exists []. rewrite app_nil_r. split; [done|]. split; [done|].
  intros a [= <-]. split; [lia|done].
Qed.

Lemma frames_load l P b : frames l P (λ _ evs, evs = []) (load b).
Proof.
  intros σ r σ' Hl. unfold load.
  destruct (heap σ !! b); intros [= <- <-]; (split; [done|]); (split; [done|]);
    exists []; rewrite app_nil_r; by repeat split.
Qed.

Lemma frames_store l P b x : b ≠ l → frames l P (λ _ evs, evs = []) (store b x).
Proof.
  intros Hb σ r σ' Hl [= <- <-]. simpl. rewrite length_insert. split; [done|].
  split; [by rewrite list_lookup_insert_ne|].
  exists []. rewrite app_nil_r. by repeat split.
Qed.

Lemma frames_lift_option {A} l P e (o : option A) :
  frames l P (λ a evs, o = Some a ∧ evs = []) (lift_option e o).
Proof.
  destruct o as [a|]; simpl.
  - eapply frames_weaken; [apply frames_ret|]. by intros ? ? [-> ->].
  - apply frames_raise.
Qed.


Ltac fr_ret :=
  eapply frames_weaken; [apply frames_ret | intros ? ? [-> ->]; simpl; rewrite ?app_nil_r].
Tactic Notation "fr_bind" uconstr(lem) := eapply frames_bind; [eapply lem | simpl].

Lemma frames_np_reshape l P a spec :
  frames l P (λ r evs, buf r = buf a ∧ evs = []) (np_reshape a spec).
Proof.
  unfold np_reshape. destruct (resolve_shape _ _); [|apply frames_raise].
  by fr_ret.
Qed.

Lemma frames_shaped l P (f : Field C) :
  frames l P (λ r evs, buf r = buf (fdata f) ∧ evs = []) (shaped f).
Proof. apply frames_np_reshape. Qed.

Lemma frames_np_copy l P a :
  frames l P (λ r evs, buf r ≠ l ∧ evs = []) (np_copy a).
Proof.
  unfold np_copy.
  fr_bind frames_load. intros x ? ->.
  fr_bind frames_alloc. intros b ? [Hb ->].
  by fr_ret.
Qed.

Lemma frames_np_astype l P a d :
  buf a ≠ l → frames l P (λ r evs, buf r ≠ l ∧ evs = []) (np_astype a d).
Proof.
  intros Ha. unfold np_astype. case_decide; [by fr_ret|].
  fr_bind frames_load. intros x ? ->.
  fr_bind frames_alloc. intros b ? [Hb ->].
  by fr_ret.
Qed.

Lemma frames_np_conj l P a :
  frames l P (λ r evs, buf r ≠ l ∧ evs = []) (np_conj a).
Proof.
  unfold np_conj.
  fr_bind frames_load. intros x ? ->.
  fr_bind frames_alloc. intros b ? [Hb ->].
  by fr_ret.
Qed.

Lemma frames_np_mul l P a b :
  frames l P (λ r evs, buf r ≠ l ∧ evs = []) (np_mul a b).
Proof.
  unfold np_mul. destruct (broadcast_shapes _ _); [|apply frames_raise].
  fr_bind frames_load. intros x ? ->.
  fr_bind frames_load. intros y ? ->.
  fr_bind frames_alloc. intros b' ? [Hb ->].
  by fr_ret.
Qed.

Lemma frames_np_fill l P a v :
  buf a ≠ l → frames l P (λ _ evs, evs = []) (np_fill a v).
Proof. intros Ha. by apply frames_store. Qed.

Lemma frames_np_setitem l P a c src :
  buf a ≠ l → frames l P (λ _ evs, evs = []) (np_setitem a c src).
Proof.
  intros Ha. unfold np_setitem.
  case_decide; [|apply frames_raise]. case_decide; [|apply frames_raise].
  fr_bind frames_load. intros x ? ->.
  fr_bind frames_load. intros y ? ->.
  by apply frames_store.
Qed.

Lemma frames_np_getitem l P a c :
  frames l P (λ r evs, buf r ≠ l ∧ evs = []) (np_getitem a c).
Proof.
  unfold np_getitem. case_decide; [|apply frames_raise].
  fr_bind frames_load. intros x ? ->.
  fr_bind frames_alloc. intros b ? [Hb ->].
  by fr_ret.
Qed.

Lemma frames_np_ifftshift l P a axes :
  P (EvIfftshift axes) →
  frames l P (λ r evs, buf r ≠ l ∧ evs = [EvIfftshift axes]) (np_ifftshift a axes).
Proof.
  intros HP. unfold np_ifftshift.
  fr_bind frames_emit; [done|]. intros _ ? ->.
  destruct (norm_axes _ _); [|apply frames_raise].
  fr_bind frames_load. intros x ? ->.
  fr_bind frames_alloc. intros b ? [Hb ->].
  by fr_ret.
Qed.

Lemma frames_fft_call l P inverse a axes overwrite_x :
  P (EvFFT inverse (buf a) overwrite_x) →
  (overwrite_x = true → buf a ≠ l) →
  frames l P (λ r evs, buf r ≠ l ∧ evs = [EvFFT inverse (buf a) overwrite_x])
    (fft_call inverse a axes overwrite_x).
Proof.
  intros HP Hw. unfold fft_call.
  fr_bind frames_emit; [done|]. intros _ ? ->.
  destruct (norm_axes _ _); [|apply frames_raise].
  fr_bind frames_load. intros x ? ->.
  fr_bind frames_alloc. intros b ? [Hb ->].
  eapply frames_bind.
  { instantiate (1 := λ _ evs, evs = []).
    destruct overwrite_x.
    - apply frames_store. by apply Hw.
    - eapply frames_weaken; [apply frames_ret|]. by intros ? ? [_ ->]. }
  simpl. intros _ ? ->. by fr_ret.
Qed.

Lemma frames_field_copy l P (f : Field C) :
  frames l P (λ r evs, buf (fdata r) ≠ l ∧ evs = []) (field_copy f).
Proof.
  unfold field_copy.
  fr_bind frames_np_copy. intros a ? [Ha ->].
  by fr_ret.
Qed.

Lemma frames_grid_zeros l P (g : Grid C) ts d :
  P (EvZeros g ts d) →
  frames l P (λ r evs, buf (fdata r) ≠ l ∧ evs = [EvZeros g ts d]) (grid_zeros g ts d).
Proof.
  intros HP. unfold grid_zeros.
  fr_bind frames_emit; [done|]. intros _ ? ->.
  fr_bind frames_alloc. intros b ? [Hb ->].
  by fr_ret.
Qed.

Lemma frames_call_generator l P gen (g : Grid C) :
  P (EvGenerator g) →
  frames l P (λ r evs, buf (fdata r) ≠ l ∧ evs = [EvGenerator g]) (call_generator gen g).
Proof.
  intros HP. unfold call_generator.
  fr_bind frames_emit; [done|]. intros _ ? ->.
  fr_bind frames_alloc. intros b ? [Hb ->].
  by fr_ret.
Qed.

Lemma frames_field_conjugate_transpose l P (a : Field C) :
  frames l P (λ r evs, buf (fdata r) ≠ l ∧ evs = []) (field_conjugate_transpose a).
Proof.
  unfold field_conjugate_transpose.
  destruct (shape (fdata a)) as [|m [|n [|N [|]]]]; try apply frames_raise.
  fr_bind frames_load. intros x ? ->.
  fr_bind frames_alloc. intros b ? [Hb ->].
  by fr_ret.
Qed.

Lemma frames_field_dot l P (a b : Field C) :
  frames l P (λ r evs, buf (fdata r) ≠ l ∧ evs = []) (field_dot a b).
Proof.
  unfold field_dot.
  destruct (shape (fdata a)) as [|m [|n [|N [|]]]]; try apply frames_raise.
  destruct (shape (fdata b)) as [|n' [|N' [|]]]; try apply frames_raise.
  case_decide; [|apply frames_raise].
  fr_bind frames_load. intros x ? ->.
  fr_bind frames_load. intros y ? ->.
  fr_bind frames_alloc. intros b' ? [Hb ->].
  by fr_ret.
Qed.


Lemma frames_refresh_transfer_function l P (self : FourierFilter C) field :
  (∀ e, is_fft_event e = false → P e) →
  frames l P (λ self' evs, same_config self self'
                           ∧ internal_array self' = internal_array self
                           ∧ filter is_fft_event evs = [])
    (refresh_transfer_function self field).
Proof.
  intros HP. unfold refresh_transfer_function.
  destruct (cache_stale self field); [|by fr_ret].
  eapply frames_bind.
  { instantiate (1 := λ r evs, buf (fdata r) ≠ l ∧ filter is_fft_event evs = []).
    destruct (transfer_function self) as [gen|f].
    - eapply frames_weaken; [apply frames_call_generator; by apply HP|].
      by intros ? ? [? ->].
    - eapply frames_weaken; [apply frames_field_copy|]. by intros ? ? [? ->]. }
  simpl. intros tf evs [Htf Hevs].
  fr_bind frames_shaped. intros a ? [Ha ->].
  fr_bind frames_np_ifftshift; [by apply HP|]. intros a' ? [Ha' ->].
  fr_bind frames_np_astype; [done|]. intros a'' ? [Ha'' ->].
  fr_ret. rewrite filter_app, Hevs. by repeat split.
Qed.

Lemma frames_refresh_internal_array l P (self : FourierFilter C) field :
  (∀ e, is_fft_event e = false → P e) →
  (∀ a, internal_array self = Some a → buf a ≠ l) →
  frames l P (λ self' evs, same_config self self'
                           ∧ _transfer_function self' = _transfer_function self
                           ∧ (∀ a, internal_array self' = Some a → buf a ≠ l)
                           ∧ filter is_fft_event evs = [])
    (refresh_internal_array self field).
Proof.
  intros HP Hia. unfold refresh_internal_array.
  destruct (recompute_internal_array self field); [|by fr_ret].
  fr_bind frames_grid_zeros; [by apply HP|]. intros z ? [Hz ->].
  fr_bind frames_shaped. intros a ? [Ha ->].
  fr_ret. repeat split; try done. intros a' [= <-]. congruence.
Qed.

Lemma frames_compute_functions l P (self : FourierFilter C) field :
  (∀ e, is_fft_event e = false → P e) →
  (∀ a, internal_array self = Some a → buf a ≠ l) →
  frames l P (λ self' evs, same_config self self'
                           ∧ (∀ a, internal_array self' = Some a → buf a ≠ l)
                           ∧ filter is_fft_event evs = [])
    (_compute_functions self field).
Proof.
  intros HP Hia. unfold _compute_functions.
  fr_bind frames_refresh_transfer_function; [done|].
  intros self' evs ((Hi & Hg & Hc & Ht) & Hia' & Hevs).
  eapply frames_weaken.
  { apply frames_refresh_internal_array; [done|]. by rewrite Hia'. }
  simpl. intros self'' evs' ((Hi' & Hg' & Hc' & Ht') & _ & Hia'' & Hevs').
  rewrite filter_app, Hevs, Hevs'.
  split; [unfold same_config; repeat split; congruence|]. by split.
Qed.

Lemma frames_apply_transfer_function l P (self : FourierFilter C) tfc f adjoint :
  frames l P (λ r evs, buf r ≠ l ∧ evs = [])
    (apply_transfer_function self tfc f adjoint).
Proof.
  unfold apply_transfer_function. destruct (is_matrix_field self tfc).
  - fr_bind frames_np_reshape. intros fr ? [_ ->].
    fr_bind frames_np_reshape. intros tr ? [_ ->].
    eapply frames_bind.
    { instantiate (1 := λ _ evs, evs = []). destruct adjoint.
      - eapply frames_weaken; [apply frames_field_conjugate_transpose|].
        by intros ? ? [_ ->].
      - eapply frames_weaken; [apply frames_ret|]. by intros ? ? [_ ->]. }
    simpl. intros tf ? ->.
    fr_bind frames_field_dot. intros d ? [Hd ->].
    eapply frames_weaken; [apply frames_shaped|].
    simpl. intros r ? [Hr ->]. split; [congruence|done].
  - eapply frames_bind.
    { instantiate (1 := λ _ evs, evs = []). destruct adjoint.
      - eapply frames_weaken; [apply frames_np_conj|]. by intros ? ? [_ ->].
      - eapply frames_weaken; [apply frames_ret|]. by intros ? ? [_ ->]. }
    simpl. intros tf ? ->. apply frames_np_mul.
Qed.


Lemma overwrite_policy_other (self : FourierFilter C) l e :
  is_fft_event e = false → overwrite_policy self l e.
Proof. by destruct e. Qed.

Lemma frames_operation (self : FourierFilter C) (field : Field C) adjoint :
  let l := buf (fdata field) in
  (∀ a, internal_array self = Some a → buf a ≠ l) →
  frames l (overwrite_policy self l)
    (λ _ evs, ∃ b1 b2,
       filter is_fft_event evs
       = [EvFFT false b1 (bool_decide (cutout self ≠ None)); EvFFT true b2 true]
       ∧ (cutout self = None → b1 = l))
    (_operation self field adjoint).
Proof.
  intros l Hia. unfold _operation.
  fr_bind frames_compute_functions; [apply overwrite_policy_other|done|].
  intros self' evs ((Hi & Hg & Hc & Ht) & Hia' & Hevs).
  fr_bind frames_lift_option. intros tfc ? [Htfc ->].
  eapply frames_bind.
  { instantiate (1 := λ fc evs', evs' = []
                        ∧ (cutout self = None → buf fc.1 = l)
                        ∧ (cutout self ≠ None → buf fc.1 ≠ l)).
    rewrite Hc. destruct (cutout self) as [cut|].
    - fr_bind frames_lift_option. intros f ? [Hf ->].
      fr_bind frames_np_fill; [by apply Hia'|]. intros _ ? ->.
      fr_bind frames_shaped. intros x ? [Hx ->].
      fr_bind frames_np_setitem; [by apply Hia'|]. intros _ ? ->.
      fr_ret. split; [done|]. split; [done|]. intros _. by apply Hia'.
    - fr_bind frames_shaped. intros f ? [Hf ->].
      fr_ret. by repeat split. }
  simpl. intros [f c] ? (-> & Hnone & Hsome). simpl in Hnone, Hsome.
  unfold fftn, ifftn.
  fr_bind frames_fft_call.
  { simpl. rewrite Hc. split; [done|]. intros Hb. apply Hsome.
    by apply bool_decide_eq_true in Hb. }
  { rewrite Hc. intros Hb. apply Hsome. by apply bool_decide_eq_true in Hb. }
  intros f1 ? [Hf1 ->].
  fr_bind frames_apply_transfer_function. intros f2 ? [Hf2 ->].
  fr_bind frames_fft_call; [done|done|]. intros f3 ? [Hf3 ->].
  eapply frames_bind.
  { instantiate (1 := λ _ evs', evs' = []).
    destruct (cutout self').
    - fr_bind frames_np_getitem. intros g ? [_ ->].
      eapply frames_weaken; [apply frames_np_reshape|]. by intros ? ? [_ ->].
    - eapply frames_weaken; [apply frames_np_reshape|]. by intros ? ? [_ ->]. }
  simpl. intros res ? ->. fr_ret.
  exists (buf f), (buf f2). rewrite ?app_nil_r, !filter_app, Hevs, Hc. simpl.
  split; [done|]. done.
Qed.

(** C4: [forward] and [backward] never write the caller's field, whatever
    their outcome.  The forward transform is called with [overwrite_x]
    set exactly when the input was copied into the scratch buffer (so with
    [overwrite_x] false when there is no cutout, where the transformed
    buffer is the caller's), the inverse transform always with
    [overwrite_x] true, and no transform is allowed to overwrite the
    caller's buffer.  A call that returns has made exactly these two
    transforms. *)
Theorem operation_preserves_input
    (self : FourierFilter C) (field : Field C) (adjoint : bool) (σ : pystate) :
  buf (fdata field) < length (heap σ) →
  (∀ a, internal_array self = Some a → buf a ≠ buf (fdata field)) →
  let r := _operation self field adjoint σ in
  heap r.2 !! buf (fdata field) = heap σ !! buf (fdata field)
  ∧ Forall (overwrite_policy self (buf (fdata field))) (new_events σ r.2)
  ∧ (∀ res, r.1 = Return res →
       ∃ b1 b2,
         filter is_fft_event (new_events σ r.2)
         = [EvFFT false b1 (bool_decide (cutout self ≠ None)); EvFFT true b2 true]
         ∧ (cutout self = None → b1 = buf (fdata field))).
Proof.
  intros Hl Hia r.
  destruct (frames_operation self field adjoint Hia σ r.1 r.2 Hl)
    as (_ & Hh & evs & Ht & HP & HQ); [apply surjective_pairing|].
  unfold new_events. rewrite Ht, drop_app_length. by repeat split.
Qed.

End Frames.

(** ** Running the array operations *)

Section Runs.
Context {C : Type} `{!Scalar C, !FFTBackend C}.

#[local] Abbreviation M := (@M C).

Lemma np_reshape_run (a : ndarray) spec sh (σ : @pystate C) :
  resolve_shape (prod_list (shape a)) spec = Some sh →
  np_reshape a spec σ = (Return (NDArray sh (adtype a) (buf a)), σ).
Proof. intros H. unfold np_reshape. by rewrite H. Qed.

Lemma np_conj_run (a : ndarray) x (σ : @pystate C) :
  heap σ !! buf a = Some x →
  np_conj a σ
  = (Return (NDArray (shape a) (adtype a) (length (heap σ))),
     PyState (heap σ ++ [c_conj <$> x]) (trace σ)).
Proof. intros H. unfold np_conj, bind, load, alloc, ret. by rewrite H. Qed.

Lemma np_mul_run (a b : ndarray) x y sh (σ : @pystate C) :
  heap σ !! buf a = Some x → heap σ !! buf b = Some y →
  broadcast_shapes (shape a) (shape b) = Some sh →
  np_mul a b σ
  = (Return (NDArray sh (result_type (adtype a) (adtype b)) (length (heap σ))),
     PyState (heap σ ++ [mul_data sh (shape a) (shape b) x y]) (trace σ)).
Proof.
  intros Hx Hy Hsh. unfold np_mul. rewrite Hsh.
  unfold bind, load, alloc, ret. by rewrite Hx, Hy.
Qed.

Lemma fft_call_run inverse (a : ndarray) axes ax overwrite_x x (σ : @pystate C) :
  heap σ !! buf a = Some x → norm_axes (ndim a) axes = Some ax →
  fft_call inverse a axes overwrite_x σ
  = (Return (NDArray (shape a) (fft_dtype (adtype a)) (length (heap σ))),
     PyState (if overwrite_x
              then <[buf a := fft_scratch inverse (shape a) ax x]>
                     (heap σ ++ [fft_data inverse (shape a) ax x])
              else heap σ ++ [fft_data inverse (shape a) ax x])
       (trace σ ++ [EvFFT inverse (buf a) overwrite_x])).
Proof.
  intros Hx Hax. unfold fft_call. rewrite Hax.
  unfold bind, emit, load, alloc, store, ret. simpl. rewrite Hx. simpl.
  by destruct overwrite_x.
Qed.

Lemma field_conjugate_transpose_run (a : Field C) m n N x (σ : @pystate C) :
  shape (fdata a) = [m; n; N] → heap σ !! buf (fdata a) = Some x →
  field_conjugate_transpose a σ
  = (Return (MkField (NDArray [n; m; N] (adtype (fdata a)) (length (heap σ))) (grid a)),
     PyState (heap σ ++ [conj_transpose_data m n N x]) (trace σ)).
Proof.
  intros Hs Hx. unfold field_conjugate_transpose. rewrite Hs.
  unfold bind, load, alloc, ret. by rewrite Hx.
Qed.

Lemma field_dot_run (a b : Field C) m n N x y (σ : @pystate C) :
  shape (fdata a) = [m; n; N] → shape (fdata b) = [n; N] →
  heap σ !! buf (fdata a) = Some x → heap σ !! buf (fdata b) = Some y →
  field_dot a b σ
  = (Return (MkField (NDArray [m; N] (result_type (adtype (fdata a)) (adtype (fdata b)))
                        (length (heap σ))) (grid b)),
     PyState (heap σ ++ [matvec_data m n N x y]) (trace σ)).
Proof.
  intros Ha Hb Hx Hy. unfold field_dot. rewrite Ha, Hb.
  rewrite decide_True by done.
  unfold bind, load, alloc, ret. by rewrite Hx, Hy.
Qed.

Lemma py_take_to_grid (ts : list nat) (g : Grid C) :
  wf_grid g → py_take_to (- Z.of_nat (g_ndim g)) (ts ++ g_shape g) = ts.
Proof.
  intros (Hpos & Hlen & _). rewrite <- Hlen. apply py_take_to_neg_app. lia.
Qed.

Lemma is_matrix_field_iff (self : FourierFilter C) (tfc : ndarray) :
  is_matrix_field self tfc = true ↔ ndim tfc = g_ndim (internal_grid self) + 2.
Proof. unfold is_matrix_field. rewrite bool_decide_eq_true. lia. Qed.

(** C3: the transfer function is applied as a matrix field exactly when
    its cached array has two more axes than the internal grid.  Then the
    result holds, at every point of the grid, the product of the matrix
    with the vector of the transformed field, where the adjoint takes
    the conjugate transpose of the matrix.  Otherwise the result is the
    elementwise (broadcast) product with the cached samples, where the
    adjoint takes their complex conjugates. *)
Theorem apply_transfer_function_cases
    (self : FourierFilter C) (tfc f : ndarray) (adjoint : bool) (σ : @pystate C)
    (T F : list C) :
  wf_grid (internal_grid self) →
  heap σ !! buf tfc = Some T → heap σ !! buf f = Some F →
  let g := internal_grid self in
  (∀ m n, shape tfc = [m; n] ++ g_shape g →
          shape f = [if adjoint then m else n] ++ g_shape g →
     ndim tfc = g_ndim g + 2
     ∧ ∃ r σ',
         apply_transfer_function self tfc f adjoint σ = (Return r, σ')
         ∧ shape r = [if adjoint then n else m] ++ g_shape g
         ∧ heap σ' !! buf r
           = Some (if adjoint
                   then matvec_data n m (g_size g) (conj_transpose_data m n (g_size g) T) F
                   else matvec_data m n (g_size g) T F))
  ∧ (ndim tfc ≠ g_ndim g + 2 →
     ∀ sh, broadcast_shapes (shape f) (shape tfc) = Some sh →
     ∃ r σ',
       apply_transfer_function self tfc f adjoint σ = (Return r, σ')
       ∧ shape r = sh
       ∧ heap σ' !! buf r
         = Some (mul_data sh (shape f) (shape tfc) F
                   (if adjoint then c_conj <$> T else T))).
Proof.
  intros Hg HT HF g. subst g. pose proof Hg as (Hpos & Hlen & Hprod). split.
  - intros m n Htfc Hf.
    assert (ndim tfc = g_ndim (internal_grid self) + 2) as Hnd.
    { unfold ndim. rewrite Htfc, length_app, Hlen. simpl. lia. }
    split; [done|].
    unfold apply_transfer_function. rewrite (proj2 (is_matrix_field_iff _ _) Hnd).
    rewrite Hf, Htfc, !py_take_to_grid by done.
    erewrite bind_run; last first.
    { apply np_reshape_run. rewrite Hf.
      apply (resolve_shape_exact _ [_; g_size (internal_grid self)]).
      rewrite prod_list_app, Hprod. simpl. lia. }
    erewrite bind_run; last first.
    { apply np_reshape_run. rewrite Htfc.
      apply (resolve_shape_exact _ [m; n; g_size (internal_grid self)]).
      rewrite prod_list_app, Hprod. simpl. lia. }
    destruct adjoint.
    + erewrite bind_run; last first.
      { by apply field_conjugate_transpose_run. }
      erewrite bind_run; last first.
      { apply field_dot_run; simpl; try done.
        - by rewrite lookup_snoc_here.
        - rewrite lookup_app_l; [done|]. by eapply lookup_lt_Some. }
      rewrite shaped_run; [|done|done].
      eexists _, _. split; [done|]. simpl. split; [done|].
      rewrite length_app. simpl.
      replace (length (heap σ) + 1) with (length (heap σ ++ [conj_transpose_data m n (g_size (internal_grid self)) T]))
        by (rewrite length_app; simpl; lia).
      by rewrite lookup_snoc_here.
    + erewrite bind_run; [|done].
      erewrite bind_run; last first.
      { by apply field_dot_run. }
      rewrite shaped_run; [|done|done].
      eexists _, _. split; [done|]. simpl. split; [done|].
      by rewrite lookup_snoc_here.
  - intros Hnd sh Hsh.
    unfold apply_transfer_function.
    assert (is_matrix_field self tfc = false) as ->.
    { apply not_true_is_false. by rewrite is_matrix_field_iff. }
    destruct adjoint.
    + erewrite bind_run; [|by apply np_conj_run].
      erewrite np_mul_run; [| |by apply lookup_snoc_here|done].
      2:{ simpl. rewrite lookup_app_l; [done|]. by eapply lookup_lt_Some. }
      eexists _, _. split; [done|]. simpl. split; [done|].
      rewrite length_app. simpl.
      replace (length (heap σ) + 1) with (length (heap σ ++ [c_conj <$> T]))
        by (rewrite length_app; simpl; lia).
      by rewrite lookup_snoc_here.
    + erewrite bind_run; [|done].
      erewrite np_mul_run; [|done..].
      eexists _, _. split; [done|]. simpl. split; [done|].
      by rewrite lookup_snoc_here.
Qed.

End Runs.

(** ** Running [_operation] with a scalar transfer function *)

Section Operation.
Context {C : Type} `{!Scalar C, !FFTBackend C}.

#[local] Abbreviation M := (@M C).

Lemma broadcast_rev_suffix (a b : list nat) : broadcast_rev (a ++ b) a = Some (a ++ b).
Proof.
  induction a as [|n a IH]; simpl.
  - by destruct b.
  - rewrite IH. simpl. by rewrite decide_True.
Qed.

Lemma broadcast_shapes_suffix (ts gs : list nat) :
  broadcast_shapes (ts ++ gs) gs = Some (ts ++ gs).
Proof.
  unfold broadcast_shapes. rewrite reverse_app, broadcast_rev_suffix. simpl.
  by rewrite <- reverse_app, reverse_involutive.
Qed.

Lemma broadcast_shapes_refl (sh : list nat) : broadcast_shapes sh sh = Some sh.
Proof. apply (broadcast_shapes_suffix [] sh). Qed.

Lemma lookup_snoc_old {A} (h : list A) (x y : A) l :
  h !! l = Some y → (h ++ [x]) !! l = Some y.
Proof. intros H. rewrite lookup_app_l; [done|]. by eapply lookup_lt_Some. Qed.

Lemma lookup_snoc_at {A} (h : list A) (x : A) l :
  l = length h → (h ++ [x]) !! l = Some x.
Proof. intros ->. apply lookup_snoc_here. Qed.

Ltac len_simpl := repeat first [rewrite length_app | rewrite length_insert]; simpl.

Lemma operation_tail_unpadded
    (self self' : FourierFilter C) (field : Field C) adjoint (σ σ1 : @pystate C)
    (tfc : ndarray) (T F : list C) :
  _compute_functions self field σ = (Return self', σ1) →
  cutout self' = None →
  wf_grid (grid field) → wf_flat (shape (fdata field)) (grid field) →
  wf_grid (internal_grid self') →
  g_ndim (input_grid self') = g_ndim (grid field) →
  g_ndim (internal_grid self') = g_ndim (grid field) →
  _transfer_function self' = Some tfc →
  shape tfc = g_shape (grid field) →
  heap σ1 !! buf tfc = Some T →
  heap σ1 !! buf (fdata field) = Some F →
  ∃ res σ',
    _operation self field adjoint σ = (Return (MkField res (input_grid self'), self'), σ')
    ∧ shape res = tensor_shape field ++ [g_size (grid field)]
    ∧ adtype res = fft_dtype (result_type (fft_dtype (fdtype field)) (adtype tfc))
    ∧ length (heap σ1) < length (heap σ')
    ∧ length (heap σ1) ≤ buf res
    ∧ (∀ l y, l < length (heap σ1) → heap σ1 !! l = Some y → heap σ' !! l = Some y)
    ∧ heap σ' !! buf res
      = Some (filtered_samples (tensor_shape field ++ g_shape (grid field))
                (g_ndim (grid field)) (g_shape (grid field)) adjoint T F).
Proof.
  intros Hcf Hcut Hg [Hlast Hts] Hgi Hndi Hndg Htfc Hshape HT HF.
  pose proof Hg as (Hpos & Hlen & Hprod).
  unfold _operation. rewrite (bind_run _ _ _ _ _ Hcf).
  rewrite Htfc. simpl. erewrite bind_run; [|done].
  rewrite Hcut.
  erewrite bind_run; last first.
  { erewrite bind_run; [|by apply shaped_run]. done. }
  simpl.
  set (sh := tensor_shape field ++ g_shape (grid field)).
  set (ax := seq (length sh - g_ndim (grid field)) (g_ndim (grid field))).
  assert (norm_axes (length sh) (grid_axes self') = Some ax) as Hax.
  { unfold grid_axes. rewrite Hndi. apply norm_axes_range.
    unfold sh. rewrite length_app. lia. }
  erewrite bind_run; last first.
  { unfold fftn. by eapply fft_call_run. }
  simpl.
  set (X1 := fft_data false sh ax F).
  assert (is_matrix_field self' tfc = false) as Hmat.
  { apply not_true_is_false. rewrite is_matrix_field_iff.
    unfold ndim. rewrite Hshape, Hlen. lia. }
  unfold apply_transfer_function. rewrite Hmat.
  assert (broadcast_shapes sh (shape tfc) = Some sh) as Hb.
  { rewrite Hshape. apply broadcast_shapes_suffix. }
  assert (resolve_shape (prod_list sh)
            ((Z.of_nat <$> py_take_to (- Z.of_nat (g_ndim (internal_grid self'))) sh)
               ++ [(-1)%Z])
          = Some (tensor_shape field ++ [g_size (grid field)])) as Hres.
  { rewrite Hndg. unfold sh. rewrite py_take_to_grid by done.
    rewrite prod_list_app, Hprod. by apply resolve_shape_infer. }
  destruct adjoint.
  - erewrite bind_run; last first.
    { erewrite bind_run; last first.
      { apply np_conj_run. simpl. by apply lookup_snoc_old. }
      apply np_mul_run; simpl; [|by apply lookup_snoc_here|done].
      apply lookup_snoc_old, lookup_snoc_here. }
    simpl.
    erewrite bind_run; last first.
    { unfold ifftn. eapply fft_call_run; simpl; [|done].
      by rewrite lookup_snoc_here. }
    simpl.
    erewrite bind_run; last first.
    { apply np_reshape_run. simpl. done. }
    eexists _, _. split; [done|]. simpl.
    split; [done|]. split; [done|].
    rewrite length_insert, !length_app. simpl. split; [lia|]. split; [lia|]. split.
    + intros l y Hl Hy.
      rewrite list_lookup_insert_ne by lia.
      by do 4 apply lookup_snoc_old.
    + rewrite list_lookup_insert_ne by lia.
      rewrite lookup_snoc_at by (rewrite ?length_app; simpl; lia).
      unfold filtered_samples. by rewrite Hshape.
  - erewrite bind_run; last first.
    { erewrite bind_run; [|done].
      apply np_mul_run; simpl; [by rewrite lookup_snoc_here| |done].
      by apply lookup_snoc_old. }
    simpl.
    erewrite bind_run; last first.
    { unfold ifftn. eapply fft_call_run; simpl; [|done].
      by rewrite lookup_snoc_here. }
    simpl.
    erewrite bind_run; last first.
    { apply np_reshape_run. simpl. done. }
    eexists _, _. split; [done|]. simpl.
    split; [done|]. split; [done|].
    rewrite length_insert, !length_app. simpl. split; [lia|]. split; [lia|]. split.
    + intros l y Hl Hy.
      rewrite list_lookup_insert_ne by lia.
      by do 3 apply lookup_snoc_old.
    + rewrite list_lookup_insert_ne by lia.
      rewrite lookup_snoc_at by (rewrite ?length_app; simpl; lia).
      unfold filtered_samples. by rewrite Hshape.
Qed.


Lemma slices_shape_all (ts gs : list nat) (cut : list slice) :
  slices_shape (ts ++ gs) (replicate (length ts) slice_all ++ cut)
  = ts ++ slices_shape gs cut.
Proof.
  induction ts as [|n ts IH]; [done|].
  simpl. rewrite IH. by rewrite Nat.sub_0_r.
Qed.

Lemma np_fill_run (a : ndarray) v (σ : @pystate C) :
  np_fill a v σ
  = (Return (), PyState (<[buf a := replicate (prod_list (shape a)) v]> (heap σ)) (trace σ)).
Proof. done. Qed.

Lemma np_setitem_run (a src : ndarray) c x y (σ : @pystate C) :
  length c ≤ ndim a →
  broadcast_shapes (slices_shape (shape a) c) (shape src) = Some (slices_shape (shape a) c) →
  adtype src = adtype a →
  heap σ !! buf a = Some x → heap σ !! buf src = Some y →
  np_setitem a c src σ
  = (Return (),
     PyState (<[buf a := put_slices (shape a) c x
                           (broadcast_data (slices_shape (shape a) c) (shape src) y)]>
                (heap σ)) (trace σ)).
Proof.
  intros Hc Hb Hd Hx Hy. unfold np_setitem.
  rewrite decide_True by done. rewrite decide_True by done.
  unfold bind, load, store. rewrite Hx, Hy. by rewrite decide_True.
Qed.

Lemma np_getitem_run (a : ndarray) c x (σ : @pystate C) :
  length c ≤ ndim a → heap σ !! buf a = Some x →
  np_getitem a c σ
  = (Return (NDArray (slices_shape (shape a) c) (adtype a) (length (heap σ))),
     PyState (heap σ ++ [take_slices (shape a) c x]) (trace σ)).
Proof.
  intros Hc Hx. unfold np_getitem. rewrite decide_True by done.
  unfold bind, load, alloc, ret. by rewrite Hx.
Qed.

Lemma operation_tail_padded
    (self self' : FourierFilter C) (field : Field C) adjoint (σ σ1 : @pystate C)
    (tfc a : ndarray) (cut : list slice) (T F : list C) :
  _compute_functions self field σ = (Return self', σ1) →
  cutout self' = Some cut →
  wf_grid (grid field) → wf_flat (shape (fdata field)) (grid field) →
  wf_grid (internal_grid self') →
  g_ndim (input_grid self') = g_ndim (grid field) →
  g_ndim (internal_grid self') = g_ndim (grid field) →
  length cut = g_ndim (internal_grid self') →
  slices_shape (g_shape (internal_grid self')) cut = g_shape (grid field) →
  _transfer_function self' = Some tfc →
  shape tfc = g_shape (internal_grid self') →
  internal_array self' = Some a →
  shape a = tensor_shape field ++ g_shape (internal_grid self') →
  adtype a = fdtype field →
  buf a < length (heap σ1) →
  buf a ≠ buf (fdata field) → buf a ≠ buf tfc →
  heap σ1 !! buf tfc = Some T →
  heap σ1 !! buf (fdata field) = Some F →
  ∃ res σ',
    _operation self field adjoint σ = (Return (MkField res (input_grid self'), self'), σ')
    ∧ shape res = tensor_shape field ++ [g_size (grid field)]
    ∧ length (heap σ1) < length (heap σ')
    ∧ length (heap σ1) ≤ buf res
    ∧ (∀ l y, l < length (heap σ1) → l ≠ buf a →
         heap σ1 !! l = Some y → heap σ' !! l = Some y)
    ∧ heap σ' !! buf res
      = Some (padded_samples (tensor_shape field) (g_shape (internal_grid self'))
                (g_shape (grid field)) (g_ndim (grid field)) cut adjoint T F).
Proof.
  intros Hcf Hcut Hg [Hlast Hts] Hgi Hndi Hndg Hlc Hss Htfc Hshape Hia Hsa Hda Hba
    Hne1 Hne2 HT HF.
  pose proof Hg as (Hpos & Hlen & Hprod).
  pose proof Hgi as (Hposi & Hleni & Hprodi).
  assert (tensor_order field = length (tensor_shape field)) as Hto.
  { unfold tensor_order, tensor_shape, ndim. rewrite (last_split _ _ Hlast) at 1.
    rewrite length_app. simpl. lia. }
  unfold _operation. rewrite (bind_run _ _ _ _ _ Hcf).
  rewrite Htfc. simpl. erewrite bind_run; [|done].
  rewrite Hcut, Hia. simpl.
  set (ts := tensor_shape field) in *.
  set (gs := g_shape (internal_grid self')) in *.
  set (sh := ts ++ gs).
  set (c := replicate (tensor_order field) slice_all ++ cut).
  assert (slices_shape (shape a) c = ts ++ g_shape (grid field)) as Hreg.
  { unfold c. rewrite Hsa, Hto. fold ts. by rewrite slices_shape_all, Hss. }
  assert (length c ≤ ndim a) as Hclen.
  { unfold c, ndim. rewrite Hsa, !length_app, length_replicate, Hto, Hlc.
    rewrite Hleni. lia. }
  erewrite bind_run; last first.
  { erewrite bind_run; [|done].
    erewrite bind_run; [|apply np_fill_run].
    erewrite bind_run; [|by apply shaped_run].
    erewrite bind_run; last first.
    { apply np_setitem_run; simpl.
      - done.
      - rewrite Hreg. apply broadcast_shapes_refl.
      - done.
      - by apply list_lookup_insert_eq.
      - rewrite list_lookup_insert_ne by done. done. }
    done. }
  simpl. rewrite Hreg, Hsa. fold sh.
  set (ax := seq (length sh - g_ndim (grid field)) (g_ndim (grid field))).
  assert (norm_axes (length sh) (grid_axes self') = Some ax) as Hax.
  { unfold grid_axes. rewrite Hndi. apply norm_axes_range.
    unfold sh. rewrite length_app, Hleni. lia. }
  set (P := put_slices sh c (replicate (prod_list sh) c_zero)
              (broadcast_data (ts ++ g_shape (grid field)) (ts ++ g_shape (grid field)) F)).
  set (h2 := <[buf a := P]> (<[buf a := replicate (prod_list sh) c_zero]> (heap σ1))).
  assert (length h2 = length (heap σ1)) as Hlh2.
  { unfold h2. by rewrite !length_insert. }
  assert (h2 !! buf a = Some P) as Hh2a.
  { unfold h2. apply list_lookup_insert_eq. by rewrite length_insert. }
  assert (h2 !! buf tfc = Some T) as Hh2t.
  { unfold h2. by rewrite !list_lookup_insert_ne. }
  erewrite bind_run; last first.
  { unfold fftn. eapply fft_call_run; simpl; [done|]. unfold ndim. by rewrite Hsa. }
  simpl. rewrite Hsa. fold sh.
  set (X1 := fft_data false sh ax P).
  set (h3 := <[buf a := fft_scratch false sh ax P]> (h2 ++ [X1])).
  assert (length h3 = S (length h2)) as Hlh3.
  { unfold h3. rewrite length_insert, length_app. simpl. lia. }
  assert (h3 !! length h2 = Some X1) as Hh3x.
  { unfold h3. rewrite list_lookup_insert_ne by lia. apply lookup_snoc_here. }
  assert (h3 !! buf tfc = Some T) as Hh3t.
  { unfold h3. rewrite list_lookup_insert_ne by done. by apply lookup_snoc_old. }
  assert (is_matrix_field self' tfc = false) as Hmat.
  { apply not_true_is_false. rewrite is_matrix_field_iff.
    unfold ndim. rewrite Hshape, Hleni. lia. }
  unfold apply_transfer_function. rewrite Hmat.
  assert (broadcast_shapes sh (shape tfc) = Some sh) as Hb.
  { rewrite Hshape. apply broadcast_shapes_suffix. }
  assert (resolve_shape (prod_list (ts ++ g_shape (grid field)))
            ((Z.of_nat <$> py_take_to (- Z.of_nat (g_ndim (internal_grid self'))) sh)
               ++ [(-1)%Z])
          = Some (ts ++ [g_size (grid field)])) as Hres.
  { unfold sh, gs. rewrite py_take_to_grid by done.
    rewrite prod_list_app, Hprod. by apply resolve_shape_infer. }
  destruct adjoint.
  - erewrite bind_run; last first.
    { erewrite bind_run; [|by apply np_conj_run].
      apply np_mul_run; simpl; [|by apply lookup_snoc_here|done].
      by apply lookup_snoc_old. }
    simpl.
    erewrite bind_run; last first.
    { unfold ifftn. eapply fft_call_run; simpl; [|done].
      apply lookup_snoc_at. by rewrite length_app. }
    simpl.
    erewrite bind_run; last first.
    { erewrite bind_run; last first.
      { apply np_getitem_run; simpl.
        - unfold ndim in *. by rewrite Hsa in Hclen.
        - rewrite list_lookup_insert_ne by (len_simpl; lia).
          apply lookup_snoc_at. len_simpl. lia. }
      apply np_reshape_run. simpl.
      unfold c. rewrite Hto. fold ts. unfold sh. rewrite slices_shape_all, Hss. done. }
    eexists _, _. split; [done|]. simpl. split; [done|].
    split; [len_simpl; lia|]. split; [len_simpl; lia|]. split.
    { intros l y Hl Hla Hy.
      apply lookup_snoc_old. rewrite list_lookup_insert_ne by (len_simpl; lia).
      do 3 apply lookup_snoc_old. rewrite list_lookup_insert_ne by done.
      apply lookup_snoc_old. by rewrite !list_lookup_insert_ne. }
    rewrite lookup_snoc_at by (len_simpl; lia).
    unfold padded_samples, filtered_samples. subst X1 P c.
    rewrite Hto, Hshape. reflexivity.
  - erewrite bind_run; last first.
    { erewrite bind_run; [|done].
      apply np_mul_run; simpl; [exact Hh3x|exact Hh3t|done]. }
    simpl.
    erewrite bind_run; last first.
    { unfold ifftn. eapply fft_call_run; simpl; [|done].
      apply lookup_snoc_at. done. }
    simpl.
    erewrite bind_run; last first.
    { erewrite bind_run; last first.
      { apply np_getitem_run; simpl.
        - unfold ndim in *. by rewrite Hsa in Hclen.
        - rewrite list_lookup_insert_ne by (len_simpl; lia).
          apply lookup_snoc_at. len_simpl. lia. }
      apply np_reshape_run. simpl.
      unfold c. rewrite Hto. fold ts. unfold sh. rewrite slices_shape_all, Hss. done. }
    eexists _, _. split; [done|]. simpl. split; [done|].
    split; [len_simpl; lia|]. split; [len_simpl; lia|]. split.
    { intros l y Hl Hla Hy.
      apply lookup_snoc_old. rewrite list_lookup_insert_ne by (len_simpl; lia).
      do 2 apply lookup_snoc_old. rewrite list_lookup_insert_ne by done.
      apply lookup_snoc_old. by rewrite !list_lookup_insert_ne. }
    rewrite lookup_snoc_at by (len_simpl; lia).
    unfold padded_samples, filtered_samples. subst X1 P c.
    rewrite Hto, Hshape. reflexivity.
Qed.


Lemma py_take_to_single {A} (x : A) : py_take_to (-1) [x] = [].
Proof. apply (py_take_to_last [] x). Qed.

Lemma wf_source_mono (self self' : FourierFilter C) (σ σ' : @pystate C) :
  transfer_function self' = transfer_function self →
  internal_grid self' = internal_grid self →
  input_grid self' = input_grid self →
  length (heap σ) ≤ length (heap σ') →
  wf_source σ self → wf_source σ' self'.
Proof.
  unfold wf_source. intros -> -> -> Hlen.
  destruct (transfer_function self) as [gen|f]; [done|].
  intros ((? & ? & ?) & ?). split; [|done]. split; [done|]. split; [done|]. lia.
Qed.

(** The cache after [refresh_transfer_function], for a scalar transfer
    function. *)
Lemma refresh_transfer_function_ready (self : FourierFilter C) field (σ : @pystate C) :
  wf_filter σ self →
  ∃ self' h evs tfc T,
    refresh_transfer_function self field σ = (Return self', PyState h (trace σ ++ evs))
    ∧ same_config self self'
    ∧ internal_array self' = internal_array self
    ∧ (∀ l, l < length (heap σ) → h !! l = heap σ !! l)
    ∧ length (heap σ) ≤ length h
    ∧ _transfer_function self' = Some tfc
    ∧ shape tfc = g_shape (internal_grid self)
    ∧ adtype tfc = fdtype field
    ∧ h !! buf tfc = Some T
    ∧ (cache_stale self field = true → length (heap σ) ≤ buf tfc)
    ∧ (cache_stale self field = false →
         _transfer_function self = Some tfc ∧ heap σ !! buf tfc = Some T)
    ∧ (cache_stale self field = true →
       ∀ gen, transfer_function self = TFGenerator gen →
         let r := gen (internal_grid self) in
         T = cast_samples (lit_dtype r) (fdtype field)
               (shifted_samples self (lit_shape r) (lit_grid r) (lit_data r))).
Proof.
  intros (Hgin & Hgint & Hnd & Hsrc & Hsc & Hcut & Hcache & Harr & Hdist).
  destruct (refresh_transfer_function_spec self field σ Hsrc)
    as (self' & h & evs & Hrun & Hia & Hig & Hold & Hlen & Hfresh & Hstale).
  destruct (cache_stale self field) eqn:Hs.
  - destruct (Hstale eq_refl) as [Hgen Hfld].
    assert (same_config self self') as Hsame.
    { unfold refresh_transfer_function in Hrun. rewrite Hs in Hrun.
      repeat (apply bind_inv in Hrun as [(? & ? & _ & Hrun)|(? & _ & [=])]).
      injection Hrun as <- _. done. }
    unfold scalar_source in Hsc.
    destruct (transfer_function self) as [gen|f] eqn:Hsrceq.
    + destruct (Hgen gen eq_refl) as [-> (tf & Hc & Hd & Hsh & Hb & Hl)].
      destruct Hsc as [Hls Hgs].
      eexists self', h, _, tf, _. split; [done|]. split; [done|].
      split; [done|]. split; [done|]. split; [done|]. split; [done|].
      split.
      { rewrite Hsh, Hls, py_take_to_single. done. }
      split; [done|]. split; [exact Hl|]. split; [done|]. split; [done|].
      intros _ gen' [= <-]. done.
    + destruct (Hfld f eq_refl) as [-> (tf & x & Hc & Hd & Hsh & Hb & Hx & Hl)].
      destruct Hsc as [Hls Hgs].
      eexists self', h, _, tf, _. split; [done|]. split; [done|].
      split; [done|]. split; [done|]. split; [done|]. split; [done|].
      split.
      { rewrite Hsh, Hls, py_take_to_single. done. }
      split; [done|]. split; [exact Hl|]. split; [done|]. split; [done|].
      intros _ gen' [=].
  - destruct (Hfresh eq_refl) as (-> & -> & ->).
    unfold cache_stale in Hs.
    destruct (_transfer_function self) as [tf|] eqn:Htf; [|done].
    apply bool_decide_eq_false in Hs. apply dec_stable in Hs.
    destruct (Hcache tf eq_refl) as [Hsh Hb].
    destruct (lookup_lt_is_Some_2 _ _ Hb) as [T HT].
    exists self, (heap σ), [], tf, T. split; [done|].
    split; [by repeat split|]. split; [done|]. split; [done|]. split; [done|].
    split; [done|]. split; [done|]. split; [done|]. split; [done|].
    split; [done|]. split; [done|]. done.
Qed.


Lemma scalar_source_same (self self' : FourierFilter C) :
  same_config self self' → scalar_source self → scalar_source self'.
Proof. intros (_ & Hg & _ & Ht). unfold scalar_source. by rewrite Ht, Hg. Qed.

Lemma recompute_false_shape (self : FourierFilter C) (field : Field C) a ts :
  internal_array self = Some a →
  recompute_internal_array self field = false →
  wf_grid (internal_grid self) →
  g_ndim (internal_grid self) = g_ndim (grid field) →
  last (shape (fdata field)) = Some (g_size (grid field)) →
  shape a = ts ++ g_shape (internal_grid self) →
  shape a = tensor_shape field ++ g_shape (internal_grid self)
  ∧ adtype a = fdtype field.
Proof.
  intros Hia Hr (_ & Hlen & _) Hnd Hlast Hsa.
  unfold recompute_internal_array in Hr. rewrite Hia in Hr.
  apply orb_false_iff in Hr as [Hr H3]. apply orb_false_iff in Hr as [H1 H2].
  apply bool_decide_eq_false in H1, H2. apply dec_stable in H1, H2.
  apply negb_false_iff, bool_decide_eq_true in H3.
  split; [|done].
  assert (tensor_order field = length ts) as Hto.
  { unfold ndim in H1. rewrite Hsa, length_app, Hlen, Hnd in H1. lia. }
  rewrite Hsa, Hto, take_app_length in H3. by rewrite Hsa, H3.
Qed.

(** The state [_compute_functions] leaves for the rest of [_operation]. *)
Lemma compute_functions_ready (self : FourierFilter C) (field : Field C) (σ : @pystate C) :
  wf_filter σ self → wf_field σ field → grid field = input_grid self →
  (∀ a, internal_array self = Some a → buf a ≠ buf (fdata field)) →
  ∃ self' σ1 tfc T a F,
    _compute_functions self field σ = (Return self', σ1)
    ∧ same_config self self'
    ∧ wf_filter σ1 self'
    ∧ _transfer_function self' = Some tfc
    ∧ shape tfc = g_shape (internal_grid self)
    ∧ adtype tfc = fdtype field
    ∧ heap σ1 !! buf tfc = Some T
    ∧ internal_array self' = Some a
    ∧ shape a = tensor_shape field ++ g_shape (internal_grid self)
    ∧ adtype a = fdtype field
    ∧ buf a < length (heap σ1)
    ∧ buf a ≠ buf (fdata field)
    ∧ buf a ≠ buf tfc
    ∧ heap σ !! buf (fdata field) = Some F
    ∧ heap σ1 !! buf (fdata field) = Some F
    ∧ length (heap σ) ≤ length (heap σ1)
    ∧ (cache_stale self field = false →
         _transfer_function self = Some tfc ∧ heap σ !! buf tfc = Some T)
    ∧ (cache_stale self field = true →
       ∀ gen, transfer_function self = TFGenerator gen →
         let r := gen (internal_grid self) in
         T = cast_samples (lit_dtype r) (fdtype field)
               (shifted_samples self (lit_shape r) (lit_grid r) (lit_data r))).
Proof.
  intros Hwf (Hgf & [Hlast Hts] & Hbf) Hgrid Hne.
  pose proof Hwf as (Hgin & Hgint & Hnd & Hsrc & Hsc & Hcut & Hcache & Harr & Hdist).
  destruct (refresh_transfer_function_ready self field σ Hwf)
    as (selfA & h & evs & tfc & T & HrunA & Hsame & Hia & Hold & Hlen & Htfc & Hsh
        & Hdt & HT & Hnew & Hkept & Hval).
  pose proof Hsame as (HsI & HsG & HsC & HsT).
  destruct (lookup_lt_is_Some_2 _ _ Hbf) as [F HF].
  assert (buf tfc < length h) as Hbt by (by eapply lookup_lt_Some).
  assert (recompute_internal_array selfA field = recompute_internal_array self field) as Hre.
  { unfold recompute_internal_array. by rewrite Hia. }
  unfold _compute_functions. rewrite (bind_run _ _ _ _ _ HrunA).
  destruct (recompute_internal_array self field) eqn:Hr.
  - rewrite refresh_internal_array_alloc by (rewrite ?HsG; done).
    eexists _, _, tfc, T, _, F. split; [done|]. simpl.
    split; [done|]. split.
    { unfold wf_filter. simpl. rewrite HsI, HsG, HsC.
      split; [done|]. split; [done|]. split; [done|]. split.
      { eapply (wf_source_mono self); [done..| |done]. simpl. rewrite length_app. lia. }
      split; [by apply (scalar_source_same self)|]. split; [done|]. split.
      { intros tf Heq. rewrite Htfc in Heq. injection Heq as <-. split; [done|].
        rewrite length_app. lia. }
      split.
      { intros a [= <-]. simpl. split; [eauto|]. rewrite length_app. simpl. lia. }
      intros tf a Heq [= <-]. rewrite Htfc in Heq. injection Heq as <-. simpl. lia. }
    split; [done|]. split; [done|]. split; [done|].
    split; [by apply lookup_snoc_old|]. split; [done|].
    split; [by rewrite HsG|]. split; [done|].
    split; [rewrite length_app; simpl; lia|]. split; [simpl; lia|]. split; [simpl; lia|].
    split; [done|]. split.
    { apply lookup_snoc_old. by rewrite Hold. }
    split; [rewrite length_app; lia|]. split; [done|]. done.
  - rewrite refresh_internal_array_keep by done.
    destruct (internal_array self) as [a|] eqn:Hiaeq;
      [|unfold recompute_internal_array in Hr; by rewrite Hiaeq in Hr].
    destruct (Harr a eq_refl) as [[ts Hsa] Hba].
    destruct (recompute_false_shape self field a ts Hiaeq Hr Hgint) as [Hsa' Hda];
      [by rewrite Hnd, Hgrid|done|done|].
    assert (buf a ≠ buf tfc) as Hat.
    { destruct (cache_stale self field) eqn:Hs.
      - specialize (Hnew eq_refl). lia.
      - intros Heq. destruct (Hkept eq_refl) as [Hk _]. by eapply (Hdist tfc a). }
    eexists _, _, tfc, T, a, F. split; [done|]. simpl.
    split; [done|]. split.
    { unfold wf_filter. simpl. rewrite HsI, HsG, HsC.
      split; [done|]. split; [done|]. split; [done|]. split.
      { by eapply (wf_source_mono self). }
      split; [by apply (scalar_source_same self)|]. split; [done|]. split.
      { intros tf Heq. rewrite Htfc in Heq. by injection Heq as <-. }
      split.
      { intros a' Heq. rewrite Hia in Heq. injection Heq as <-. split; [eauto|lia]. }
      intros tf a' Heq Heq'. rewrite Htfc in Heq. rewrite Hia in Heq'.
      injection Heq as <-. injection Heq' as <-. done. }
    split; [done|]. split; [done|]. split; [done|]. split; [done|].
    split; [done|]. split; [done|]. split; [done|]. split; [lia|].
    split; [by apply Hne|]. split; [done|]. split; [done|].
    split; [by rewrite Hold|]. split; [done|]. done.
Qed.


Lemma wf_filter_mono (self : FourierFilter C) (σ σ' : @pystate C) :
  length (heap σ) ≤ length (heap σ') → wf_filter σ self → wf_filter σ' self.
Proof.
  intros Hlen (Hgin & Hgint & Hnd & Hsrc & Hsc & Hcut & Hcache & Harr & Hdist).
  unfold wf_filter. split; [done|]. split; [done|]. split; [done|].
  split; [by eapply (wf_source_mono self)|]. split; [done|]. split; [done|].
  split.
  { intros tf Htf. destruct (Hcache tf Htf). split; [done|lia]. }
  split; [|done].
  intros a Ha. destruct (Harr a Ha). split; [done|lia].
Qed.

(** [_operation] on well-formed input, for a scalar transfer function. *)
Lemma operation_run (self : FourierFilter C) (field : Field C) adjoint (σ : @pystate C) :
  wf_filter σ self → wf_field σ field → grid field = input_grid self →
  (∀ a, internal_array self = Some a → buf a ≠ buf (fdata field)) →
  ∃ res self' σ' tfc T F,
    _operation self field adjoint σ = (Return (MkField res (input_grid self), self'), σ')
    ∧ same_config self self'
    ∧ wf_filter σ' self'
    ∧ shape res = tensor_shape field ++ [g_size (input_grid self)]
    ∧ (cutout self = None →
         adtype res = fft_dtype (result_type (fft_dtype (fdtype field)) (fdtype field)))
    ∧ length (heap σ) ≤ buf res
    ∧ (∀ a, internal_array self' = Some a → buf a ≠ buf res)
    ∧ _transfer_function self' = Some tfc
    ∧ adtype tfc = fdtype field
    ∧ heap σ' !! buf tfc = Some T
    ∧ heap σ !! buf (fdata field) = Some F
    ∧ heap σ' !! buf res = Some (result_samples self field adjoint T F)
    ∧ (cache_stale self field = false →
         _transfer_function self = Some tfc ∧ heap σ !! buf tfc = Some T)
    ∧ (cache_stale self field = true →
       ∀ gen, transfer_function self = TFGenerator gen →
         let r := gen (internal_grid self) in
         T = cast_samples (lit_dtype r) (fdtype field)
               (shifted_samples self (lit_shape r) (lit_grid r) (lit_data r))).
Proof.
  intros Hwf Hwff Hgrid Hne.
  destruct (compute_functions_ready self field σ Hwf Hwff Hgrid Hne)
    as (self' & σ1 & tfc & T & a & F & Hcf & Hsame & Hwf1 & Htfc & Hsh & Hdt & HT
        & Hia & Hsa & Hda & Hba & Haf & Hat & HF & HF1 & Hlen & Hkept & Hval).
  pose proof Hsame as (HsI & HsG & HsC & HsT).
  pose proof Hwf as (Hgin & Hgint & Hnd & _ & _ & Hcut & Hcache & _).
  pose proof Hwff as (Hgf & Hflat & Hbf).
  pose proof Hwf1 as (_ & _ & _ & _ & _ & _ & _ & Harr1 & _).
  assert (∀ a', internal_array self' = Some a' → buf a' < length (heap σ1)) as Harrlt.
  { intros a' Ha'. by destruct (Harr1 a' Ha'). }
  assert (wf_grid (internal_grid self')) as H1 by (by rewrite HsG).
  assert (g_ndim (input_grid self') = g_ndim (grid field)) as H2 by (by rewrite HsI, Hgrid).
  assert (g_ndim (internal_grid self') = g_ndim (grid field)) as H3
    by (by rewrite HsG, Hnd, Hgrid).
  unfold result_samples.
  destruct (cutout self) as [cut|] eqn:Hc.
  - destruct Hcut as [Hlc Hss].
    assert (cutout self' = Some cut) as H4 by congruence.
    assert (length cut = g_ndim (internal_grid self')) as H5 by (by rewrite HsG).
    assert (slices_shape (g_shape (internal_grid self')) cut = g_shape (grid field)) as H6
      by (by rewrite HsG, Hgrid).
    assert (shape tfc = g_shape (internal_grid self')) as H7 by (by rewrite HsG).
    assert (shape a = tensor_shape field ++ g_shape (internal_grid self')) as H8
      by (by rewrite HsG).
    destruct (operation_tail_padded self self' field adjoint σ σ1 tfc a cut T F
                Hcf H4 Hgf Hflat H1 H2 H3 H5 H6 Htfc H7 Hia H8 Hda Hba Haf Hat HT HF1)
      as (res & σ' & Hrun & Hres & Hlt & Hfresh & Hold & Hdata).
    exists res, self', σ', tfc, T, F. rewrite HsI, HsG, Hgrid in *.
    split; [done|]. split; [done|]. split; [eapply wf_filter_mono; [|done]; lia|].
    split; [done|]. split; [done|]. split; [lia|]. split.
    { intros a' Ha'. specialize (Harrlt a' Ha'). lia. }
    split; [done|]. split; [done|]. split.
    { apply Hold; [by eapply lookup_lt_Some|done|done]. }
    split; [done|]. split; [done|]. split; [done|]. done.
  - assert (cutout self' = None) as H4 by congruence.
    assert (shape tfc = g_shape (grid field)) as H7 by (by rewrite Hsh, Hcut, Hgrid).
    destruct (operation_tail_unpadded self self' field adjoint σ σ1 tfc T F
                Hcf H4 Hgf Hflat H1 H2 H3 Htfc H7 HT HF1)
      as (res & σ' & Hrun & Hres & Hdres & Hlt & Hfresh & Hold & Hdata).
    exists res, self', σ', tfc, T, F. rewrite HsI, Hgrid in *.
    split; [done|]. split; [done|]. split; [eapply wf_filter_mono; [|done]; lia|].
    split; [done|]. split; [by rewrite Hdres, Hdt|]. split; [lia|]. split.
    { intros a' Ha'. specialize (Harrlt a' Ha'). lia. }
    split; [done|]. split; [done|]. split.
    { apply Hold; [by eapply lookup_lt_Some|done]. }
    split; [done|]. split; [done|]. split; [done|]. done.
Qed.


(** C5: on well-formed input and with a scalar transfer function,
    [forward] and [backward] return a field on the filter's input grid,
    never on the internal padded grid.  Its samples have the tensor
    shape of the input field and one axis of the size of the input grid;
    with padding they are the cutout of the filtered padded array, without
    padding the filtered array itself. *)
Theorem operation_result
    (self : FourierFilter C) (field : Field C) (adjoint : bool) (σ : @pystate C) :
  wf_filter σ self → wf_field σ field → grid field = input_grid self →
  (∀ a, internal_array self = Some a → buf a ≠ buf (fdata field)) →
  ∃ res self' σ',
    _operation self field adjoint σ = (Return (res, self'), σ')
    ∧ grid res = input_grid self
    ∧ shape (fdata res) = tensor_shape field ++ [g_size (input_grid self)]
    ∧ tensor_shape res = tensor_shape field
    ∧ ∃ tfc T F,
        _transfer_function self' = Some tfc
        ∧ heap σ' !! buf tfc = Some T
        ∧ heap σ !! buf (fdata field) = Some F
        ∧ heap σ' !! buf (fdata res) = Some (result_samples self field adjoint T F).
Proof.
  intros Hwf Hwff Hgrid Hne.
  destruct (operation_run self field adjoint σ Hwf Hwff Hgrid Hne)
    as (res & self' & σ' & tfc & T & F & Hrun & _ & _ & Hsh & _ & _ & _ & Htfc & _
        & HT & HF & Hdata & _).
  exists (MkField res (input_grid self)), self', σ'.
  split; [done|]. split; [done|]. split; [done|]. split.
  { unfold tensor_shape at 1. simpl. by rewrite Hsh, py_take_to_last. }
  by exists tfc, T, F.
Qed.

End Operation.

(** ** Indices of broadcast products *)

Section Indexing.

Lemma prod_list_pos_tail (n k : nat) (sh : list nat) :
  k < prod_list (n :: sh) → 0 < prod_list sh ∧ k / prod_list sh < n.
Proof.
  simpl. intros Hk.
  assert (0 < prod_list sh) as Hp by (destruct (prod_list sh); lia).
  split; [done|]. apply Nat.Div0.div_lt_upper_bound. lia.
Qed.

Lemma ravel_unravel (sh : list nat) (k : nat) :
  k < prod_list sh → ravel sh (unravel sh k) = k.
Proof.
  revert k. induction sh as [|n sh IH]; intros k Hk; simpl in *; [lia|].
  destruct (prod_list_pos_tail n k sh Hk) as [Hp Hq].
  rewrite (Nat.mod_small _ n) by done.
  rewrite IH by (apply Nat.mod_upper_bound; lia).
  pose proof (Nat.div_mod_eq k (prod_list sh)). lia.
Qed.

Lemma length_unravel (sh : list nat) (k : nat) : length (unravel sh k) = length sh.
Proof. revert k. induction sh as [|n sh IH]; intros k; simpl; [done|]. by rewrite IH. Qed.

Lemma mod_mul_mod (k a b : nat) : (k `mod` (a * b)) `mod` b = k `mod` b.
Proof.
  rewrite (Nat.mul_comm a b), Nat.Div0.mod_mul_r.
  rewrite (Nat.mul_comm b), Nat.Div0.mod_add.
  by rewrite Nat.Div0.mod_mod.
Qed.

Lemma unravel_app (ts gs : list nat) (k : nat) :
  k < prod_list (ts ++ gs) →
  ∃ pre, length pre = length ts
         ∧ unravel (ts ++ gs) k = pre ++ unravel gs (k `mod` prod_list gs).
Proof.
  revert k. induction ts as [|n ts IH]; intros k Hk; simpl in *.
  - exists []. split; [done|]. simpl. by rewrite Nat.mod_small.
  - destruct (prod_list_pos_tail n k (ts ++ gs) Hk) as [Hp _].
    destruct (IH (k `mod` prod_list (ts ++ gs))) as (pre & Hlen & Heq).
    { apply Nat.mod_upper_bound. lia. }
    eexists (_ :: pre). split; [simpl; by rewrite Hlen|].
    rewrite Heq. simpl. do 3 f_equal.
    rewrite prod_list_app. apply mod_mul_mod.
Qed.

Lemma broadcast_idx_unravel (sh : list nat) (k : nat) :
  broadcast_idx sh (unravel sh k) = unravel sh k.
Proof.
  unfold broadcast_idx. rewrite length_unravel, Nat.sub_diag, drop_0.
  revert k. induction sh as [|n sh IH]; intros k; simpl; [done|].
  rewrite IH. f_equal. case_decide as Hn; [|done].
  subst n. by rewrite Nat.mod_1_r.
Qed.

Lemma broadcast_src_same (sh : list nat) (k : nat) :
  k < prod_list sh → broadcast_src sh sh k = k.
Proof.
  intros Hk. unfold broadcast_src. rewrite broadcast_idx_unravel.
  by apply ravel_unravel.
Qed.

Lemma broadcast_src_suffix (ts gs : list nat) (k : nat) :
  k < prod_list (ts ++ gs) →
  broadcast_src (ts ++ gs) gs k = k `mod` prod_list gs.
Proof.
  intros Hk. unfold broadcast_src.
  destruct (unravel_app ts gs k Hk) as (pre & Hlen & ->).
  unfold broadcast_idx.
  rewrite length_app, length_unravel.
  replace (length pre + length gs - length gs) with (length pre) by lia.
  rewrite drop_app_length.
  pose proof (broadcast_idx_unravel gs (k `mod` prod_list gs)) as Hb.
  unfold broadcast_idx in Hb. rewrite length_unravel, Nat.sub_diag, drop_0 in Hb.
  rewrite Hb. apply ravel_unravel.
  apply Nat.mod_upper_bound. rewrite prod_list_app in Hk. lia.
Qed.

End Indexing.

(** ** Round trips of the filter *)

Section RoundTrip.
Context {C : Type} `{!Scalar C, !FFTBackend C}.

Lemma length_chunks {A} (m n : nat) (x : list A) : length (chunks m n x) = n.
Proof. revert x. induction n as [|n IH]; intros x; simpl; [done|]. by rewrite IH. Qed.

Lemma Forall_chunks {A} (P : A → Prop) (m n : nat) (x : list A) :
  Forall P x → Forall (Forall P) (chunks m n x).
Proof.
  revert x. induction n as [|n IH]; intros x Hx; simpl; [constructor|].
  constructor; [by apply Forall_take|]. apply IH. by apply Forall_drop.
Qed.

Lemma chunks_lengths {A} (m n : nat) (x : list A) :
  length x = n * m → Forall (λ c, length c = m) (chunks m n x).
Proof.
  revert x. induction n as [|n IH]; intros x Hx; simpl; [constructor|].
  constructor; [rewrite length_take; lia|]. apply IH. rewrite length_drop. lia.
Qed.

Lemma length_concat_uniform {A} (m : nat) (xs : list (list A)) :
  Forall (λ c, length c = m) xs → length (concat xs) = length xs * m.
Proof.
  induction 1 as [|c xs Hc _ IH]; simpl; [done|]. rewrite length_app, IH. lia.
Qed.

Lemma Forall_rotate {A} (P : A → Prop) (n : nat) (x : list A) :
  Forall P x → Forall P (rotate n x).
Proof.
  intros Hx. unfold rotate. apply Forall_app. split; [by apply Forall_drop|by apply Forall_take].
Qed.

Lemma Forall_ifftshift_data {A} (P : A → Prop) axes nd (sh : list nat) (x : list A) :
  Forall P x → Forall P (ifftshift_data axes nd sh x).
Proof.
  revert x. induction sh as [|n sh IH]; intros x Hx; simpl; [done|].
  apply Forall_concat.
  assert (Forall (Forall P) (ifftshift_data axes nd sh <$> chunks (prod_list sh) n x)) as H.
  { apply Forall_fmap. eapply Forall_impl; [by apply Forall_chunks|]. simpl. apply IH. }
  case_decide; [by apply Forall_rotate|done].
Qed.

Lemma length_ifftshift_data {A} axes nd (sh : list nat) (x : list A) :
  length x = prod_list sh → length (ifftshift_data axes nd sh x) = prod_list sh.
Proof.
  revert x. induction sh as [|n sh IH]; intros x Hx; simpl in *; [done|].
  assert (Forall (λ c, length c = prod_list sh)
            (ifftshift_data axes nd sh <$> chunks (prod_list sh) n x)) as H.
  { apply Forall_fmap. eapply Forall_impl; [by apply chunks_lengths|]. simpl. apply IH. }
  case_decide.
  - rewrite (length_concat_uniform (prod_list sh)) by (by apply Forall_rotate).
    by rewrite length_rotate, length_fmap, length_chunks.
  - rewrite (length_concat_uniform (prod_list sh)) by done.
    by rewrite length_fmap, length_chunks.
Qed.

Lemma get_lookup {A} (x : list A) (d : A) (i : nat) (a : A) :
  x !! i = Some a → get x d i = a.
Proof. intros H. unfold get. by rewrite H. Qed.

Lemma fmap_get_seq {A} (x : list A) (d : A) :
  (λ k, get x d k) <$> seq 0 (length x) = x.
Proof.
  apply list_eq. intros i. rewrite list_lookup_fmap.
  destruct (decide (i < length x)) as [Hi|Hi].
  - rewrite lookup_seq_lt by done. simpl.
    destruct (lookup_lt_is_Some_2 x i Hi) as [a Ha].
    by rewrite Ha, (get_lookup _ _ _ _ Ha).
  - rewrite lookup_seq_ge by lia. simpl. symmetry. apply lookup_ge_None. lia.
Qed.

Lemma length_mul_data (out sa sb : list nat) (x y : list C) :
  length (mul_data out sa sb x y) = prod_list out.
Proof. unfold mul_data. by rewrite length_fmap, length_seq. Qed.

Lemma mul_data_lookup (ts gs : list nat) (x y : list C) (k : nat) :
  k < prod_list (ts ++ gs) →
  mul_data (ts ++ gs) (ts ++ gs) gs x y !! k
  = Some (c_mul (get x c_zero k) (get y c_zero (k `mod` prod_list gs))).
Proof.
  intros Hk. unfold mul_data. rewrite list_lookup_fmap, lookup_seq_lt by done.
  simpl. by rewrite broadcast_src_same, broadcast_src_suffix.
Qed.

(** Multiplying by the samples and then by their conjugates (or the
    other way round) changes nothing when the samples have modulus one. *)
Lemma mul_data_unit `{!ScalarLaws} (ts gs : list nat) (x T : list C) (b : bool) :
  length x = prod_list (ts ++ gs) → length T = prod_list gs → unit_modulus T →
  mul_data (ts ++ gs) (ts ++ gs) gs
    (mul_data (ts ++ gs) (ts ++ gs) gs x (if b then c_conj <$> T else T))
    (if negb b then c_conj <$> T else T)
  = x.
Proof.
  intros Hx HT Hu. etrans; [|apply (fmap_get_seq x c_zero)]. rewrite Hx.
  unfold mul_data at 1. apply list_fmap_ext. intros j k Hj.
  apply lookup_seq in Hj as [Heq Hk]. simpl in Heq. subst j.
  rewrite broadcast_src_same, broadcast_src_suffix by done.
  rewrite (get_lookup _ _ _ _ (mul_data_lookup ts gs x _ k Hk)).
  assert (k `mod` prod_list gs < length T) as Hm.
  { rewrite HT. apply Nat.mod_upper_bound. rewrite prod_list_app in Hk. lia. }
  destruct (lookup_lt_is_Some_2 T _ Hm) as [t Ht].
  assert (c_mul t (c_conj t) = c_one) as Hunit.
  { by apply (Forall_lookup_1 _ T _ _ Hu Ht). }
  assert ((c_conj <$> T) !! (k `mod` prod_list gs) = Some (c_conj t)) as Hct.
  { by rewrite list_lookup_fmap, Ht. }
  destruct b; simpl.
  - rewrite (get_lookup _ _ _ _ Hct), (get_lookup _ _ _ _ Ht).
    by rewrite c_mul_assoc, (c_mul_comm (c_conj t)), Hunit, c_mul_one.
  - rewrite (get_lookup _ _ _ _ Hct), (get_lookup _ _ _ _ Ht).
    by rewrite c_mul_assoc, Hunit, c_mul_one.
Qed.

Lemma filtered_samples_round_trip `{!ScalarLaws} (ts gs : list nat) (nd : nat)
    (T F : list C) (b : bool) :
  fft_inverse_pair (ts ++ gs) (seq (length (ts ++ gs) - nd) nd) →
  length F = prod_list (ts ++ gs) → length T = prod_list gs → unit_modulus T →
  filtered_samples (ts ++ gs) nd gs (negb b) T (filtered_samples (ts ++ gs) nd gs b T F)
  = F.
Proof.
  intros (_ & Hlen & Hif & Hfi) HF HT Hu. unfold filtered_samples.
  rewrite Hfi by apply length_mul_data.
  rewrite mul_data_unit; [by apply Hif| |done|done].
  by apply Hlen.
Qed.

Lemma cast_samples_complex `{!ScalarLaws} (d d' : dtype) (x : list C) :
  is_complex d' = true → cast_samples d d' x = x.
Proof.
  intros Hd. unfold cast_samples. case_decide; [done|].
  rewrite <- (list_fmap_id x) at 2. apply list_fmap_ext.
  intros i y _. by apply c_cast_complex.
Qed.

Lemma shifted_samples_scalar (self : FourierFilter C) (r : FieldLit C) :
  wf_lit r → lit_shape r = [g_size (lit_grid r)] →
  length (lit_data r) = prod_list (lit_shape r) → unit_modulus (lit_data r) →
  let S := shifted_samples self (lit_shape r) (lit_grid r) (lit_data r) in
  length S = prod_list (g_shape (lit_grid r)) ∧ unit_modulus S.
Proof.
  intros ((_ & _ & Hp) & _) Hsh Hlen Hu S. unfold S, shifted_samples.
  rewrite Hsh, py_take_to_single. simpl. split.
  - apply length_ifftshift_data. rewrite Hlen, Hsh, Hp. simpl. lia.
  - by apply Forall_ifftshift_data.
Qed.

End RoundTrip.

(** ** [FourierShear] *)

Section ShearProps.
Context {C : Type} `{!Scalar C, !FFTBackend C, !ScalarExp C}.
Variable make_fft_grid : Grid C → Grid C.

Lemma use_mkl_unbound : module_globals !! "_use_mkl" = None.
Proof. vm_compute. reflexivity. Qed.

Lemma use_mkl_not_builtin : "_use_mkl" ∉ python_builtins.
Proof.
  intros H. apply (bool_decide_eq_true_2 _) in H. vm_compute in H. discriminate.
Qed.

(** C1: every call of [forward] or [backward] of the shear operator
    stops at the first statement of [_operation], which reads the global
    name [_use_mkl]: the module binds no such name, so the call raises
    [NameError] and leaves the store as it was. *)
Theorem shear_operation_name_error
    (self : FourierShear C) (field : Field C) (adjoint : bool) (σ : @pystate C) :
  shear_operation module_globals self field adjoint σ
  = (Raise (NameError "_use_mkl"), σ).
Proof.
  unfold shear_operation, load_global. rewrite use_mkl_unbound.
  rewrite decide_False by apply use_mkl_not_builtin. done.
Qed.


Ltac len_simpl := repeat first [rewrite length_app | rewrite length_insert]; simpl.

Lemma chunks_singletons {A} (x : list A) : chunks 1 (length x) x = (λ a, [a]) <$> x.
Proof. induction x as [|a x IH]; simpl; [done|]. rewrite drop_0. by f_equal. Qed.

Lemma concat_singletons {A} (x : list A) : concat ((λ a, [a]) <$> x) = x.
Proof. induction x as [|a x IH]; simpl; [done|]. by f_equal. Qed.

Lemma rotate_fmap {A B} (f : A → B) (k : nat) (x : list A) :
  rotate k (f <$> x) = f <$> rotate k x.
Proof. unfold rotate. by rewrite length_fmap, fmap_app, fmap_drop, fmap_take. Qed.

(** [ifftshift] of a one-dimensional array rotates it left by half its
    length. *)
Lemma ifftshift_data_1d {A} (x : list A) :
  ifftshift_data [0] 1 [length x] x = rotate (length x / 2) x.
Proof.
  simpl. rewrite list_fmap_id, chunks_singletons.
  by rewrite rotate_fmap, concat_singletons.
Qed.

Lemma lookup_bind_uniform {A B} (f : A → list B) (m : nat) (l : list A) (i j : nat) (a : A) :
  Forall (λ x, length (f x) = m) l → l !! i = Some a → j < m →
  (l ≫= f) !! (i * m + j) = f a !! j.
Proof.
  intros Hl. revert i. induction Hl as [|x l Hx _ IH]; intros i Hi Hj; [done|].
  rewrite bind_cons. destruct i as [|i]; simpl in *.
  - injection Hi as ->. rewrite lookup_app_l by lia. done.
  - rewrite lookup_app_r by lia. rewrite <- (IH i Hi Hj). f_equal. lia.
Qed.

Lemma length_bind_uniform {A B} (f : A → list B) (m : nat) (l : list A) :
  Forall (λ x, length (f x) = m) l → length (l ≫= f) = length l * m.
Proof.
  induction 1 as [|x l Hx _ IH]; [done|].
  rewrite bind_cons, length_app, IH. simpl. lia.
Qed.

Lemma transpose_index (r c i j : nat) :
  i < r → j < c →
  (j * r + i) `mod` r = i ∧ (j * r + i) / r = j ∧ j * r + i < c * r.
Proof.
  intros Hi Hj. split; [|split].
  - rewrite Nat.add_comm, Nat.Div0.mod_add. by apply Nat.mod_small.
  - rewrite Nat.add_comm, Nat.div_add by lia. rewrite Nat.div_small by done. lia.
  - nia.
Qed.

Lemma transpose_data_spec {A} (r c : nat) (x : list A) :
  length x = r * c →
  length (transpose_data r c x) = c * r
  ∧ ∀ i j, i < r → j < c → transpose_data r c x !! (j * r + i) = x !! (i * c + j).
Proof.
  intros Hx. unfold transpose_data.
  assert (Forall (λ k, length (option_list (x !! (k `mod` r * c + k `div` r))) = 1)
            (seq 0 (c * r))) as Hall.
  { apply Forall_forall. intros k Hk. apply elem_of_seq in Hk as [_ Hk]. simpl in Hk.
    assert (0 < r) as Hr by (destruct r; lia).
    assert (k `mod` r < r) by (apply Nat.mod_upper_bound; lia).
    assert (k / r < c) by (apply Nat.Div0.div_lt_upper_bound; lia).
    destruct (lookup_lt_is_Some_2 x (k `mod` r * c + k / r)) as [a ->]; [nia|]. done. }
  split.
  - rewrite (length_bind_uniform _ 1) by done. rewrite length_seq. lia.
  - intros i j Hi Hj. destruct (transpose_index r c i j Hi Hj) as (Hm & Hd & Hlt).
    pose proof (lookup_bind_uniform _ 1 _ (j * r + i) 0 (j * r + i) Hall) as Hb.
    rewrite Nat.mul_1_r, Nat.add_0_r in Hb.
    rewrite Hb; [|by rewrite lookup_seq_lt|lia].
    rewrite Hm, Hd.
    destruct (lookup_lt_is_Some_2 x (i * c + j)) as [a ->]; [nia|]. done.
Qed.


Lemma norm_axes_1d : norm_axes 1 (py_range 0 1) = Some [0].
Proof. reflexivity. Qed.

Lemma np_ifftshift_run (a : ndarray) axes ax x (σ : @pystate C) :
  heap σ !! buf a = Some x → norm_axes (ndim a) axes = Some ax →
  np_ifftshift a axes σ
  = (Return (NDArray (shape a) (adtype a) (length (heap σ))),
     PyState (heap σ ++ [ifftshift_data ax (ndim a) (shape a) x])
       (trace σ ++ [EvIfftshift axes])).
Proof.
  intros Hx Hax. unfold np_ifftshift. rewrite Hax.
  unfold bind, emit, load, alloc, ret. simpl. by rewrite Hx.
Qed.

Lemma np_outer_run (a b : ndarray) x y (σ : @pystate C) :
  heap σ !! buf a = Some x → heap σ !! buf b = Some y →
  np_outer a b σ
  = (Return (NDArray [prod_list (shape a); prod_list (shape b)]
               (result_type (adtype a) (adtype b)) (length (heap σ))),
     PyState (heap σ ++ [xi ← x; (λ yj, c_mul xi yj) <$> y]) (trace σ)).
Proof. intros Hx Hy. unfold np_outer, bind, load, alloc, ret. by rewrite Hx, Hy. Qed.

Lemma np_scale_run (k : C) (a : ndarray) x (σ : @pystate C) :
  heap σ !! buf a = Some x →
  np_scale k a σ
  = (Return (NDArray (shape a) (result_type complex128 (adtype a)) (length (heap σ))),
     PyState (heap σ ++ [c_mul k <$> x]) (trace σ)).
Proof. intros Hx. unfold np_scale, bind, load, alloc, ret. by rewrite Hx. Qed.

Lemma np_exp_run (a : ndarray) x (σ : @pystate C) :
  heap σ !! buf a = Some x →
  np_exp a σ
  = (Return (NDArray (shape a) (adtype a) (length (heap σ))),
     PyState (heap σ ++ [c_exp <$> x]) (trace σ)).
Proof. intros Hx. unfold np_exp, bind, load, alloc, ret. by rewrite Hx. Qed.

Lemma np_transpose_run (a : ndarray) r c x (σ : @pystate C) :
  shape a = [r; c] → heap σ !! buf a = Some x →
  np_transpose a σ
  = (Return (NDArray [c; r] (adtype a) (length (heap σ))),
     PyState (heap σ ++ [transpose_data r c x]) (trace σ)).
Proof.
  intros Hs Hx. unfold np_transpose. rewrite Hs.
  unfold bind, load, alloc, ret. by rewrite Hx.
Qed.

(** The setter on a grid that has the coordinates it indexes. *)
Lemma set_shear_run (self : FourierShear C) (shear : C) (σ : @pystate C) (cx cy : list C) :
  py_index (separated_coords (make_fft_grid (s_input_grid self))) (shear_dim self) = Some cx →
  py_index (separated_coords (s_input_grid self)) (fourier_dim self) = Some cy →
  let fx := rotate (length cx / 2) cx in
  let ramp := phase_ramp shear cy fx in
  let o := yi ← cy; (λ fj, c_mul yi fj) <$> fx in
  let temps := [cx; fx; cy; o; c_mul (c_mul (c_neg c_i) shear) <$> o; ramp] in
  set_shear make_fft_grid self shear σ
  = (Return {| _input_grid := _input_grid self;
               _shear_dim := _shear_dim self;
               _filter :=
                 Some (if decide (shear_dim self = 1)%Z
                       then NDArray [length fx; length cy] complex128 (length (heap σ) + 6)
                       else NDArray [length cy; length fx] complex128 (length (heap σ) + 5));
               _shear := Some shear |},
     PyState (heap σ ++ temps
              ++ (if decide (shear_dim self = 1)%Z
                  then [transpose_data (length cy) (length fx) ramp] else []))
       (trace σ ++ [EvIfftshift [0%Z]])).
Proof.
  intros Hcx Hcy fx ramp o temps.
  assert (length fx = length cx) as Hlfx by apply length_rotate.
  unfold set_shear. rewrite Hcx, Hcy. simpl.
  erewrite bind_run; [|done].
  erewrite bind_run; [|done].
  erewrite bind_run; last first.
  { eapply np_ifftshift_run; simpl; [apply lookup_snoc_here|apply norm_axes_1d]. }
  unfold ndim. cbn [shape adtype buf heap trace length].
  rewrite ifftshift_data_1d. fold fx.
  erewrite bind_run; [|done].
  erewrite bind_run; [|done].
  erewrite bind_run; last first.
  { eapply np_outer_run; simpl.
    - apply lookup_snoc_here.
    - apply lookup_snoc_old, lookup_snoc_here. }
  simpl. fold o.
  erewrite bind_run; last first.
  { eapply np_scale_run; simpl. apply lookup_snoc_here. }
  simpl.
  erewrite bind_run; last first.
  { eapply np_exp_run; simpl. apply lookup_snoc_here. }
  simpl. fold (phase_ramp shear cy fx). fold ramp.
  rewrite !Nat.mul_1_r.
  destruct (decide (shear_dim self = 1)%Z) as [Hd|Hd].
  - erewrite bind_run; last first.
    { eapply np_transpose_run; simpl; [done|]. apply lookup_snoc_here. }
    unfold np_ascontiguousarray, bind, ret. simpl.
    rewrite Hlfx. len_simpl. unfold temps. rewrite <- !app_assoc. simpl.
    replace (length (heap σ) + 1 + 1 + 1 + 1 + 1 + 1) with (length (heap σ) + 6) by lia.
    reflexivity.
  - unfold np_ascontiguousarray, bind, ret. simpl.
    rewrite Hlfx. len_simpl. unfold temps. rewrite <- !app_assoc. simpl.
    replace (length (heap σ) + 1 + 1 + 1 + 1 + 1) with (length (heap σ) + 5) by lia.
    reflexivity.
Qed.


Lemma phase_ramp_lookup (shear : C) (y fx : list C) (i j : nat) (yi fj : C) :
  y !! i = Some yi → fx !! j = Some fj →
  phase_ramp shear y fx !! (i * length fx + j)
  = Some (c_exp (c_mul (c_mul (c_neg c_i) shear) (c_mul yi fj))).
Proof.
  intros Hy Hf. unfold phase_ramp. rewrite !list_lookup_fmap.
  rewrite (lookup_bind_uniform _ (length fx) y i j yi); [|..|done|by eapply lookup_lt_Some].
  - by rewrite list_lookup_fmap, Hf.
  - apply Forall_forall. intros. by rewrite length_fmap.
Qed.

Lemma length_phase_ramp (shear : C) (y fx : list C) :
  length (phase_ramp shear y fx) = length y * length fx.
Proof.
  unfold phase_ramp. rewrite !length_fmap.
  apply length_bind_uniform, Forall_forall. intros. by rewrite length_fmap.
Qed.

(** C8: assigning [shear] stores the value and a new filter array and
    changes nothing else: the grid and the shear axis stay, and no buffer
    that existed is written.  With [y] the coordinates of the other axis
    and [fx] the frequency coordinates of the sheared axis rotated by
    half their length ([ifftshift]), the filter holds
    [exp(-1j * shear * y[i] * fx[j])] at row [i] and column [j] when the
    first axis is sheared, and the transpose of that matrix (row [j],
    column [i]) when the second axis is sheared. *)
Theorem set_shear_phase_ramp
    (self : FourierShear C) (shear : C) (σ : @pystate C) (cx cy : list C) :
  (shear_dim self = 0 ∨ shear_dim self = 1)%Z →
  py_index (separated_coords (make_fft_grid (s_input_grid self))) (shear_dim self) = Some cx →
  py_index (separated_coords (s_input_grid self)) (fourier_dim self) = Some cy →
  let fx := rotate (length cx / 2) cx in
  let value yi fj := c_exp (c_mul (c_mul (c_neg c_i) shear) (c_mul yi fj)) in
  ∃ self' filter data σ',
    set_shear make_fft_grid self shear σ = (Return self', σ')
    ∧ _filter self' = Some filter
    ∧ _shear self' = Some shear
    ∧ _input_grid self' = _input_grid self
    ∧ _shear_dim self' = _shear_dim self
    ∧ heap σ' !! buf filter = Some data
    ∧ length data = prod_list (shape filter)
    ∧ (shear_dim self = 0%Z →
         shape filter = [length cy; length fx]
         ∧ ∀ i j yi fj, cy !! i = Some yi → fx !! j = Some fj →
             data !! (i * length fx + j) = Some (value yi fj))
    ∧ (shear_dim self = 1%Z →
         shape filter = [length fx; length cy]
         ∧ ∀ i j yi fj, cy !! i = Some yi → fx !! j = Some fj →
             data !! (j * length cy + i) = Some (value yi fj))
    ∧ (∀ l, l < length (heap σ) → heap σ' !! l = heap σ !! l)
    ∧ new_events σ σ' = [EvIfftshift [0%Z]].
Proof.
  intros Hdim Hcx Hcy fx value.
  rewrite (set_shear_run self shear σ cx cy Hcx Hcy). fold fx.
  set (ramp := phase_ramp shear cy fx).
  pose proof (length_phase_ramp shear cy fx) as Hlr. fold ramp in Hlr.
  destruct (decide (shear_dim self = 1)%Z) as [Hd|Hd].
  - destruct (transpose_data_spec (length cy) (length fx) ramp Hlr) as [Hlt Htr].
    eexists _, _, (transpose_data (length cy) (length fx) ramp), _.
    split; [done|]. simpl. split; [done|]. split; [done|]. split; [done|]. split; [done|].
    split.
    { cbn [buf]. rewrite lookup_app_r by lia.
      replace (length (heap σ) + 6 - length (heap σ)) with 6 by lia. done. }
    split; [rewrite Hlt; simpl; lia|]. split; [intros; lia|]. split.
    { intros _. split; [done|]. intros i j yi fj Hy Hf.
      rewrite Htr by (by eapply lookup_lt_Some).
      by apply phase_ramp_lookup. }
    split; [intros l Hl; by rewrite lookup_app_l|].
    apply new_events_app.
  - eexists _, _, ramp, _.
    split; [done|]. simpl. split; [done|]. split; [done|]. split; [done|]. split; [done|].
    split.
    { cbn [buf]. rewrite lookup_app_r by lia.
      replace (length (heap σ) + 5 - length (heap σ)) with 5 by lia. done. }
    split; [rewrite Hlr; simpl; lia|]. split.
    { intros _. split; [done|]. intros i j yi fj Hy Hf. by apply phase_ramp_lookup. }
    split; [intros; lia|].
    split; [intros l Hl; by rewrite lookup_app_l|].
    apply new_events_app.
Qed.


(** *** Validation *)

Lemma set_shear_outcome (self : FourierShear C) (shear : C) (σ : @pystate C) :
  (∃ self' σ', set_shear make_fft_grid self shear σ = (Return self', σ'))
  ∨ (∃ m σ', set_shear make_fft_grid self shear σ = (Raise (IndexError m), σ')).
Proof.
  destruct (py_index (separated_coords (make_fft_grid (s_input_grid self)))
              (shear_dim self)) as [cx|] eqn:Hcx.
  - destruct (py_index (separated_coords (s_input_grid self)) (fourier_dim self))
      as [cy|] eqn:Hcy.
    + left. rewrite (set_shear_run self shear σ cx cy Hcx Hcy). eauto.
    + right. unfold set_shear. rewrite Hcx, Hcy. simpl.
      erewrite bind_run; [|done].
      erewrite bind_run; [|done].
      erewrite bind_run; last first.
      { eapply np_ifftshift_run; simpl; [apply lookup_snoc_here|apply norm_axes_1d]. }
      eauto.
  - right. unfold set_shear. rewrite Hcx. simpl. eauto.
Qed.

Lemma raises_only_ret {A} (E : exn → Prop) (a : A) : raises_only (C:=C) E (ret a).
Proof. intros σ e σ' [=]. Qed.

Lemma raises_only_raise {A} (E : exn → Prop) e : E e → raises_only (C:=C) (A:=A) E (raise e).
Proof. intros He σ e' σ' [= <- _]. done. Qed.

Lemma raises_only_bind {A B} (E : exn → Prop) (m : @M C A) (k : A → @M C B) :
  raises_only E m → (∀ a, raises_only E (k a)) → raises_only E (bind m k).
Proof.
  intros Hm Hk σ e σ'' Hrun.
  apply bind_inv in Hrun as [(a & σ' & _ & Hka)|(e' & Hme & [= <-])].
  - by eapply Hk.
  - by eapply Hm.
Qed.

Lemma raises_only_alloc (E : exn → Prop) (x : list C) : raises_only E (alloc x).
Proof. intros σ e σ' [=]. Qed.

Lemma raises_only_store (E : exn → Prop) l (x : list C) : raises_only E (store l x).
Proof. intros σ e σ' [=]. Qed.

Lemma raises_only_emit (E : exn → Prop) (ev : event C) : raises_only E (emit ev).
Proof. intros σ e σ' [=]. Qed.

Lemma raises_only_load (E : exn → Prop) l :
  E (ValueError "no such buffer") → raises_only (C:=C) E (load l).
Proof.
  intros He σ e σ'. unfold load. destruct (heap σ !! l); intros [= <- _]. done.
Qed.

Lemma raises_only_lift_option {A} (E : exn → Prop) e (o : option A) :
  E e → raises_only (C:=C) E (lift_option e o).
Proof. intros He. destruct o; [apply raises_only_ret|by apply raises_only_raise]. Qed.

Ltac ro_step :=
  first
    [ apply raises_only_ret
    | apply raises_only_raise; by intros [=]
    | apply raises_only_alloc
    | apply raises_only_store
    | apply raises_only_emit
    | apply raises_only_load; by intros [=]
    | apply raises_only_lift_option; by intros [=]
    | apply raises_only_bind; [|intros ?] ].

Lemma not_grid_error_np_reshape (a : ndarray) spec :
  raises_only (C:=C) not_grid_error (np_reshape a spec).
Proof. unfold np_reshape. destruct (resolve_shape _ _); ro_step. Qed.

Lemma not_grid_error_fft_call inverse (a : ndarray) axes overwrite_x :
  raises_only not_grid_error (fft_call inverse a axes overwrite_x).
Proof.
  unfold fft_call. ro_step; [ro_step|].
  destruct (norm_axes _ _); [|ro_step].
  repeat ro_step. destruct overwrite_x; ro_step.
Qed.

Lemma not_grid_error_np_conj (a : ndarray) : raises_only not_grid_error (np_conj a).
Proof. unfold np_conj. repeat ro_step. Qed.

Lemma not_grid_error_np_imul (a b : ndarray) : raises_only not_grid_error (np_imul a b).
Proof. unfold np_imul. repeat case_decide; repeat ro_step. Qed.

Lemma not_grid_error_shear_operation G (self : FourierShear C) (field : Field C) adjoint :
  raises_only not_grid_error (shear_operation G self field adjoint).
Proof.
  unfold shear_operation.
  apply raises_only_bind.
  { unfold load_global. destruct (G !! _); [ro_step|]. case_decide; ro_step. }
  intros use_mkl. apply raises_only_bind; [apply not_grid_error_np_reshape|].
  intros x. apply raises_only_bind; [apply not_grid_error_fft_call|].
  intros f. apply raises_only_bind; [ro_step|].
  intros filter. apply raises_only_bind.
  { destruct adjoint; [|apply not_grid_error_np_imul].
    apply raises_only_bind; [apply not_grid_error_np_conj|].
    intros c. apply not_grid_error_np_imul. }
  intros _. apply raises_only_bind; [apply not_grid_error_fft_call|].
  intros f'. apply raises_only_bind; [apply not_grid_error_np_reshape|].
  intros r. ro_step.
Qed.

(** C9: the constructor raises [ValueError] exactly when the grid is not
    regular or not two-dimensional, and [forward] and [backward] never
    raise that error, whatever the grid of their field and whatever the
    module's globals are. *)
Theorem shear_validation_at_construction :
  (∀ (g : Grid C) (shear : C) (dim : Z) (σ : @pystate C),
     (∃ m σ', FourierShear_init make_fft_grid g shear dim σ = (Raise (ValueError m), σ'))
     ↔ (is_regular g = false ∨ g_ndim g ≠ 2))
  ∧ (∀ G (self : FourierShear C) (field : Field C) adjoint (σ : @pystate C) e σ',
       shear_operation G self field adjoint σ = (Raise e, σ') →
       e ≠ ValueError grid_error).
Proof.
  split.
  - intros g shear dim σ. unfold FourierShear_init.
    destruct (is_regular g) eqn:Hreg; simpl.
    + destruct (decide (g_ndim g = 2)) as [Hnd|Hnd].
      * rewrite bool_decide_eq_false_2 by (intros H; by apply H).
        split; [|intros [?|?]; done].
        intros (m & σ' & Hrun).
        destruct (set_shear_outcome
                    {| _input_grid := g; _shear_dim := dim; _filter := None; _shear := None |}
                    shear σ) as [(? & ? & Heq)|(? & ? & Heq)];
          rewrite Heq in Hrun; discriminate.
      * rewrite bool_decide_eq_true_2 by done.
        split; [by right|]. intros _. unfold raise. eauto.
    + split; [by left|]. intros _. unfold raise. eauto.
  - intros G self field adjoint σ e σ' Hrun.
    by apply (not_grid_error_shear_operation G self field adjoint σ e σ').
Qed.

End ShearProps.

(** ** [OpticalElement] *)

Section OpticalElementProps.
Context {W S : Type}.

(** C10: [__call__] is [raise self.forward(wavefront)], so calling an
    element never returns normally.  An exception raised by [forward]
    propagates, [NotImplementedError] for the base class.  What [forward]
    returns is handed to [raise]: the wavefront a concrete [forward]
    returns is never handed back to the caller, the call ends in
    Python's [TypeError] for raising what is no exception.  The statement
    stands where a [return] is evidently meant. *)
Theorem call_never_returns (self : OpticalElement W S) (wavefront : W) (σ : S) :
  (∀ v, (__call__ self wavefront σ).1 ≠ Return v)
  ∧ (∀ e σ', oe_forward self wavefront σ = (Raise e, σ') →
       __call__ self wavefront σ = (Raise e, σ'))
  ∧ (∀ e σ', (oe_forward self wavefront σ = (Return (VException e), σ')
              ∨ oe_forward self wavefront σ = (Return (VExceptionClass e), σ')) →
       __call__ self wavefront σ = (Raise e, σ'))
  ∧ (∀ v σ', oe_forward self wavefront σ = (Return v, σ') →
       (∀ e, v ≠ VException e ∧ v ≠ VExceptionClass e) →
       __call__ self wavefront σ
       = (Raise (TypeError "exceptions must derive from BaseException"), σ'))
  ∧ __call__ base_element wavefront σ = (Raise NotImplementedError, σ).
Proof.
  unfold __call__. split; [|split; [|split; [|split]]].
  - intros v. destruct (oe_forward self wavefront σ) as [[w|e] σ']; [|done].
    by destruct w.
  - by intros e σ' ->.
  - by intros e σ' [-> | ->].
  - intros v σ' -> Hv. destruct v as [w| |e|e]; try done.
    + by destruct (Hv e) as [? _].
    + by destruct (Hv e) as [_ ?].
  - done.
Qed.

End OpticalElementProps.

(** ** Round trips with a unitary transfer function *)

Section Sums.
Context {C : Type} `{!Scalar C, !FFTBackend C, !ScalarLaws}.

Lemma c_zero_add (x : C) : c_add c_zero x = x.
Proof. by rewrite c_add_comm, c_add_zero. Qed.

Lemma c_one_mul (x : C) : c_mul c_one x = x.
Proof. by rewrite c_mul_comm, c_mul_one. Qed.

Lemma c_zero_mul (x : C) : c_mul c_zero x = c_zero.
Proof. by rewrite c_mul_comm, c_mul_zero. Qed.

Lemma sum_c_cons (x : C) (xs : list C) : sum_c (x :: xs) = c_add x (sum_c xs).
Proof. done. Qed.

Lemma sum_c_ext {X} (f g : X → C) (l : list X) :
  (∀ j, j ∈ l → f j = g j) → sum_c (f <$> l) = sum_c (g <$> l).
Proof.
  intros Hfg. f_equal. apply list_fmap_ext. intros i j Hj. apply Hfg.
  by eapply list_elem_of_lookup_2.
Qed.

Lemma sum_c_zero {X} (l : list X) : sum_c ((λ _, c_zero) <$> l) = c_zero.
Proof.
  induction l as [|j l IH]; [done|]. by rewrite fmap_cons, sum_c_cons, IH, c_add_zero.
Qed.

Lemma sum_c_add {X} (f g : X → C) (l : list X) :
  sum_c ((λ j, c_add (f j) (g j)) <$> l) = c_add (sum_c (f <$> l)) (sum_c (g <$> l)).
Proof.
  induction l as [|j l IH]; [simpl; by rewrite c_add_zero|].
  rewrite !fmap_cons, !sum_c_cons, IH, !c_add_assoc. f_equal.
  rewrite <- !c_add_assoc. f_equal. apply c_add_comm.
Qed.

Lemma sum_c_mul {X} (c : C) (f : X → C) (l : list X) :
  c_mul c (sum_c (f <$> l)) = sum_c ((λ j, c_mul c (f j)) <$> l).
Proof.
  induction l as [|j l IH]; [apply c_mul_zero|].
  by rewrite !fmap_cons, !sum_c_cons, c_mul_add, IH.
Qed.

Lemma sum_c_swap {X Y} (f : X → Y → C) (l : list X) (l' : list Y) :
  sum_c ((λ j, sum_c ((λ k, f j k) <$> l')) <$> l)
  = sum_c ((λ k, sum_c ((λ j, f j k) <$> l)) <$> l').
Proof.
  induction l as [|j l IH]; [simpl; by rewrite sum_c_zero|].
  by rewrite fmap_cons, sum_c_cons, IH, <- sum_c_add.
Qed.

Lemma sum_c_delta (x : nat → C) (i s n : nat) :
  sum_c ((λ k, c_mul (delta i k) (x k)) <$> seq s n)
  = if decide (s ≤ i < s + n) then x i else c_zero.
Proof.
  revert s. induction n as [|n IH]; intros s.
  - rewrite decide_False by lia. done.
  - rewrite <- cons_seq, fmap_cons, sum_c_cons, IH. unfold delta. destruct (decide (i = s)) as [->|Hne].
    + rewrite decide_False by lia. rewrite decide_True by lia.
      by rewrite c_one_mul, c_add_zero.
    + rewrite c_zero_mul, c_zero_add.
      destruct (decide (S s ≤ i < S s + n)).
      * by rewrite decide_True by lia.
      * by rewrite decide_False by lia.
Qed.

(** [A (B x) = x] at one point when [A B] is the identity there. *)
Lemma sum_c_inverse (n : nat) (a b : nat → nat → C) (x : nat → C) (i : nat) :
  i < n →
  (∀ k, k < n → sum_c ((λ j, c_mul (a i j) (b j k)) <$> seq 0 n) = delta i k) →
  sum_c ((λ j, c_mul (a i j) (sum_c ((λ k, c_mul (b j k) (x k)) <$> seq 0 n))) <$> seq 0 n)
  = x i.
Proof.
  intros Hi Hab.
  trans (sum_c ((λ j, sum_c ((λ k, c_mul (a i j) (c_mul (b j k) (x k))) <$> seq 0 n))
                  <$> seq 0 n)).
  { apply sum_c_ext. intros j _. apply sum_c_mul. }
  rewrite (sum_c_swap (λ j k, c_mul (a i j) (c_mul (b j k) (x k)))).
  trans (sum_c ((λ k, c_mul (delta i k) (x k)) <$> seq 0 n)).
  { apply sum_c_ext. intros k Hk. apply elem_of_seq in Hk.
    trans (sum_c ((λ j, c_mul (x k) (c_mul (a i j) (b j k))) <$> seq 0 n)).
    { apply sum_c_ext. intros j _. by rewrite <- c_mul_assoc, (c_mul_comm _ (x k)). }
    rewrite <- (sum_c_mul (x k) (λ j, c_mul (a i j) (b j k))), Hab by lia.
    apply c_mul_comm. }
  rewrite sum_c_delta. by rewrite decide_True by lia.
Qed.

End Sums.

Section Matrices.
Context {C : Type} `{!Scalar C, !FFTBackend C, !ScalarLaws}.

Lemma div_mod_block (b N p : nat) :
  p < N → (b * N + p) / N = b ∧ (b * N + p) `mod` N = p.
Proof.
  intros Hp. split.
  - rewrite Nat.div_add_l by lia. rewrite Nat.div_small by lia. lia.
  - rewrite Nat.add_comm, Nat.Div0.mod_add. by apply Nat.mod_small.
Qed.

Lemma block_lt (b B N p : nat) : b < B → p < N → b * N + p < B * N.
Proof.
  intros Hb Hp. assert ((b + 1) * N ≤ B * N) by (apply Nat.mul_le_mono_r; lia). lia.
Qed.

Lemma length_matvec_data (m n N : nat) (a b : list C) :
  length (matvec_data m n N a b) = m * N.
Proof. unfold matvec_data. by rewrite length_fmap, length_seq. Qed.

Lemma matvec_data_get (m n N : nat) (a b : list C) (i p : nat) :
  i < m → p < N →
  get (matvec_data m n N a b) c_zero (i * N + p)
  = sum_c ((λ j, c_mul (get a c_zero ((i * n + j) * N + p)) (get b c_zero (j * N + p)))
             <$> seq 0 n).
Proof.
  intros Hi Hp. unfold matvec_data, get at 1.
  rewrite list_lookup_fmap, lookup_seq_lt by (by apply block_lt). simpl.
  by destruct (div_mod_block i N p Hp) as [-> ->].
Qed.

Lemma conj_transpose_data_get (n N : nat) (a : list C) (i j p : nat) :
  i < n → j < n → p < N →
  get (conj_transpose_data n n N a) c_zero ((i * n + j) * N + p)
  = c_conj (entry n N a j i p).
Proof.
  intros Hi Hj Hp. unfold conj_transpose_data, get at 1, entry.
  rewrite list_lookup_fmap, lookup_seq_lt by (apply block_lt; [by apply block_lt|done]).
  simpl.
  destruct (div_mod_block (i * n + j) N p Hp) as [-> ->].
  replace ((i * n + j) * N + p) with (i * (n * N) + (j * N + p)) by lia.
  destruct (div_mod_block i (n * N) (j * N + p)) as [-> _]; [by apply block_lt|].
  destruct (div_mod_block i n j Hj) as [_ ->]. done.
Qed.

(** A unitary matrix field and its conjugate transpose undo each other. *)
Lemma matvec_data_unitary (n N : nat) (T X : list C) (b : bool) :
  unitary_matrices n N T → length X = n * N →
  matvec_data n n N (if negb b then conj_transpose_data n n N T else T)
    (matvec_data n n N (if b then conj_transpose_data n n N T else T) X)
  = X.
Proof.
  intros Hu HX. etrans; [|apply (fmap_get_seq X c_zero)]. rewrite HX.
  unfold matvec_data at 1. apply list_fmap_ext. intros k' k Hk.
  apply lookup_seq in Hk as [Heq Hk]. simpl in Heq. subst k'. simpl.
  assert (0 < N) as HN by (destruct N; lia).
  assert (k / N < n) as Hi by (apply Nat.Div0.div_lt_upper_bound; lia).
  assert (k `mod` N < N) as Hp by (apply Nat.mod_upper_bound; lia).
  set (i := k / N) in *. set (p := k `mod` N) in *.
  assert (k = i * N + p) as Hkeq.
  { unfold i, p. pose proof (Nat.div_mod_eq k N). lia. }
  replace (get X c_zero k) with (get X c_zero (i * N + p)) by (by rewrite <- Hkeq).
  destruct b; simpl.
  - trans (sum_c ((λ j, c_mul (entry n N T i j p)
                     (sum_c ((λ q, c_mul (c_conj (entry n N T q j p)) (get X c_zero (q * N + p)))
                               <$> seq 0 n))) <$> seq 0 n)).
    { apply sum_c_ext. intros j Hj. apply elem_of_seq in Hj. f_equal.
      rewrite matvec_data_get by lia. apply sum_c_ext. intros q Hq.
      apply elem_of_seq in Hq. by rewrite conj_transpose_data_get by lia. }
    apply (sum_c_inverse n (λ i j, entry n N T i j p) (λ j q, c_conj (entry n N T q j p))
             (λ q, get X c_zero (q * N + p)) i Hi).
    intros q Hq. by apply Hu.
  - trans (sum_c ((λ j, c_mul (c_conj (entry n N T j i p))
                     (sum_c ((λ q, c_mul (entry n N T j q p) (get X c_zero (q * N + p)))
                               <$> seq 0 n))) <$> seq 0 n)).
    { apply sum_c_ext. intros j Hj. apply elem_of_seq in Hj.
      rewrite conj_transpose_data_get by lia. f_equal.
      by rewrite matvec_data_get by lia. }
    apply (sum_c_inverse n (λ i j, c_conj (entry n N T j i p)) (λ j q, entry n N T j q p)
             (λ q, get X c_zero (q * N + p)) i Hi).
    intros q Hq. by apply Hu.
Qed.

End Matrices.

Section Shifts.
Context {A : Type}.

Lemma chunks_fmap {B} (f : A → B) (m n : nat) (x : list A) :
  chunks m n (f <$> x) = fmap (M:=list) f <$> chunks m n x.
Proof.
  revert x. induction n as [|n IH]; intros x; [done|]. simpl.
  by rewrite <- fmap_drop, IH, fmap_take.
Qed.

Lemma concat_fmap {B} (f : A → B) (xs : list (list A)) :
  f <$> concat xs = concat (fmap (M:=list) f <$> xs).
Proof.
  induction xs as [|c xs IH]; [done|]. simpl. by rewrite fmap_app, IH.
Qed.

Lemma chunks_lookup (m n : nat) (x : list A) (b : nat) :
  b < n → chunks m n x !! b = Some (take m (drop (b * m) x)).
Proof.
  revert x b. induction n as [|n IH]; intros x b Hb; [lia|].
  destruct b as [|b]; simpl; [done|].
  rewrite IH by lia. by rewrite drop_drop.
Qed.

Lemma concat_lookup_uniform (m : nat) (xs : list (list A)) (b p : nat) (c : list A) :
  Forall (λ c, length c = m) xs → xs !! b = Some c → p < m →
  concat xs !! (b * m + p) = c !! p.
Proof.
  intros Hxs. revert b. induction Hxs as [|c' xs Hc _ IH]; intros b Hb Hp; [done|].
  destruct b as [|b]; simpl in *.
  - injection Hb as ->. by rewrite lookup_app_l by lia.
  - rewrite lookup_app_r by lia. rewrite <- (IH b Hb Hp). f_equal. lia.
Qed.

End Shifts.

Section ShiftIndex.

(** [ifftshift] moves samples around and does nothing else to them. *)
Lemma ifftshift_data_fmap {A B} (f : A → B) axes nd (sh : list nat) (x : list A) :
  ifftshift_data axes nd sh (f <$> x) = f <$> ifftshift_data axes nd sh x.
Proof.
  revert x. induction sh as [|n sh IH]; intros x; [done|]. simpl.
  rewrite chunks_fmap, <- list_fmap_compose.
  assert (ifftshift_data axes nd sh <$> (fmap (M:=list) f <$> chunks (prod_list sh) n x)
          = fmap (M:=list) f <$> (ifftshift_data axes nd sh <$> chunks (prod_list sh) n x)) as Heq.
  { rewrite <- !list_fmap_compose. apply list_fmap_ext. intros i c _. simpl. apply IH. }
  rewrite list_fmap_compose, Heq.
  case_decide; by rewrite ?rotate_fmap, concat_fmap.
Qed.

Lemma ifftshift_data_index {A} axes nd (sh : list nat) (x : list A) (d : A) :
  length x = prod_list sh →
  ifftshift_data axes nd sh x
  = get x d <$> ifftshift_data axes nd sh (seq 0 (prod_list sh)).
Proof.
  intros Hx. rewrite <- ifftshift_data_fmap, <- Hx. by rewrite fmap_get_seq.
Qed.

(** Along the axes that are not shifted the blocks stay where they are. *)
Lemma ifftshift_data_block {A} axes nd (ts gs : list nat) (x : list A) (b p : nat) :
  Forall (λ a, nd - length gs ≤ a) axes → length ts + length gs ≤ nd →
  length x = prod_list ts * prod_list gs → b < prod_list ts → p < prod_list gs →
  ifftshift_data axes nd (ts ++ gs) x !! (b * prod_list gs + p)
  = ifftshift_data axes nd gs (take (prod_list gs) (drop (b * prod_list gs) x)) !! p.
Proof.
  intros Hax. revert x b. induction ts as [|t r IH]; intros x b Hnd Hx Hb Hp.
  - assert (b = 0) as -> by (simpl in Hb; lia).
    simpl in Hx. rewrite drop_0, take_ge by lia. done.
  - simpl in Hnd, Hx, Hb. simpl app. cbn [ifftshift_data].
    set (N := prod_list gs) in *.
    assert (prod_list (r ++ gs) = prod_list r * N) as HM by apply prod_list_app.
    rewrite decide_False; last first.
    { intros Hin. apply (proj1 (Forall_forall _ _) Hax) in Hin.
      simpl in Hin. rewrite length_app in Hin. lia. }
    assert (0 < prod_list r) as Hr by (destruct (prod_list r); lia).
    assert (b / prod_list r < t) as Hb1 by (apply Nat.Div0.div_lt_upper_bound; lia).
    assert (b `mod` prod_list r < prod_list r) as Hb2 by (apply Nat.mod_upper_bound; lia).
    set (b1 := b / prod_list r) in *. set (b2 := b `mod` prod_list r) in *.
    assert (b = b1 * prod_list r + b2) as Hbeq.
    { unfold b1, b2. pose proof (Nat.div_mod_eq b (prod_list r)). lia. }
    set (chunk := take (prod_list (r ++ gs)) (drop (b1 * prod_list (r ++ gs)) x)).
    assert (length chunk = prod_list r * N) as Hchunk.
    { unfold chunk. rewrite length_take, length_drop, HM.
      assert ((b1 + 1) * (prod_list r * N) ≤ t * (prod_list r * N))
        by (apply Nat.mul_le_mono_r; lia). lia. }
    replace (b * N + p) with (b1 * prod_list (r ++ gs) + (b2 * N + p))
      by (rewrite HM, Hbeq; lia).
    rewrite (concat_lookup_uniform (prod_list (r ++ gs)) _ b1 (b2 * N + p)
               (ifftshift_data axes nd (r ++ gs) chunk)).
    + rewrite IH by (try done; lia).
      f_equal. f_equal. unfold chunk.
      rewrite skipn_firstn_comm, take_take, drop_drop, HM.
      assert ((b2 + 1) * N ≤ prod_list r * N) by (apply Nat.mul_le_mono_r; lia).
      rewrite Nat.min_l by lia. f_equal. f_equal. rewrite Hbeq. lia.
    + apply Forall_fmap. eapply Forall_impl.
      { apply chunks_lengths. rewrite Hx, HM. lia. }
      simpl. intros c Hc. by apply length_ifftshift_data.
    + rewrite list_lookup_fmap, chunks_lookup by done. done.
    + rewrite HM. by apply block_lt.
Qed.

(** The shift over the grid axes of an array of shape [ts ++ gs] is one
    and the same rearrangement of the grid points for every tensor
    component. *)
Lemma ifftshift_data_points {A} axes nd (ts gs : list nat) :
  Forall (λ a, nd - length gs ≤ a) axes → length ts + length gs ≤ nd →
  ∃ π : nat → nat,
    (∀ p, p < prod_list gs → π p < prod_list gs)
    ∧ ∀ (x : list A) (d : A) b p,
        length x = prod_list ts * prod_list gs → b < prod_list ts → p < prod_list gs →
        get (ifftshift_data axes nd (ts ++ gs) x) d (b * prod_list gs + p)
        = get x d (b * prod_list gs + π p).
Proof.
  intros Hax Hnd.
  set (πl := ifftshift_data axes nd gs (seq 0 (prod_list gs))).
  assert (length πl = prod_list gs) as Hlen.
  { apply length_ifftshift_data. by rewrite length_seq. }
  assert (Forall (λ q, q < prod_list gs) πl) as Hπ.
  { apply Forall_ifftshift_data, Forall_forall. intros q Hq.
    apply elem_of_seq in Hq. lia. }
  exists (λ p, get πl 0 p). split.
  - intros p Hp.
    destruct (lookup_lt_is_Some_2 πl p) as [q Hq]; [lia|].
    rewrite (get_lookup _ _ _ _ Hq). by apply (Forall_lookup_1 _ _ _ _ Hπ Hq).
  - intros x d b p Hx Hb Hp. unfold get at 1.
    rewrite ifftshift_data_block by done.
    set (c := take (prod_list gs) (drop (b * prod_list gs) x)).
    assert (length c = prod_list gs) as Hc.
    { unfold c. rewrite length_take, length_drop, Hx.
      assert ((b + 1) * prod_list gs ≤ prod_list ts * prod_list gs)
        by (apply Nat.mul_le_mono_r; lia). lia. }
    rewrite (ifftshift_data_index axes nd gs c d Hc). fold πl.
    rewrite list_lookup_fmap.
    destruct (lookup_lt_is_Some_2 πl p) as [q Hq]; [lia|].
    rewrite Hq, (get_lookup _ _ _ _ Hq). simpl.
    assert (q < prod_list gs) as HqN by (by apply (Forall_lookup_1 _ _ _ _ Hπ Hq)).
    unfold get, c. by rewrite lookup_take_lt, lookup_drop by done.
Qed.

End ShiftIndex.

(** *** Running [_operation] without padding *)

Section UnpaddedRuns.
Context {C : Type} `{!Scalar C, !FFTBackend C}.

#[local] Abbreviation M := (@M C).

Lemma source_same (self self' : FourierFilter C) :
  same_config self self' →
  source_shape self' = source_shape self
  ∧ source_dtype self' = source_dtype self
  ∧ source_grid self' = source_grid self
  ∧ ∀ σ, source_samples σ self' = source_samples σ self.
Proof.
  intros (_ & Hg & _ & Ht).
  unfold source_shape, source_dtype, source_grid, source_samples. by rewrite Ht, Hg.
Qed.

Lemma shifted_samples_same (self self' : FourierFilter C) sh g (x : list C) :
  same_config self self' → shifted_samples self' sh g x = shifted_samples self sh g x.
Proof. intros (Hi & _). unfold shifted_samples. by rewrite Hi. Qed.

(** The cache after [refresh_transfer_function]: the samples of the
    transfer function, shifted and cast to the dtype of the field. *)
Lemma refresh_transfer_function_cached (self : FourierFilter C) field (σ : @pystate C)
    (x : list C) :
  wf_source σ self → source_samples σ self = Some x → cache_valid σ self x →
  ∃ self' h evs tfc,
    refresh_transfer_function self field σ = (Return self', PyState h (trace σ ++ evs))
    ∧ same_config self self'
    ∧ internal_array self' = internal_array self
    ∧ (∀ l, l < length (heap σ) → h !! l = heap σ !! l)
    ∧ length (heap σ) ≤ length h
    ∧ _transfer_function self' = Some tfc
    ∧ adtype tfc = fdtype field
    ∧ shape tfc = py_take_to (-1) (source_shape self) ++ g_shape (source_grid self)
    ∧ h !! buf tfc
      = Some (cast_samples (source_dtype self) (fdtype field)
                (shifted_samples self (source_shape self) (source_grid self) x)).
Proof.
  intros Hsrc Hx Hcache.
  destruct (refresh_transfer_function_spec self field σ Hsrc)
    as (self' & h & evs & Hrun & Hia & Hig & Hold & Hlen & Hfresh & Hstale).
  destruct (cache_stale self field) eqn:Hs.
  - destruct (Hstale eq_refl) as [Hgen Hfld].
    assert (same_config self self') as Hsame.
    { unfold refresh_transfer_function in Hrun. rewrite Hs in Hrun.
      repeat (apply bind_inv in Hrun as [(? & ? & _ & Hrun)|(? & _ & [=])]).
      injection Hrun as <- _. done. }
    unfold source_shape, source_dtype, source_grid.
    unfold source_samples in Hx.
    destruct (transfer_function self) as [gen|f] eqn:Hsrceq.
    + destruct (Hgen gen eq_refl) as [-> (tf & Hc & Hd & Hsh & Hb & Hl)].
      injection Hx as <-.
      eexists self', h, _, tf. by repeat (split; [done|]).
    + destruct (Hfld f eq_refl) as [-> (tf & x' & Hc & Hd & Hsh & Hb & Hx' & Hl)].
      rewrite Hx in Hx'. injection Hx' as <-.
      eexists self', h, _, tf. by repeat (split; [done|]).
  - destruct (Hfresh eq_refl) as (-> & -> & ->).
    unfold cache_stale in Hs.
    destruct (_transfer_function self) as [tf|] eqn:Htf; [|done].
    apply bool_decide_eq_false in Hs. apply dec_stable in Hs.
    destruct (Hcache tf Htf) as [Hsh Hb]. rewrite Hs in Hb.
    exists self, (heap σ), [], tf. split; [done|].
    split; [by repeat split|]. by repeat (split; [done|]).
Qed.

(** The state [_compute_functions] leaves for the rest of [_operation]. *)
Lemma compute_functions_cached (self : FourierFilter C) (field : Field C) (σ : @pystate C)
    (x : list C) :
  wf_source σ self → wf_grid (internal_grid self) →
  source_samples σ self = Some x → cache_valid σ self x →
  ∃ self' σ1 tfc,
    _compute_functions self field σ = (Return self', σ1)
    ∧ same_config self self'
    ∧ _transfer_function self' = Some tfc
    ∧ adtype tfc = fdtype field
    ∧ shape tfc = py_take_to (-1) (source_shape self) ++ g_shape (source_grid self)
    ∧ heap σ1 !! buf tfc
      = Some (cast_samples (source_dtype self) (fdtype field)
                (shifted_samples self (source_shape self) (source_grid self) x))
    ∧ length (heap σ) ≤ length (heap σ1)
    ∧ (∀ l y, heap σ !! l = Some y → heap σ1 !! l = Some y).
Proof.
  intros Hsrc Hgint Hx Hcache.
  destruct (refresh_transfer_function_cached self field σ x Hsrc Hx Hcache)
    as (selfA & h & evs & tfc & HrunA & Hsame & Hia & Hold & Hlen & Htfc & Hdt & Hsh & HT).
  pose proof Hsame as (HsI & HsG & HsC & HsT).
  assert (∀ l y, heap σ !! l = Some y → h !! l = Some y) as Hold'.
  { intros l y Hl. rewrite Hold; [done|]. by eapply lookup_lt_Some. }
  unfold _compute_functions. rewrite (bind_run _ _ _ _ _ HrunA).
  destruct (recompute_internal_array selfA field) eqn:Hr.
  - rewrite refresh_internal_array_alloc by (rewrite ?HsG; done).
    eexists _, _, tfc. split; [done|]. simpl.
    split; [done|]. split; [done|]. split; [done|]. split; [done|].
    split; [by apply lookup_snoc_old|].
    split; [rewrite length_app; lia|].
    intros l y Hl. by apply lookup_snoc_old, Hold'.
  - rewrite refresh_internal_array_keep by done.
    eexists _, _, tfc. by repeat (split; [done|]).
Qed.

End UnpaddedRuns.

Section MatrixRuns.
Context {C : Type} `{!Scalar C, !FFTBackend C}.

#[local] Abbreviation M := (@M C).

(** The matrix branch of [apply_transfer_function] on the transformed
    field: the product is a new buffer, the last one of the store. *)
Lemma apply_transfer_function_matrix_run
    (self : FourierFilter C) (tfc f : ndarray) (adjoint : bool) (σ : @pystate C)
    (n : nat) (T F : list C) :
  wf_grid (internal_grid self) →
  shape tfc = [n; n] ++ g_shape (internal_grid self) →
  shape f = [n] ++ g_shape (internal_grid self) →
  heap σ !! buf tfc = Some T → heap σ !! buf f = Some F →
  let N := g_size (internal_grid self) in
  let T' := if adjoint then conj_transpose_data n n N T else T in
  let h := if adjoint then heap σ ++ [T'] else heap σ in
  apply_transfer_function self tfc f adjoint σ
  = (Return (NDArray ([n] ++ g_shape (internal_grid self))
               (result_type (adtype tfc) (adtype f)) (length h)),
     PyState (h ++ [matvec_data n n N T' F]) (trace σ)).
Proof.
  intros Hg Htfc Hf HT HF N T' h. pose proof Hg as (Hpos & Hlen & Hprod).
  assert (ndim tfc = g_ndim (internal_grid self) + 2) as Hnd.
  { unfold ndim. rewrite Htfc, length_app, Hlen. simpl. lia. }
  unfold apply_transfer_function. rewrite (proj2 (is_matrix_field_iff _ _) Hnd).
  rewrite Hf, Htfc, !py_take_to_grid by done.
  erewrite bind_run; last first.
  { apply np_reshape_run. rewrite Hf.
    apply (resolve_shape_exact _ [n; g_size (internal_grid self)]).
    rewrite prod_list_app, Hprod. simpl. lia. }
  erewrite bind_run; last first.
  { apply np_reshape_run. rewrite Htfc.
    apply (resolve_shape_exact _ [n; n; g_size (internal_grid self)]).
    rewrite prod_list_app, Hprod. simpl. lia. }
  subst T' h. destruct adjoint.
  - erewrite bind_run; last first.
    { by apply field_conjugate_transpose_run. }
    erewrite bind_run; last first.
    { apply field_dot_run; simpl; try done.
      - by rewrite lookup_snoc_here.
      - by apply lookup_snoc_old. }
    rewrite shaped_run; [|done|done]. done.
  - erewrite bind_run; [|done].
    erewrite bind_run; last first.
    { by apply field_dot_run. }
    rewrite shaped_run; [|done|done]. done.
Qed.

Lemma operation_tail_unpadded_matrix
    (self self' : FourierFilter C) (field : Field C) adjoint (σ σ1 : @pystate C)
    (tfc : ndarray) (n : nat) (T F : list C) :
  _compute_functions self field σ = (Return self', σ1) →
  cutout self' = None →
  wf_grid (grid field) → wf_flat (shape (fdata field)) (grid field) →
  wf_grid (internal_grid self') →
  g_ndim (input_grid self') = g_ndim (grid field) →
  g_ndim (internal_grid self') = g_ndim (grid field) →
  g_shape (internal_grid self') = g_shape (grid field) →
  tensor_shape field = [n] →
  _transfer_function self' = Some tfc →
  shape tfc = [n; n] ++ g_shape (grid field) →
  heap σ1 !! buf tfc = Some T →
  heap σ1 !! buf (fdata field) = Some F →
  ∃ res σ',
    _operation self field adjoint σ = (Return (MkField res (input_grid self'), self'), σ')
    ∧ shape res = tensor_shape field ++ [g_size (grid field)]
    ∧ adtype res = fft_dtype (result_type (adtype tfc) (fft_dtype (fdtype field)))
    ∧ length (heap σ1) < length (heap σ')
    ∧ length (heap σ1) ≤ buf res
    ∧ (∀ l y, l < length (heap σ1) → heap σ1 !! l = Some y → heap σ' !! l = Some y)
    ∧ heap σ' !! buf res
      = Some (filtered_matrix_samples n (g_shape (grid field)) (g_ndim (grid field))
                adjoint T F).
Proof.
  intros Hcf Hcut Hg [Hlast Hts] Hgi Hndi Hndg Hgs Htsn Htfc Hshape HT HF.
  pose proof Hg as (Hpos & Hlen & Hprod).
  pose proof Hgi as (_ & _ & Hprodi).
  assert (g_size (internal_grid self') = prod_list (g_shape (grid field))) as HN.
  { by rewrite <- Hprodi, Hgs. }
  unfold _operation. rewrite (bind_run _ _ _ _ _ Hcf).
  rewrite Htfc. simpl. erewrite bind_run; [|done].
  rewrite Hcut.
  erewrite bind_run; last first.
  { erewrite bind_run; [|by apply shaped_run]. done. }
  simpl. rewrite Htsn.
  set (sh := [n] ++ g_shape (grid field)).
  set (ax := seq (length sh - g_ndim (grid field)) (g_ndim (grid field))).
  assert (norm_axes (length sh) (grid_axes self') = Some ax) as Hax.
  { unfold grid_axes. rewrite Hndi. apply norm_axes_range.
    unfold sh. rewrite length_app. lia. }
  erewrite bind_run; last first.
  { unfold fftn. by eapply fft_call_run. }
  simpl.
  set (X1 := fft_data false sh ax F).
  erewrite bind_run; last first.
  { apply (apply_transfer_function_matrix_run self' tfc _ adjoint _ n T X1); simpl.
    - done.
    - by rewrite Hgs.
    - by rewrite Hgs.
    - by apply lookup_snoc_old.
    - by apply lookup_snoc_here. }
  simpl. rewrite Hgs. fold sh.
  assert (resolve_shape (prod_list sh)
            ((Z.of_nat <$> py_take_to (- Z.of_nat (g_ndim (internal_grid self'))) sh)
               ++ [(-1)%Z])
          = Some (tensor_shape field ++ [g_size (grid field)])) as Hres.
  { rewrite Hndg. unfold sh. rewrite py_take_to_grid by done.
    rewrite prod_list_app, Hprod, Htsn. apply resolve_shape_infer.
    fold (tensor_shape field) in Hts. rewrite Htsn in Hts. done. }
  unfold filtered_matrix_samples. fold sh ax X1. rewrite HN.
  destruct adjoint.
  - erewrite bind_run; last first.
    { unfold ifftn. eapply fft_call_run; simpl; [|done].
      apply lookup_snoc_at. by rewrite !length_app. }
    simpl.
    erewrite bind_run; last first.
    { apply np_reshape_run. simpl. done. }
    eexists _, _. split; [done|]. simpl.
    split; [by rewrite Htsn|]. split; [done|].
    rewrite length_insert, !length_app. simpl. split; [lia|]. split; [lia|]. split.
    + intros l y Hl Hy.
      rewrite list_lookup_insert_ne by lia.
      by do 4 apply lookup_snoc_old.
    + rewrite list_lookup_insert_ne by lia.
      apply lookup_snoc_at. by rewrite !length_app.
  - erewrite bind_run; last first.
    { unfold ifftn. eapply fft_call_run; simpl; [|done].
      apply lookup_snoc_at. by rewrite !length_app. }
    simpl.
    erewrite bind_run; last first.
    { apply np_reshape_run. simpl. done. }
    eexists _, _. split; [done|]. simpl.
    split; [by rewrite Htsn|]. split; [done|].
    rewrite length_insert, !length_app. simpl. split; [lia|]. split; [lia|]. split.
    + intros l y Hl Hy.
      rewrite list_lookup_insert_ne by lia.
      by do 3 apply lookup_snoc_old.
    + rewrite list_lookup_insert_ne by lia.
      apply lookup_snoc_at. by rewrite !length_app.
Qed.

End MatrixRuns.

Section UnpaddedOperation.
Context {C : Type} `{!Scalar C, !FFTBackend C}.

#[local] Abbreviation M := (@M C).

(** [_operation] without padding, for both kinds of transfer function:
    the result, and the filter it leaves behind. *)
Lemma operation_run_unpadded (k : tf_kind) (self : FourierFilter C) (field : Field C)
    adjoint (σ : @pystate C) (x F : list C) :
  unpadded_filter k σ self x → wf_field σ field → grid field = input_grid self →
  field_of_kind k field → heap σ !! buf (fdata field) = Some F →
  ∃ res self' σ',
    _operation self field adjoint σ = (Return (MkField res (input_grid self), self'), σ')
    ∧ same_config self self'
    ∧ unpadded_filter k σ' self' x
    ∧ shape res = shape (fdata field)
    ∧ (∃ d, adtype res = fft_dtype d)
    ∧ buf res < length (heap σ')
    ∧ heap σ' !! buf res
      = Some (unpadded_samples k (tensor_shape field) (g_shape (input_grid self))
                (g_ndim (input_grid self)) adjoint
                (cast_samples (source_dtype self) (fdtype field)
                   (shifted_samples self (source_shape self) (source_grid self) x))
                F).
Proof.
  intros (Hgin & Hgint & Hnd & Hgs & Hcut & Hsrc & Hss & Hsg & Hx & Hlx & Hcache)
    (Hgf & [Hlast Hts] & Hbf) Hgrid Hkind HF.
  destruct (compute_functions_cached self field σ x Hsrc Hgint Hx Hcache)
    as (self' & σ1 & tfc & Hcf & Hsame & Htfc & Hdt & Hsh & HT & Hlen1 & Hold1).
  pose proof Hsame as (HsI & HsG & HsC & HsT).
  destruct (source_same self self' Hsame) as (Hss' & Hsd' & Hsg' & Hsx').
  assert (shape (fdata field) = tensor_shape field ++ [g_size (grid field)]) as Hshf.
  { by apply last_split. }
  set (T := cast_samples (source_dtype self) (fdtype field)
              (shifted_samples self (source_shape self) (source_grid self) x)) in *.
  assert (∃ res σ',
    _operation self field adjoint σ = (Return (MkField res (input_grid self'), self'), σ')
    ∧ shape res = tensor_shape field ++ [g_size (grid field)]
    ∧ (∃ d, adtype res = fft_dtype d)
    ∧ length (heap σ1) < length (heap σ')
    ∧ length (heap σ1) ≤ buf res
    ∧ (∀ l y, l < length (heap σ1) → heap σ1 !! l = Some y → heap σ' !! l = Some y)
    ∧ heap σ' !! buf res
      = Some (unpadded_samples k (tensor_shape field) (g_shape (input_grid self))
                (g_ndim (input_grid self)) adjoint T F))
    as (res & σ' & Hrun & Hshr & Hdr & Hlen2 & Hbr & Hold2 & Hdata).
  { destruct k as [|n].
    - destruct (operation_tail_unpadded self self' field adjoint σ σ1 tfc T F Hcf)
        as (res & σ' & Hrun & Hshr & Hdr & Hlen2 & Hbr & Hold2 & Hdata); try done.
      + by rewrite HsC.
      + by rewrite HsG.
      + by rewrite HsI, Hgrid.
      + by rewrite HsG, Hnd, Hgrid.
      + rewrite Hsh, Hss, py_take_to_last, Hsg, Hgs, Hgrid. done.
      + by apply Hold1.
      + exists res, σ'. split; [done|]. split; [done|]. split; [eauto|].
        split; [done|]. split; [done|]. split; [done|].
        rewrite Hdata. simpl. by rewrite Hgrid.
    - simpl in Hkind.
      destruct (operation_tail_unpadded_matrix self self' field adjoint σ σ1 tfc n T F Hcf)
        as (res & σ' & Hrun & Hshr & Hdr & Hlen2 & Hbr & Hold2 & Hdata); try done.
      + by rewrite HsC.
      + by rewrite HsG.
      + by rewrite HsI, Hgrid.
      + by rewrite HsG, Hnd, Hgrid.
      + by rewrite HsG, Hgs, Hgrid.
      + rewrite Hsh, Hss, py_take_to_last, Hsg, Hgs, Hgrid. done.
      + by apply Hold1.
      + exists res, σ'. split; [done|]. split; [done|]. split; [eauto|].
        split; [done|]. split; [done|]. split; [done|].
        rewrite Hdata. simpl. by rewrite Hgrid. }
  assert (∀ l y, heap σ !! l = Some y → heap σ' !! l = Some y) as Hold.
  { intros l y Hl. apply Hold2; [|by apply Hold1].
    apply Hold1 in Hl. by eapply lookup_lt_Some. }
  exists res, self', σ'. rewrite <- HsI. split; [done|]. split; [done|]. split.
  { unfold unpadded_filter. rewrite HsI, HsG, HsC, Hss', Hsg', Hsx'.
    split; [done|]. split; [done|]. split; [done|]. split; [done|]. split; [done|].
    split.
    { eapply (wf_source_mono self); [done..| |done]. lia. }
    split; [done|]. split; [done|]. split.
    { unfold source_samples in *. destruct (transfer_function self); [done|]. by apply Hold. }
    split; [done|].
    intros tf Heq. rewrite Htfc in Heq. injection Heq as <-.
    rewrite Hss', Hsd', Hsg', Hdt, (shifted_samples_same self self') by done.
    split; [done|]. apply Hold2; [by eapply lookup_lt_Some|done]. }
  split; [by rewrite Hshf|]. split; [done|]. split; [by eapply lookup_lt_Some|].
  by rewrite HsI.
Qed.

End UnpaddedOperation.

Section UnitaryRoundTrip.
Context {C : Type} `{!Scalar C, !FFTBackend C, !ScalarLaws}.

Lemma wf_source_grid (self : FourierFilter C) (σ : @pystate C) :
  wf_source σ self →
  wf_grid (source_grid self) ∧ g_ndim (source_grid self) = g_ndim (input_grid self).
Proof.
  unfold wf_source, source_grid. destruct (transfer_function self) as [gen|f].
  - by intros [[? _] ?].
  - by intros [[? _] ?].
Qed.

(** Shifting the samples of a unitary matrix field along the grid axes
    leaves a unitary matrix at every point. *)
Lemma ifftshift_data_unitary (n : nat) (gs : list nat) (x : list C) :
  length x = prod_list ([n; n] ++ gs) →
  unitary_matrices n (prod_list gs) x →
  unitary_matrices n (prod_list gs)
    (ifftshift_data (seq (length ([n; n] ++ gs) - length gs) (length gs))
       (length ([n; n] ++ gs)) ([n; n] ++ gs) x).
Proof.
  intros Hx Hu.
  destruct (ifftshift_data_points (A:=C)
              (seq (length ([n; n] ++ gs) - length gs) (length gs))
              (length ([n; n] ++ gs)) [n; n] gs) as (π & Hπ & Hget).
  { apply Forall_forall. intros a Ha. apply elem_of_seq in Ha. lia. }
  { by rewrite length_app. }
  set (S := ifftshift_data _ _ _ x) in *.
  assert (∀ i j p, i < n → j < n → p < prod_list gs →
            entry n (prod_list gs) S i j p = entry n (prod_list gs) x i j (π p)) as Hentry.
  { intros i j p Hi Hj Hp. unfold entry, S. apply Hget; [|simpl|done].
    - rewrite Hx, prod_list_app. done.
    - rewrite Nat.mul_1_r. by apply block_lt. }
  intros p i k Hp Hi Hk.
  destruct (Hu (π p) i k (Hπ p Hp) Hi Hk) as [H1 H2]. split.
  - rewrite <- H1. apply sum_c_ext. intros j Hj. apply elem_of_seq in Hj.
    by rewrite !Hentry by lia.
  - rewrite <- H2. apply sum_c_ext. intros j Hj. apply elem_of_seq in Hj.
    by rewrite !Hentry by lia.
Qed.

(** The samples of a unitary transfer function stay unitary when they
    are shifted for the cache. *)
Lemma shifted_samples_unitary (k : tf_kind) (self : FourierFilter C) (σ : @pystate C)
    (x : list C) :
  unpadded_filter k σ self x → unitary_tf k (g_size (source_grid self)) x →
  let S := shifted_samples self (source_shape self) (source_grid self) x in
  let gs := g_shape (input_grid self) in
  match k with
  | ScalarTF => length S = prod_list gs ∧ unit_modulus S
  | MatrixTF n => unitary_matrices n (prod_list gs) S
  end.
Proof.
  intros (Hgin & Hgint & Hnd & Hgs & Hcut & Hsrc & Hss & Hsg & Hx & Hlx & Hcache) Hu S gs.
  destruct (wf_source_grid self σ Hsrc) as [(_ & Hlsg & Hpsg) Hndsg].
  assert (g_shape (source_grid self) = gs) as Hsgs by (by rewrite Hsg, Hgs).
  assert (length gs = g_ndim (input_grid self)) as Hlgs by (by rewrite <- Hsgs, Hlsg).
  assert (prod_list gs = g_size (source_grid self)) as Hpgs by (by rewrite <- Hsgs).
  unfold S, shifted_samples. rewrite Hss, py_take_to_last, Hsgs, <- Hlgs.
  rewrite Hss, prod_list_app in Hlx. simpl in Hlx.
  destruct k as [|n]; simpl in *.
  - split; [|by apply Forall_ifftshift_data].
    apply length_ifftshift_data. lia.
  - rewrite <- Hpgs in Hu.
    apply (ifftshift_data_unitary n gs x); [|done].
    rewrite prod_list_app. simpl. lia.
Qed.

Lemma unpadded_samples_round_trip (k : tf_kind) (ts gs : list nat) (nd : nat)
    (T F : list C) (b : bool) :
  fft_inverse_pair (ts ++ gs) (seq (length (ts ++ gs) - nd) nd) →
  length F = prod_list (ts ++ gs) →
  match k with
  | ScalarTF => length T = prod_list gs ∧ unit_modulus T
  | MatrixTF n => ts = [n] ∧ unitary_matrices n (prod_list gs) T
  end →
  unpadded_samples k ts gs nd (negb b) T (unpadded_samples k ts gs nd b T F) = F.
Proof.
  intros Hfft HF HT. destruct k as [|n]; simpl.
  - destruct HT as [HT Hu]. by apply filtered_samples_round_trip.
  - destruct HT as [-> Hu]. destruct Hfft as (_ & Hlen & Hif & Hfi).
    unfold filtered_matrix_samples.
    assert (prod_list ([n] ++ gs) = n * prod_list gs) as Hp by (simpl; lia).
    rewrite Hfi by (by rewrite length_matvec_data).
    rewrite matvec_data_unitary; [by apply Hif|done|].
    rewrite Hlen by done. done.
Qed.

End UnitaryRoundTrip.

Section RoundTripTheorem.
Context {C : Type} `{!Scalar C, !FFTBackend C, !ScalarLaws}.

(** C2, as amended: for a filter without padding whose transfer function
    is unitary at every sample point (a scalar of modulus one, or a
    matrix [M] with [M^H M = M M^H = I]), and for every field of complex
    dtype on its input grid (of vectors, when the transfer function is a
    matrix), in exact arithmetic and with transforms that are inverse to
    each other, [backward] after [forward] ([b] false) and [forward]
    after [backward] ([b] true) give back the samples of the field, on
    the same grid and with the same shape, and leave the filter fit for
    the next call. *)
Theorem filter_round_trip_unitary
    (k : tf_kind) (self : FourierFilter C) (field : Field C) (b : bool)
    (σ : @pystate C) (x F : list C) :
  unpadded_filter k σ self x →
  unitary_tf k (g_size (source_grid self)) x →
  wf_field σ field → grid field = input_grid self → field_of_kind k field →
  is_complex (fdtype field) = true →
  heap σ !! buf (fdata field) = Some F →
  length F = prod_list (shape (fdata field)) →
  fft_inverse_pair (tensor_shape field ++ g_shape (input_grid self))
    (seq (length (tensor_shape field)) (g_ndim (input_grid self))) →
  ∃ f1 self1 σ1 f2 self2 σ2,
    _operation self field b σ = (Return (f1, self1), σ1)
    ∧ _operation self1 f1 (negb b) σ1 = (Return (f2, self2), σ2)
    ∧ grid f2 = grid field
    ∧ shape (fdata f2) = shape (fdata field)
    ∧ heap σ2 !! buf (fdata f2) = Some F
    ∧ unpadded_filter k σ2 self2 x.
Proof.
  intros Hwf Hunit Hwff Hgrid Hkind Hcplx HF HlenF Hfft.
  pose proof (shifted_samples_unitary k self σ x Hwf Hunit) as HS. simpl in HS.
  pose proof Hwf as (Hgin & _).
  pose proof Hwff as (Hgf & [Hlast Hts] & Hbf).
  fold (tensor_shape field) in Hts.
  set (ts := tensor_shape field) in *.
  set (gs := g_shape (input_grid self)) in *.
  set (S := shifted_samples self (source_shape self) (source_grid self) x) in *.
  assert (length gs = g_ndim (input_grid self)) as Hlgs by (by destruct Hgin as (_ & ? & _)).
  assert (prod_list gs = g_size (input_grid self)) as Hpgs by (by destruct Hgin as (_ & _ & ?)).
  assert (shape (fdata field) = ts ++ [g_size (input_grid self)]) as Hshf.
  { rewrite <- Hgrid. by apply last_split. }
  replace (seq (length ts) (g_ndim (input_grid self)))
    with (seq (length (ts ++ gs) - g_ndim (input_grid self)) (g_ndim (input_grid self)))
    in Hfft by (f_equal; rewrite length_app; lia).
  (* first call *)
  destruct (operation_run_unpadded k self field b σ x F Hwf Hwff Hgrid Hkind HF)
    as (res1 & self1 & σ1 & Hrun1 & Hsame1 & Hwf1 & Hsh1 & [d1 Hd1] & Hb1 & Hdata1).
  rewrite cast_samples_complex in Hdata1 by done. fold ts gs S in Hdata1.
  pose proof Hsame1 as (HsI & HsG & HsC & HsT).
  destruct (source_same self self1 Hsame1) as (Hss1 & Hsd1 & Hsg1 & _).
  (* second call *)
  set (f1 := MkField res1 (input_grid self)).
  assert (tensor_shape f1 = ts) as Hts1.
  { unfold tensor_shape at 1. simpl. by rewrite Hsh1. }
  assert (wf_field σ1 f1) as Hwff1.
  { split; [done|]. split; [|done].
    split; simpl; rewrite Hsh1; [by rewrite <- Hgrid|done]. }
  assert (field_of_kind k f1) as Hkind1.
  { destruct k; [done|]. simpl in *. by rewrite Hts1. }
  destruct (operation_run_unpadded k self1 f1 (negb b) σ1 x _ Hwf1 Hwff1 (eq_sym HsI)
              Hkind1 Hdata1)
    as (res2 & self2 & σ2 & Hrun2 & Hsame2 & Hwf2 & Hsh2 & _ & _ & Hdata2).
  rewrite cast_samples_complex in Hdata2
    by (unfold fdtype, f1; simpl; rewrite Hd1; apply Hfft).
  rewrite Hts1, HsI, Hss1, Hsg1, (shifted_samples_same self self1) in Hdata2 by done.
  fold gs S in Hdata2.
  rewrite unpadded_samples_round_trip in Hdata2; [|done| |].
  - exists f1, self1, σ1, (MkField res2 (input_grid self1)), self2, σ2.
    split; [done|]. split; [done|]. split; [simpl; congruence|].
    split; [simpl; by rewrite Hsh2|]. split; [done|]. done.
  - rewrite HlenF, Hshf, !prod_list_app. simpl. lia.
  - destruct k as [|n]; [done|]. by split.
Qed.

End RoundTripTheorem.

(** ** The properties on concrete inputs *)

Section ExactLaws.
Import Exact.

Lemma gq_mul_assoc (x y z : GQ) : gq_mul (gq_mul x y) z = gq_mul x (gq_mul y z).
Proof. destruct x, y, z. unfold gq_mul. simpl. f_equal; ring. Qed.

Lemma gq_mul_comm (x y : GQ) : gq_mul x y = gq_mul y x.
Proof. destruct x, y. unfold gq_mul. simpl. f_equal; ring. Qed.

Lemma gq_mul_one (x : GQ) : gq_mul x (gq 1 0) = x.
Proof.
  destruct x as [a b]. unfold gq_mul, gq. simpl.
  change (Q2Qc (inject_Z 1)) with 1%Qc. change (Q2Qc (inject_Z 0)) with 0%Qc.
  f_equal; ring.
Qed.

#[local] Instance gq_laws : ScalarLaws (C:=GQ).
Proof.
  split.
  - apply gq_mul_assoc.
  - apply gq_mul_comm.
  - apply gq_mul_one.
  - intros [] [] []. simpl. unfold gq_add. simpl. f_equal; ring.
  - intros [] []. simpl. unfold gq_add. simpl. f_equal; ring.
  - intros []. simpl. unfold gq_add, gq. simpl.
    change (Q2Qc (inject_Z 0)) with 0%Qc. f_equal; ring.
  - intros [] [] []. simpl. unfold gq_add, gq_mul. simpl. f_equal; ring.
  - intros []. simpl. unfold gq_mul, gq. simpl.
    change (Q2Qc (inject_Z 0)) with 0%Qc. f_equal; ring.
  - intros d x Hd. simpl. unfold gq_cast. by rewrite Hd.
Qed.

Lemma gq_half_add_sub (a b : GQ) :
  gq_half (gq_add (gq_add a b) (gq_sub a b)) = a
  ∧ gq_half (gq_sub (gq_add a b) (gq_sub a b)) = b
  ∧ gq_add (gq_half (gq_add a b)) (gq_half (gq_sub a b)) = a
  ∧ gq_sub (gq_half (gq_add a b)) (gq_half (gq_sub a b)) = b.
Proof.
  destruct a as [a1 a2], b as [b1 b2]. unfold gq_half, gq_add, gq_sub. simpl.
  repeat split; f_equal; field; discriminate.
Qed.

Lemma dft_two_points (inverse : bool) (a b : GQ) :
  dft inverse [2] [0] [a; b]
  = if inverse then [gq_half (gq_add a b); gq_half (gq_sub a b)]
    else [gq_add a b; gq_sub a b].
Proof. by destruct inverse. Qed.

Lemma dft_inverse_pair : fft_inverse_pair (C:=GQ) [2] [0].
Proof.
  split; [by intros []|]. split; [|split].
  - intros inv x Hx. by destruct x as [|a [|b [|? ?]]].
  - intros x Hx. destruct x as [|a [|b [|? ?]]]; try done.
    change (@fft_data GQ gq_fft) with dft. rewrite !dft_two_points.
    destruct (gq_half_add_sub a b) as (-> & -> & _). done.
  - intros x Hx. destruct x as [|a [|b [|? ?]]]; try done.
    change (@fft_data GQ gq_fft) with dft. rewrite !dft_two_points.
    destruct (gq_half_add_sub a b) as (_ & _ & -> & ->). done.
Qed.

Lemma dft_two_vectors (inverse : bool) (a b c d : GQ) :
  dft inverse [2; 2] [1] [a; b; c; d]
  = if inverse
    then [gq_half (gq_add a b); gq_half (gq_sub a b);
          gq_half (gq_add c d); gq_half (gq_sub c d)]
    else [gq_add a b; gq_sub a b; gq_add c d; gq_sub c d].
Proof. by destruct inverse. Qed.

Lemma dft_inverse_pair_vectors : fft_inverse_pair (C:=GQ) [2; 2] [1].
Proof.
  split; [by intros []|]. split; [|split].
  - intros inv x Hx. by destruct x as [|a [|b [|c [|d [|? ?]]]]].
  - intros x Hx. destruct x as [|a [|b [|c [|d [|? ?]]]]]; try done.
    change (@fft_data GQ gq_fft) with dft. rewrite !dft_two_vectors.
    destruct (gq_half_add_sub a b) as (-> & -> & _).
    destruct (gq_half_add_sub c d) as (-> & -> & _). done.
  - intros x Hx. destruct x as [|a [|b [|c [|d [|? ?]]]]]; try done.
    change (@fft_data GQ gq_fft) with dft. rewrite !dft_two_vectors.
    destruct (gq_half_add_sub a b) as (_ & _ & -> & ->).
    destruct (gq_half_add_sub c d) as (_ & _ & -> & ->). done.
Qed.

End ExactLaws.

Section Witnesses.
Import Exact.

Ltac concrete :=
  repeat first
    [ done
    | split
    | intros ? [=]
    | intros ? ? [=]
    | progress simpl
    | vm_compute; reflexivity
    | vm_compute; lia
    | vm_compute; discriminate ].

Ltac gq_eq := apply (bool_decide_eq_true_1 _); vm_compute; reflexivity.

(** C2 as stated fails, in three ways.  The constant transfer function 2
    is real, hence its own conjugate, and [backward] after [forward]
    turns the samples [1; 3] into [4; 12].  The matrix [[0, -1j], [1j, 0]]
    is Hermitian (and unitary), and for a field of real dtype the cast
    of the cache to that dtype leaves the zero matrix, so that the round
    trip gives zeros.  The transfer function [1, -1, 1, -1] is real (and
    of modulus one), and with padding from two points to four the round
    trip gives zeros. *)
Lemma round_trip_counterexample :
  (conjugate_symmetric (lit_data (double_tf grid2))
   ∧ ∃ f1 self1 σ1 f2 self2 σ2,
       forward double_filter field13 state13 = (Return (f1, self1), σ1)
       ∧ backward self1 f1 σ1 = (Return (f2, self2), σ2)
       ∧ heap state13 !! buf (fdata field13) = Some [gq 1 0; gq 3 0]
       ∧ heap σ2 !! buf (fdata f2) = Some [gq 4 0; gq 12 0]
       ∧ heap σ2 !! buf (fdata f2) ≠ heap state13 !! buf (fdata field13))
  ∧ (hermitian_matrices 2 2 (lit_data (pauli_tf grid2))
     ∧ ∃ f1 self1 σ1 f2 self2 σ2,
         forward pauli_filter real_vector1357 state1357 = (Return (f1, self1), σ1)
         ∧ backward self1 f1 σ1 = (Return (f2, self2), σ2)
         ∧ heap state1357 !! buf (fdata real_vector1357)
           = Some [gq 1 0; gq 3 0; gq 5 0; gq 7 0]
         ∧ heap σ2 !! buf (fdata f2) = Some [gq 0 0; gq 0 0; gq 0 0; gq 0 0]
         ∧ heap σ2 !! buf (fdata f2) ≠ heap state1357 !! buf (fdata real_vector1357))
  ∧ (conjugate_symmetric (lit_data (alternating_tf grid4))
     ∧ ∃ f1 self1 σ1 f2 self2 σ2,
         forward alternating_padded_filter field13 state13 = (Return (f1, self1), σ1)
         ∧ backward self1 f1 σ1 = (Return (f2, self2), σ2)
         ∧ heap state13 !! buf (fdata field13) = Some [gq 1 0; gq 3 0]
         ∧ heap σ2 !! buf (fdata f2) = Some [gq 0 0; gq 0 0]
         ∧ heap σ2 !! buf (fdata f2) ≠ heap state13 !! buf (fdata field13)).
Proof.
  split; [|split].
  - split; [repeat constructor; gq_eq|].
    eexists _, _, _, _, _, _.
    split; [vm_compute; reflexivity|]. split; [vm_compute; reflexivity|].
    split; [done|]. split; [gq_eq|].
    intros H. vm_compute in H. discriminate.
  - split.
    { intros p i j Hp Hi Hj.
      destruct p as [|[|p]], i as [|[|i]], j as [|[|j]]; try lia; gq_eq. }
    eexists _, _, _, _, _, _.
    split; [vm_compute; reflexivity|]. split; [vm_compute; reflexivity|].
    split; [done|]. split; [gq_eq|].
    intros H. vm_compute in H. discriminate.
  - split; [repeat constructor; gq_eq|].
    eexists _, _, _, _, _, _.
    split; [vm_compute; reflexivity|]. split; [vm_compute; reflexivity|].
    split; [done|]. split; [gq_eq|].
    intros H. vm_compute in H. discriminate.
Qed.

Lemma filter_round_trip_unitary_witness :
  (∃ f1 self1 σ1 f2 self2 σ2,
     forward phase_filter field13 state13 = (Return (f1, self1), σ1)
     ∧ backward self1 f1 σ1 = (Return (f2, self2), σ2)
     ∧ heap σ2 !! buf (fdata f2) = Some [gq 1 0; gq 3 0])
  ∧ (∃ f1 self1 σ1 f2 self2 σ2,
       backward pauli_filter vector1357 state1357 = (Return (f1, self1), σ1)
       ∧ forward self1 f1 σ1 = (Return (f2, self2), σ2)
       ∧ heap σ2 !! buf (fdata f2) = Some [gq 1 0; gq 3 0; gq 5 0; gq 7 0]).
Proof.
  split.
  - destruct (filter_round_trip_unitary (H:=gq_laws) ScalarTF phase_filter field13 false
                state13 (lit_data (phase_tf grid2)) [gq 1 0; gq 3 0])
      as (f1 & self1 & σ1 & f2 & self2 & σ2 & H1 & H2 & _ & _ & H3 & _).
    + unfold unpadded_filter, cache_valid, wf_source, wf_lit, wf_grid, wf_flat. concrete.
    + repeat constructor; gq_eq.
    + unfold wf_field, wf_grid, wf_flat. concrete.
    + done.
    + done.
    + done.
    + done.
    + done.
    + exact dft_inverse_pair.
    + exists f1, self1, σ1, f2, self2, σ2.
      split; [exact H1|]. split; [exact H2|exact H3].
  - destruct (filter_round_trip_unitary (H:=gq_laws) (MatrixTF 2) pauli_filter vector1357 true
                state1357 (lit_data (pauli_tf grid2)) [gq 1 0; gq 3 0; gq 5 0; gq 7 0])
      as (f1 & self1 & σ1 & f2 & self2 & σ2 & H1 & H2 & _ & _ & H3 & _).
    + unfold unpadded_filter, cache_valid, wf_source, wf_lit, wf_grid, wf_flat. concrete.
    + intros p i k Hp Hi Hk. vm_compute in Hp.
      destruct p as [|[|p]], i as [|[|i]], k as [|[|k]]; try lia; split; gq_eq.
    + unfold wf_field, wf_grid, wf_flat. concrete.
    + done.
    + done.
    + done.
    + done.
    + done.
    + exact dft_inverse_pair_vectors.
    + exists f1, self1, σ1, f2, self2, σ2.
      split; [exact H1|]. split; [exact H2|exact H3].
Defined.

Lemma apply_transfer_function_cases_witness :
  ∃ r σ',
    apply_transfer_function phase_filter matrix_tfc vector_f false matrix_state
    = (Return r, σ')
    ∧ shape r = [2; 2]
    ∧ heap σ' !! buf r
      = Some (matvec_data 2 2 2
                [gq 1 0; gq 1 0; gq 2 0; gq 2 0; gq 3 0; gq 3 0; gq 4 0; gq 4 0]
                [gq 1 0; gq 0 0; gq 0 0; gq 1 0]).
Proof.
  destruct (apply_transfer_function_cases phase_filter matrix_tfc vector_f false matrix_state
              [gq 1 0; gq 1 0; gq 2 0; gq 2 0; gq 3 0; gq 3 0; gq 4 0; gq 4 0]
              [gq 1 0; gq 0 0; gq 0 0; gq 1 0]) as [Hmat _].
  - unfold wf_grid. concrete.
  - done.
  - done.
  - destruct (Hmat 2 2 eq_refl eq_refl) as (_ & r & σ' & H1 & H2 & H3).
    by exists r, σ'.
Defined.

Lemma operation_preserves_input_witness :
  heap (_operation padded_filter field13 false state13).2 !! 0 = Some [gq 1 0; gq 3 0]
  ∧ Forall (overwrite_policy padded_filter 0)
      (new_events state13 (_operation padded_filter field13 false state13).2).
Proof.
  destruct (operation_preserves_input padded_filter field13 false state13) as (H1 & H2 & _).
  - simpl. lia.
  - intros ? [=].
  - split; [exact H1|exact H2].
Defined.

Lemma operation_result_witness :
  ∃ res self' σ',
    _operation padded_filter field13 false state13 = (Return (res, self'), σ')
    ∧ grid res = grid2
    ∧ shape (fdata res) = [2].
Proof.
  destruct (operation_result padded_filter field13 false state13)
    as (res & self' & σ' & H1 & H2 & H3 & _).
  - unfold wf_filter, wf_source, scalar_source, wf_lit, wf_grid, wf_flat. concrete.
  - unfold wf_field, wf_grid, wf_flat. concrete.
  - done.
  - intros ? [=].
  - exists res, self', σ'. split; [exact H1|]. split; [exact H2|exact H3].
Defined.

Lemma compute_functions_transfer_cache_witness :
  ∃ self' σ',
    _compute_functions padded_filter field13 state13 = (Return self', σ')
    ∧ filter is_cache_event (new_events state13 σ')
      = [EvGenerator grid4; EvIfftshift [(-1)%Z]].
Proof.
  destruct (compute_functions_transfer_cache padded_filter field13 state13)
    as (self' & σ' & Hrun & _ & _ & Hgen).
  - unfold wf_source, wf_lit, wf_grid, wf_flat. concrete.
  - unfold wf_grid. concrete.
  - exists self', σ'. split; [exact Hrun|].
    destruct (Hgen (or_introl eq_refl) phase_tf eq_refl) as [H _]. exact H.
Defined.

Lemma compute_functions_internal_array_witness :
  ∃ self' σ' a,
    _compute_functions padded_filter field13 state13 = (Return self', σ')
    ∧ internal_array self' = Some a
    ∧ shape a = [4]
    ∧ heap σ' !! buf a = Some (replicate 4 (gq 0 0)).
Proof.
  destruct (compute_functions_internal_array padded_filter field13 state13)
    as (self' & σ' & Hrun & _ & Hre & _).
  - unfold wf_source, wf_lit, wf_grid, wf_flat. concrete.
  - unfold wf_grid. concrete.
  - destruct (Hre (or_introl eq_refl)) as (_ & a & Ha & _ & Hs & _ & Hz).
    exists self', σ', a. split; [exact Hrun|]. split; [exact Ha|].
    split; [exact Hs|exact Hz].
Defined.

End Witnesses.

Section SymbolicWitness.
Import Symbolic.

Lemma set_shear_phase_ramp_witness :
  ∃ self' filter data σ',
    set_shear sym_fft_grid (sym_shear 0) (Var "a" 0) sym_state = (Return self', σ')
    ∧ _filter self' = Some filter
    ∧ shape filter = [3; 2]
    ∧ heap σ' !! buf filter = Some data
    ∧ data !! 5
      = Some (Exp (Mul (Mul (Neg ImagUnit) (Var "a" 0)) (Mul (Var "y" 2) (Var "u" 0)))).
Proof.
  destruct (set_shear_phase_ramp sym_fft_grid (sym_shear 0) (Var "a" 0) sym_state
              (coords "u" 2) (coords "y" 3))
    as (self' & filter & data & σ' & H1 & H2 & _ & _ & _ & H3 & _ & H4 & _).
  - by left.
  - reflexivity.
  - reflexivity.
  - destruct (H4 eq_refl) as [H5 H6].
    exists self', filter, data, σ'.
    split; [exact H1|]. split; [exact H2|]. split; [exact H5|]. split; [exact H3|].
    exact (H6 2 1 (Var "y" 2) (Var "u" 0) eq_refl eq_refl).
Defined.

End SymbolicWitness.

(** For an element whose [forward] returns its wavefront, as every
    concrete element does, the call does not hand the wavefront back: it
    ends in [TypeError]. *)
Lemma call_of_forwarding_element (w : nat) :
  oe_forward passthrough_element w () = (Return (VWavefront w), ())
  ∧ __call__ passthrough_element w ()
    = (Raise (TypeError "exceptions must derive from BaseException"), ()).
Proof. done. Qed.
